(** * voice-party SFU: signaling server and token codec

    A shallow embedding of [apps/sfu/src/token.ts] and of the two variants of
    [apps/sfu/src/server.ts] (the token-gated server and the earlier server
    without a token gate), with the properties of the specification proved
    or refuted on it. Further properties of the same code, and of
    [apps/sfu/scripts/mkToken.cjs], follow them.

    Conventions.
    - JavaScript strings are [string]s holding their UTF-8 bytes, so that
      [Buffer.from(s, "utf8")] and [buf.toString("utf8")] are the identity
      on well-formed text.
    - JavaScript numbers are integers ([Z]); the token times are whole
      seconds.
    - A JavaScript [Map] is an association list in insertion order
      ([JsMap]); a [Set] is a duplicate-free list in insertion order.
    - Objects shared by reference (the [Client] records, reachable from
      [sessions], from [room.peers] and from timers and event closures) live
      in a heap and are named by their address.
    - A handler runs to completion before the next event is taken: the
      calls it awaits are answered by the engine within the same step, and
      what the engine answers is a parameter of the step.
    - [ws.send] on a socket sends and returns; a send that fails is
      swallowed where the source wraps it in [try]. *)

From Stdlib Require Import ZArith Ascii String List Lia Bool.
From stdpp Require Import base tactics option list gmap strings.

Set Warnings "-clear-no-such-hyp".

Open Scope string_scope.
Open Scope list_scope.
Open Scope Z_scope.

(** Split a conjunction and nothing else. *)
Ltac conj_split :=
  lazymatch goal with
  | |- _ ∧ _ => split; [|conj_split]
  | _ => idtac
  end.

(** ** Lists three elements at a time *)

Section ind3.
Context {A : Type} (P : list A → Prop).
Hypothesis P0 : P [].
Hypothesis P1 : ∀ a, P [a].
Hypothesis P2 : ∀ a b, P [a; b].
Hypothesis P3 : ∀ a b c l, P l → P (a :: b :: c :: l).

Lemma list_ind3 : ∀ l, P l.
Proof.
  assert (H : ∀ l, P l ∧ (∀ a, P (a :: l)) ∧ (∀ a b, P (a :: b :: l))).
  { induction l as [|x l (Hl & Hl1 & Hl2)]; [by auto|].
    split; [apply Hl1|]. split; [intros; apply Hl2|].
    intros; by apply P3. }
  intros l. apply H.
Qed.
End ind3.

(** ** Base64 as [Buffer] implements it *)

Module Base64.

Definition Buffer := list ascii.

(** A six-bit group, most significant bit first. *)
Record sextet := Sx { s5 : bool; s4 : bool; s3 : bool; s2 : bool; s1 : bool; s0 : bool }.

Definition sextet_index (s : sextet) : nat :=
  let b (x : bool) (w : nat) := if x then w else 0%nat in
  (b (s5 s) 32 + b (s4 s) 16 + b (s3 s) 8 + b (s2 s) 4 + b (s1 s) 2 + b (s0 s) 1)%nat.

Definition sextet_of_index (n : nat) : sextet :=
  Sx (Nat.testbit n 5) (Nat.testbit n 4) (Nat.testbit n 3)
     (Nat.testbit n 2) (Nat.testbit n 1) (Nat.testbit n 0).

Definition alphabet : list ascii :=
  list_ascii_of_string
    "ABCDEFGHIJKLMNOPQRSTUVWXYZabcdefghijklmnopqrstuvwxyz0123456789+/".

Definition char_of_sextet (s : sextet) : ascii :=
  nth (sextet_index s) alphabet "A"%char.

Fixpoint index_of (c : ascii) (l : list ascii) : option nat :=
  match l with
  | [] => None
  | x :: l' => if Ascii.eqb c x then Some 0%nat else S <$> index_of c l'
  end.

(** Node's decoder reads the URL-safe characters as well. *)
Definition sextet_of_char (c : ascii) : option sextet :=
  if Ascii.eqb c "-" then Some (sextet_of_index 62)
  else if Ascii.eqb c "_" then Some (sextet_of_index 63)
  else sextet_of_index <$> index_of c alphabet.

(** Three bytes are four sextets. *)
Definition hi6 (a : ascii) : sextet :=
  let '(Ascii a0 a1 a2 a3 a4 a5 a6 a7) := a in Sx a7 a6 a5 a4 a3 a2.
Definition lo2_hi4 (a b : ascii) : sextet :=
  let '(Ascii a0 a1 _ _ _ _ _ _) := a in
  let '(Ascii _ _ _ _ b4 b5 b6 b7) := b in Sx a1 a0 b7 b6 b5 b4.
Definition lo4_hi2 (b c : ascii) : sextet :=
  let '(Ascii b0 b1 b2 b3 _ _ _ _) := b in
  let '(Ascii _ _ _ _ _ _ c6 c7) := c in Sx b3 b2 b1 b0 c7 c6.
Definition lo6 (c : ascii) : sextet :=
  let '(Ascii c0 c1 c2 c3 c4 c5 _ _) := c in Sx c5 c4 c3 c2 c1 c0.

Definition byte1 (p q : sextet) : ascii :=
  Ascii (s4 q) (s5 q) (s0 p) (s1 p) (s2 p) (s3 p) (s4 p) (s5 p).
Definition byte2 (q r : sextet) : ascii :=
  Ascii (s2 r) (s3 r) (s4 r) (s5 r) (s0 q) (s1 q) (s2 q) (s3 q).
Definition byte3 (r t : sextet) : ascii :=
  Ascii (s0 t) (s1 t) (s2 t) (s3 t) (s4 t) (s5 t) (s0 r) (s1 r).

Definition zero : ascii := Ascii false false false false false false false false.

(** [buf.toString("base64")]: the standard alphabet, padded with [=]. *)
Fixpoint toString_base64 (buf : Buffer) : list ascii :=
  match buf with
  | [] => []
  | [a] =>
      [char_of_sextet (hi6 a); char_of_sextet (lo2_hi4 a zero); "="%char; "="%char]
  | [a; b] =>
      [char_of_sextet (hi6 a); char_of_sextet (lo2_hi4 a b);
       char_of_sextet (lo4_hi2 b zero); "="%char]
  | a :: b :: c :: rest =>
      char_of_sextet (hi6 a) :: char_of_sextet (lo2_hi4 a b)
        :: char_of_sextet (lo4_hi2 b c) :: char_of_sextet (lo6 c)
        :: toString_base64 rest
  end.

(** [Buffer.from(s, "base64")]: the decoder stops at the first [=],
    skips what is not in the alphabet, and drops an incomplete tail. *)
Fixpoint upto_pad (s : list ascii) : list ascii :=
  match s with
  | [] => []
  | c :: s' => if Ascii.eqb c "=" then [] else c :: upto_pad s'
  end.

Fixpoint bytes_of_sextets (l : list sextet) : Buffer :=
  match l with
  | p :: q :: r :: t :: rest =>
      byte1 p q :: byte2 q r :: byte3 r t :: bytes_of_sextets rest
  | [p; q; r] => [byte1 p q; byte2 q r]
  | [p; q] => [byte1 p q]
  | _ => []
  end.

Definition from_base64 (s : list ascii) : Buffer :=
  bytes_of_sextets (omap sextet_of_char (upto_pad s)).

(** *** [base64urlEncode] and [base64urlDecodeToBuffer] of token.ts *)

Definition replace_char (x y : ascii) (s : list ascii) : list ascii :=
  map (λ c, if Ascii.eqb c x then y else c) s.

Definition remove_char (x : ascii) (s : list ascii) : list ascii :=
  List.filter (λ c, negb (Ascii.eqb c x)) s.

Definition base64urlEncode (buf : Buffer) : list ascii :=
  replace_char "/" "_" (replace_char "+" "-" (remove_char "=" (toString_base64 buf))).

Definition base64urlDecodeToBuffer (s : list ascii) : Buffer :=
  let s := replace_char "_" "/" (replace_char "-" "+" s) in
  let pad := (length s mod 4)%nat in
  let s := if decide (pad = 0%nat) then s else s ++ replicate (4 - pad) "="%char in
  from_base64 s.

(** The unpadded URL-safe text of a buffer, written directly. *)
Definition url_char (s : sextet) : ascii :=
  let c := char_of_sextet s in
  if Ascii.eqb c "+" then "-"%char else if Ascii.eqb c "/" then "_"%char else c.

Fixpoint url_text (buf : Buffer) : list sextet :=
  match buf with
  | [] => []
  | [a] => [hi6 a; lo2_hi4 a zero]
  | [a; b] => [hi6 a; lo2_hi4 a b; lo4_hi2 b zero]
  | a :: b :: c :: rest =>
      hi6 a :: lo2_hi4 a b :: lo4_hi2 b c :: lo6 c :: url_text rest
  end.

Lemma char_of_sextet_not_pad s : Ascii.eqb (char_of_sextet s) "=" = false.
Proof. by destruct s as [[] [] [] [] [] []]. Qed.

Lemma url_char_spec s :
  url_char s ≠ "="%char ∧ url_char s ≠ "."%char ∧
  sextet_of_char
    (if Ascii.eqb (if Ascii.eqb (url_char s) "-" then "+"%char else url_char s) "_"
     then "/"%char
     else if Ascii.eqb (url_char s) "-" then "+"%char else url_char s) = Some s.
Proof. by destruct s as [[] [] [] [] [] []]. Qed.

Lemma url_char_replace s :
  (let c := char_of_sextet s in
   let c := if Ascii.eqb c "+" then "-"%char else c in
   if Ascii.eqb c "/" then "_"%char else c) = url_char s.
Proof. by destruct s as [[] [] [] [] [] []]. Qed.

Lemma base64urlEncode_text buf : base64urlEncode buf = map url_char (url_text buf).
Proof.
  unfold base64urlEncode, remove_char, replace_char.
  induction buf as [|a|a b|a b c l IH] using list_ind3; try done.
  - cbn [toString_base64 url_text map List.filter].
    rewrite !char_of_sextet_not_pad. cbn [negb map Ascii.eqb Bool.eqb List.filter].
    by rewrite <- !url_char_replace.
  - cbn [toString_base64 url_text map List.filter].
    rewrite !char_of_sextet_not_pad. cbn [negb map Ascii.eqb Bool.eqb List.filter].
    by rewrite <- !url_char_replace.
  - cbn [toString_base64 url_text map List.filter].
    rewrite !char_of_sextet_not_pad. cbn [negb map].
    rewrite IH. by rewrite <- !url_char_replace.
Qed.

Lemma bytes_of_url_text buf : bytes_of_sextets (url_text buf) = buf.
Proof.
  induction buf as [|a|a b|a b c l IH] using list_ind3; try done.
  - by destruct a.
  - by destruct a, b.
  - cbn [url_text bytes_of_sextets]. rewrite IH. by destruct a, b, c.
Qed.

Definition unurl (c : ascii) : ascii :=
  let c := if Ascii.eqb c "-" then "+"%char else c in
  if Ascii.eqb c "_" then "/"%char else c.

Lemma unurl_url_char s :
  Ascii.eqb (unurl (url_char s)) "=" = false ∧
  sextet_of_char (unurl (url_char s)) = Some s.
Proof. by destruct s as [[] [] [] [] [] []]. Qed.

Lemma decode_text (l : list sextet) (k : nat) :
  omap sextet_of_char
    (upto_pad (map unurl (map url_char l) ++ replicate k "="%char)) = l.
Proof.
  induction l as [|s l IH]; cbn [map app].
  - by destruct k.
  - destruct (unurl_url_char s) as [Hp Hs].
    cbn [upto_pad]. rewrite Hp. cbn [omap list_omap]. by rewrite Hs, IH.
Qed.

(** Round trip of the two helpers of token.ts. *)
Lemma base64url_roundtrip buf :
  base64urlDecodeToBuffer (base64urlEncode buf) = buf.
Proof.
  unfold base64urlDecodeToBuffer. rewrite base64urlEncode_text.
  unfold replace_char. rewrite !map_map.
  set (m := map _ (url_text buf)).
  assert (Hm : m = map unurl (map url_char (url_text buf))).
  { subst m. rewrite map_map. apply map_ext. intros s. unfold unurl.
    by destruct s as [[] [] [] [] [] []]. }
  unfold from_base64.
  destruct (decide _).
  - rewrite <- (app_nil_r m), Hm.
    rewrite (decode_text _ 0). apply bytes_of_url_text.
  - rewrite Hm, decode_text. apply bytes_of_url_text.
Qed.

Lemma base64urlEncode_no_dot buf : "."%char ∉ base64urlEncode buf.
Proof.
  rewrite base64urlEncode_text. intros H.
  apply list_elem_of_fmap in H as (s & Hs & _).
  by destruct (url_char_spec s) as (_ & Hd & _).
Qed.

End Base64.

(** ** JavaScript values *)

Module Js.

(** What [JSON.parse] can return. *)
#[warnings="-register-all"]
Inductive json :=
| JNull
| JBool (b : bool)
| JNum (z : Z)
| JStr (s : string)
| JArr (l : list json)
| JObj (fields : list (string * json)).

(** A value or [undefined]. *)
Definition jsval := option json.

(** Thrown exceptions carry their message. *)
Inductive Res (A : Type) :=
| Ok (a : A)
| Throw (message : string).
Arguments Ok {A} a.
Arguments Throw {A} message.

Fixpoint assoc {A} (k : string) (l : list (string * A)) : option A :=
  match l with
  | [] => None
  | (k', v) :: l' => if String.eqb k k' then Some v else assoc k l'
  end.

(** [v?.k] *)
Definition prop (v : jsval) (k : string) : jsval :=
  match v with
  | Some (JObj fields) => assoc k fields
  | _ => None
  end.

(** [v.k]: a property read of [null] or [undefined] throws. *)
Definition prop_strict (v : jsval) (k : string) : Res jsval :=
  match v with
  | None | Some JNull => Throw "TypeError"
  | _ => Ok (prop v k)
  end.

Definition truthy (v : jsval) : bool :=
  match v with
  | None | Some JNull => false
  | Some (JBool b) => b
  | Some (JNum z) => negb (z =? 0)
  | Some (JStr s) => negb (String.eqb s "")
  | Some (JArr _) | Some (JObj _) => true
  end.

(** [a || b] *)
Definition or_else (a b : jsval) : jsval := if truthy a then a else b.

Definition is_string (v : jsval) : bool :=
  match v with Some (JStr _) => true | _ => false end.
Definition is_number (v : jsval) : bool :=
  match v with Some (JNum _) => true | _ => false end.

(** A string that is set and not empty, as [if (x)] tests it. *)
Definition nonempty (o : option string) : option string :=
  match o with
  | Some s => if String.eqb s "" then None else Some s
  | None => None
  end.

(** [v === "s"] *)
Definition is_str (v : jsval) (s : string) : bool :=
  match v with Some (JStr s') => String.eqb s' s | _ => false end.

Definition digit (n : Z) : ascii := ascii_of_nat (48 + Z.to_nat n).

Fixpoint digits (fuel : nat) (n : Z) (acc : list ascii) : list ascii :=
  match fuel with
  | O => acc
  | S fuel' =>
      if n <? 10 then digit n :: acc
      else digits fuel' (n / 10) (digit (n mod 10) :: acc)
  end.

Definition string_of_Z (z : Z) : string :=
  let a := Z.abs z in
  let d := string_of_list_ascii (digits (S (Z.to_nat (Z.log2 a))) a []) in
  if z <? 0 then String "-" d else d.

Fixpoint join (sep : string) (l : list string) : string :=
  match l with
  | [] => ""
  | [s] => s
  | s :: l' => s +:+ sep +:+ join sep l'
  end.

(** [String(v)] *)
Fixpoint String_json (v : json) : string :=
  match v with
  | JNull => "null"
  | JBool true => "true"
  | JBool false => "false"
  | JNum z => string_of_Z z
  | JStr s => s
  | JArr l =>
      join ","
        (map (λ x, match x with JNull => "" | _ => String_json x end) l)
  | JObj _ => "[object Object]"
  end.

Definition String_ (v : jsval) : string :=
  match v with None => "undefined" | Some j => String_json j end.

(** [s.trim()] on the ASCII white space (tab, line feed, vertical tab,
    form feed, carriage return, space). *)
Definition is_space (c : ascii) : bool :=
  let n := nat_of_ascii c in
  ((9 <=? n)%nat && (n <=? 13)%nat) || (n =? 32)%nat.

Fixpoint trim_start (s : list ascii) : list ascii :=
  match s with
  | c :: s' => if is_space c then trim_start s' else s
  | [] => []
  end.

Definition trim (s : string) : string :=
  string_of_list_ascii
    (rev (trim_start (rev (trim_start (list_ascii_of_string s))))).

(** [String(v || "").trim()], as the handlers read a payload field. *)
Definition field (payload : jsval) (k : string) : string :=
  trim (String_ (or_else (prop payload k) (Some (JStr "")))).

(** An object literal; [JSON.stringify] leaves out the properties that
    are [undefined]. *)
Definition obj (fields : list (string * jsval)) : json :=
  JObj (omap (λ '(k, v), (λ j, (k, j)) <$> v) fields).

End Js.
Export Js.

(** ** A JSON printer and reader

    [JSON.stringify] and [JSON.parse] on the values above (integers only),
    used to run the codec on concrete tokens. *)

Module Json.

(** The double quote. *)
Definition dq : ascii := ascii_of_nat 34.

(** A JSON text written with single quotes for the double ones. *)
Definition qq (s : string) : string :=
  string_of_list_ascii
    (map (λ c, if Ascii.eqb c "'" then dq else c) (list_ascii_of_string s)).

Definition hex_digit (n : nat) : ascii :=
  nth n (list_ascii_of_string "0123456789abcdef") "0"%char.

Definition escape_char (c : ascii) : list ascii :=
  let n := nat_of_ascii c in
  if Ascii.eqb c dq then ["\"%char; dq]
  else if Ascii.eqb c "\" then ["\"%char; "\"%char]
  else if (n =? 8)%nat then ["\"%char; "b"%char]
  else if (n =? 9)%nat then ["\"%char; "t"%char]
  else if (n =? 10)%nat then ["\"%char; "n"%char]
  else if (n =? 12)%nat then ["\"%char; "f"%char]
  else if (n =? 13)%nat then ["\"%char; "r"%char]
  else if (n <? 32)%nat then
    ["\"%char; "u"%char; "0"%char; "0"%char; hex_digit (n / 16); hex_digit (n mod 16)]
  else [c].

Definition quote (s : string) : list ascii :=
  dq :: concat (map escape_char (list_ascii_of_string s)) ++ [dq].

Fixpoint sep_concat (sep : ascii) (l : list (list ascii)) : list ascii :=
  match l with
  | [] => []
  | [x] => x
  | x :: l' => x ++ sep :: sep_concat sep l'
  end.

Fixpoint print (v : json) : list ascii :=
  match v with
  | JNull => list_ascii_of_string "null"
  | JBool true => list_ascii_of_string "true"
  | JBool false => list_ascii_of_string "false"
  | JNum z => list_ascii_of_string (string_of_Z z)
  | JStr s => quote s
  | JArr l => "["%char :: sep_concat "," (map print l) ++ ["]"%char]
  | JObj fields =>
      "{"%char
        :: sep_concat ","
             (map (λ kv, quote (fst kv) ++ ":"%char :: print (snd kv)) fields)
        ++ ["}"%char]
  end.

Definition stringify (v : json) : string := string_of_list_ascii (print v).

(** *** Reading *)

Definition skip_ws := trim_start.

Definition hex_value (c : ascii) : option nat :=
  let n := nat_of_ascii c in
  if ((48 <=? n) && (n <=? 57))%nat then Some (n - 48)%nat
  else if ((97 <=? n) && (n <=? 102))%nat then Some (n - 87)%nat
  else if ((65 <=? n) && (n <=? 70))%nat then Some (n - 55)%nat
  else None.

(** The UTF-8 bytes of a code point of the basic plane. *)
Definition utf8 (n : nat) : list ascii :=
  if (n <? 128)%nat then [ascii_of_nat n]
  else if (n <? 2048)%nat then
    [ascii_of_nat (192 + n / 64); ascii_of_nat (128 + n mod 64)]
  else
    [ascii_of_nat (224 + n / 4096); ascii_of_nat (128 + (n / 64) mod 64);
     ascii_of_nat (128 + n mod 64)].

(** After the opening quote: the text and what follows the closing one. *)
Fixpoint read_string (s : list ascii) (fuel : nat) : option (list ascii * list ascii) :=
  match fuel with
  | O => None
  | S fuel' =>
      match s with
      | [] => None
      | c :: r =>
          if Ascii.eqb c dq then Some ([], r)
          else if Ascii.eqb c "\" then
            match r with
            | e :: r' =>
                let plain (x : list ascii) (rest : list ascii) :=
                  '(t, k) ← read_string rest fuel'; Some (x ++ t, k) in
                if Ascii.eqb e "u" then
                  match r' with
                  | h1 :: h2 :: h3 :: h4 :: r'' =>
                      a ← hex_value h1; b ← hex_value h2;
                      c' ← hex_value h3; d ← hex_value h4;
                      plain (utf8 (((a * 16 + b) * 16 + c') * 16 + d)%nat) r''
                  | _ => None
                  end
                else if Ascii.eqb e "n" then plain [ascii_of_nat 10] r'
                else if Ascii.eqb e "t" then plain [ascii_of_nat 9] r'
                else if Ascii.eqb e "r" then plain [ascii_of_nat 13] r'
                else if Ascii.eqb e "b" then plain [ascii_of_nat 8] r'
                else if Ascii.eqb e "f" then plain [ascii_of_nat 12] r'
                else if Ascii.eqb e dq || Ascii.eqb e "\" || Ascii.eqb e "/"
                then plain [e] r'
                else None
            | [] => None
            end
          else if (nat_of_ascii c <? 32)%nat then None
          else '(t, k) ← read_string r fuel'; Some (c :: t, k)
      end
  end.

Definition is_digit (c : ascii) : bool :=
  let n := nat_of_ascii c in ((48 <=? n) && (n <=? 57))%nat.

Fixpoint read_digits (s : list ascii) (acc : Z) : Z * list ascii :=
  match s with
  | c :: r =>
      if is_digit c then read_digits r (acc * 10 + Z.of_nat (nat_of_ascii c - 48))
      else (acc, s)
  | [] => (acc, [])
  end.

Definition read_number (s : list ascii) : option (Z * list ascii) :=
  let '(neg, s) :=
    match s with
    | c :: r => if Ascii.eqb c "-" then (true, r) else (false, s)
    | [] => (false, s)
    end in
  match s with
  | c :: _ =>
      if is_digit c then
        let '(n, r) := read_digits s 0 in
        match r with
        | d :: _ =>
            if Ascii.eqb d "." || Ascii.eqb d "e" || Ascii.eqb d "E" then None
            else Some (if neg : bool then - n else n, r)
        | [] => Some (if neg : bool then - n else n, r)
        end
      else None
  | [] => None
  end.

Definition starts_with (p : string) (s : list ascii) : option (list ascii) :=
  let p := list_ascii_of_string p in
  if decide (take (length p) s = p) then Some (drop (length p) s) else None.

(** A later property of the same name replaces the earlier one. *)
Fixpoint set_field (k : string) (v : json) (l : list (string * json)) :=
  match l with
  | [] => [(k, v)]
  | (k', v') :: l' =>
      if String.eqb k k' then (k, v) :: l' else (k', v') :: set_field k v l'
  end.

Section items.
Variable read : list ascii → option (json * list ascii).

(** After [[] and a first element, or after a comma. *)
Fixpoint read_elems (fuel : nat) (s : list ascii) (acc : list json)
  : option (json * list ascii) :=
  match fuel with
  | O => None
  | S fuel' =>
      '(v, r) ← read s;
      match skip_ws r with
      | c :: r' =>
          if Ascii.eqb c "," then read_elems fuel' r' (acc ++ [v])
          else if Ascii.eqb c "]" then Some (JArr (acc ++ [v]), r')
          else None
      | [] => None
      end
  end.

Fixpoint read_members (fuel : nat) (s : list ascii) (acc : list (string * json))
  : option (json * list ascii) :=
  match fuel with
  | O => None
  | S fuel' =>
      match skip_ws s with
      | q :: r =>
          if Ascii.eqb q dq then
            '(k, r) ← read_string r (S (length r));
            match skip_ws r with
            | c :: r =>
                if Ascii.eqb c ":" then
                  '(v, r) ← read r;
                  let acc := set_field (string_of_list_ascii k) v acc in
                  match skip_ws r with
                  | c :: r' =>
                      if Ascii.eqb c "," then read_members fuel' r' acc
                      else if Ascii.eqb c "}" then Some (JObj acc, r')
                      else None
                  | [] => None
                  end
                else None
            | [] => None
            end
          else None
      | [] => None
      end
  end.
End items.

Fixpoint read_value (fuel : nat) (s : list ascii) : option (json * list ascii) :=
  match fuel with
  | O => None
  | S fuel' =>
      let s := skip_ws s in
      match s with
      | [] => None
      | c :: r =>
          if Ascii.eqb c dq then
            '(t, k) ← read_string r (S (length r));
            Some (JStr (string_of_list_ascii t), k)
          else if Ascii.eqb c "[" then
            match skip_ws r with
            | d :: r' =>
                if Ascii.eqb d "]" then Some (JArr [], r')
                else read_elems (read_value fuel') (length r) r []
            | [] => None
            end
          else if Ascii.eqb c "{" then
            match skip_ws r with
            | d :: r' =>
                if Ascii.eqb d "}" then Some (JObj [], r')
                else read_members (read_value fuel') (length r) r []
            | [] => None
            end
          else
            match starts_with "null" s, starts_with "true" s, starts_with "false" s with
            | Some k, _, _ => Some (JNull, k)
            | _, Some k, _ => Some (JBool true, k)
            | _, _, Some k => Some (JBool false, k)
            | _, _, _ => '(n, k) ← read_number s; Some (JNum n, k)
            end
      end
  end.

Definition parse (s : string) : Res json :=
  let l := list_ascii_of_string s in
  match read_value (S (length l)) l with
  | Some (v, r) =>
      match skip_ws r with
      | [] => Ok v
      | _ => Throw "SyntaxError"
      end
  | None => Throw "SyntaxError"
  end.

Example stringify_payload :
  stringify (JObj [("roomId", JStr "r1"); ("iat", JNum 1000); ("x", JArr [JNull; JBool true])])
  = qq "{'roomId':'r1','iat':1000,'x':[null,true]}".
Proof. reflexivity. Qed.

Example parse_payload :
  parse (qq "{'roomId':'r\n1', 'iat' : -1000,'x':[null,true,{}]}")
  = Ok (JObj [("roomId", JStr (String (ascii_of_nat 114) (String (ascii_of_nat 10) "1")));
              ("iat", JNum (-1000)); ("x", JArr [JNull; JBool true; JObj []])]).
Proof. reflexivity. Qed.

End Json.


(** ** HMAC-SHA256

    What [crypto.createHmac("sha256", key).update(text).digest()] computes
    (FIPS 180-4 and RFC 2104), on 32-bit words held in [Z]. *)

Module Sha256.

Definition w32 (x : Z) : Z := x mod 2 ^ 32.
Definition add32 (x y : Z) : Z := w32 (x + y).
Definition rotr (n x : Z) : Z := Z.lor (Z.shiftr x n) (w32 (Z.shiftl x (32 - n))).
Definition not32 (x : Z) : Z := 2 ^ 32 - 1 - x.

Definition Ch (x y z : Z) : Z := Z.lxor (Z.land x y) (Z.land (not32 x) z).
Definition Maj (x y z : Z) : Z :=
  Z.lxor (Z.lxor (Z.land x y) (Z.land x z)) (Z.land y z).
Definition Sigma0 (x : Z) : Z := Z.lxor (Z.lxor (rotr 2 x) (rotr 13 x)) (rotr 22 x).
Definition Sigma1 (x : Z) : Z := Z.lxor (Z.lxor (rotr 6 x) (rotr 11 x)) (rotr 25 x).
Definition sigma0 (x : Z) : Z := Z.lxor (Z.lxor (rotr 7 x) (rotr 18 x)) (Z.shiftr x 3).
Definition sigma1 (x : Z) : Z := Z.lxor (Z.lxor (rotr 17 x) (rotr 19 x)) (Z.shiftr x 10).

Definition K : list Z :=
  [1116352408; 1899447441; 3049323471; 3921009573; 961987163; 1508970993;
   2453635748; 2870763221; 3624381080; 310598401; 607225278; 1426881987;
   1925078388; 2162078206; 2614888103; 3248222580; 3835390401; 4022224774;
   264347078; 604807628; 770255983; 1249150122; 1555081692; 1996064986;
   2554220882; 2821834349; 2952996808; 3210313671; 3336571891; 3584528711;
   113926993; 338241895; 666307205; 773529912; 1294757372; 1396182291;
   1695183700; 1986661051; 2177026350; 2456956037; 2730485921; 2820302411;
   3259730800; 3345764771; 3516065817; 3600352804; 4094571909; 275423344;
   430227734; 506948616; 659060556; 883997877; 958139571; 1322822218;
   1537002063; 1747873779; 1955562222; 2024104815; 2227730452; 2361852424;
   2428436474; 2756734187; 3204031479; 3329325298].

Definition H0 : list Z :=
  [1779033703; 3144134277; 1013904242; 2773480762; 1359893119; 2600822924;
   528734635; 1541459225].

Definition byte_val (c : ascii) : Z := Z.of_nat (nat_of_ascii c).
Definition val_byte (z : Z) : ascii := ascii_of_nat (Z.to_nat (z mod 256)).

(** Big-endian words of a byte string whose length is a multiple of four. *)
Fixpoint words (l : list ascii) : list Z :=
  match l with
  | a :: b :: c :: d :: r =>
      (((byte_val a * 256 + byte_val b) * 256 + byte_val c) * 256 + byte_val d)
        :: words r
  | _ => []
  end.

Definition word_bytes (w : Z) : list ascii :=
  [val_byte (Z.shiftr w 24); val_byte (Z.shiftr w 16); val_byte (Z.shiftr w 8); val_byte w].

Definition pad (msg : list ascii) : list ascii :=
  let n := length msg in
  let zeros := ((64 - (n + 9) mod 64) mod 64)%nat in
  let bits := Z.of_nat n * 8 in
  msg ++ [ascii_of_nat 128] ++ replicate zeros (ascii_of_nat 0)
      ++ word_bytes (Z.shiftr bits 32) ++ word_bytes (w32 bits).

(** The schedule, newest word first. *)
Fixpoint schedule (n : nat) (rev_w : list Z) : list Z :=
  match n with
  | O => rev_w
  | S n' =>
      let w :=
        add32 (add32 (sigma1 (nth 1 rev_w 0)) (nth 6 rev_w 0))
              (add32 (sigma0 (nth 14 rev_w 0)) (nth 15 rev_w 0)) in
      schedule n' (w :: rev_w)
  end.

Definition round (st : list Z) (kw : Z * Z) : list Z :=
  match st with
  | [a; b; c; d; e; f; g; h] =>
      let t1 := add32 (add32 (add32 h (Sigma1 e)) (add32 (Ch e f g) (fst kw))) (snd kw) in
      let t2 := add32 (Sigma0 a) (Maj a b c) in
      [add32 t1 t2; a; b; c; add32 d t1; e; f; g]
  | _ => st
  end.

Definition compress (st : list Z) (block : list Z) : list Z :=
  let w := rev (schedule 48 (rev block)) in
  let st' := fold_left round (combine K w) st in
  map (λ p, add32 (fst p) (snd p)) (combine st st').

Fixpoint blocks (n : nat) (ws : list Z) (st : list Z) : list Z :=
  match n with
  | O => st
  | S n' => blocks n' (drop 16 ws) (compress st (take 16 ws))
  end.

Definition sha256 (msg : list ascii) : list ascii :=
  let ws := words (pad msg) in
  concat (map word_bytes (blocks (length ws / 16) ws H0)).

Definition xor_byte (x : Z) (c : ascii) : ascii := val_byte (Z.lxor x (byte_val c)).

Definition hmac (key text : list ascii) : list ascii :=
  let key := if (64 <? length key)%nat then sha256 key else key in
  let key := key ++ replicate (64 - length key) (ascii_of_nat 0) in
  sha256 (map (xor_byte 92) key ++ sha256 (map (xor_byte 54) key ++ text)).

Definition hex (l : list ascii) : string :=
  string_of_list_ascii
    (concat (map (λ c, [Json.hex_digit (nat_of_ascii c / 16);
                        Json.hex_digit (nat_of_ascii c mod 16)]) l)).

Example sha256_abc :
  hex (sha256 (list_ascii_of_string "abc"))
  = "ba7816bf8f01cfea414140de5dae2223b00361a396177a9cb410ff61f20015ad".
Proof. vm_compute. reflexivity. Qed.

Example hmac_rfc :
  hex (hmac (list_ascii_of_string "key")
            (list_ascii_of_string "The quick brown fox jumps over the lazy dog"))
  = "f7bc83f430538424b13298e6aa6fb143ef4d59a14946175997479dbc2d1a3cd8".
Proof. vm_compute. reflexivity. Qed.

End Sha256.


(** ** token.ts *)

Module Token.
Import Base64.

Record TokenPayload := {
  roomId : string;
  peerId : string;
  sessionId : option string;
  jti : string;
  iat : Z;
  exp : Z;
}.

(** The object a caller passes to [signToken]. *)
Definition payload_json (p : TokenPayload) : json :=
  obj [("roomId", Some (JStr (roomId p)));
       ("peerId", Some (JStr (peerId p)));
       ("sessionId", JStr <$> sessionId p);
       ("jti", Some (JStr (jti p)));
       ("iat", Some (JNum (iat p)));
       ("exp", Some (JNum (exp p)))].

Record Opts := {
  consumeJti : bool;
  expectedRoomId : option string;
  expectedPeerId : option string;
  expectedSessionId : option string;
  nowSec : option Z;
}.

Definition no_opts : Opts :=
  {| consumeJti := false; expectedRoomId := None; expectedPeerId := None;
     expectedSessionId := None; nowSec := None |}.

(** [usedJti]: jti -> exp (seconds). *)
Definition cleanupUsedJti (nowSec : Z) (usedJti : gmap string Z) : gmap string Z :=
  filter (λ kv, ¬ (kv.2 ≤ nowSec)) usedJti.

(** [s.split(c)] *)
Fixpoint split (c : ascii) (s : list ascii) : list (list ascii) :=
  match s with
  | [] => [[]]
  | x :: r =>
      if Ascii.eqb x c then [] :: split c r
      else match split c r with
           | h :: t => (x :: h) :: t
           | [] => [[x]]
           end
  end.

(** An option that is set and not the empty string. *)
Definition given (o : option string) : bool :=
  match o with Some s => negb (String.eqb s "") | None => false end.

Definition str_of (v : jsval) : string :=
  match v with Some (JStr s) => s | _ => "" end.
Definition num_of (v : jsval) : Z :=
  match v with Some (JNum z) => z | _ => 0 end.

Section codec.

(** The secret, and the library calls of the module. *)
Variable SECRET : string.
Variable createHmac_sha256 : list ascii → list ascii → Buffer.
Variable JSON_stringify : json → string.
Variable JSON_parse : string → Res json.

Definition now_of (opts : Opts) (clock : Z) : Z := default clock (nowSec opts).

(** Lines 75-94 of [verifyToken]: the checks on the parsed payload. *)
Definition payload_checks (parsed : json) (opts : Opts) (clock : Z) : Res json :=
  let payload := Some parsed in
  if negb (truthy (prop payload "roomId")) || negb (is_string (prop payload "roomId"))
  then Throw "no_roomId"
  else if negb (truthy (prop payload "peerId")) || negb (is_string (prop payload "peerId"))
  then Throw "no_peerId"
  else if negb (truthy (prop payload "jti")) || negb (is_string (prop payload "jti"))
  then Throw "no_jti"
  else if negb (truthy (prop payload "iat")) || negb (is_number (prop payload "iat"))
  then Throw "no_iat"
  else if negb (truthy (prop payload "exp")) || negb (is_number (prop payload "exp"))
  then Throw "no_exp"
  else
    let now := now_of opts clock in
    if num_of (prop payload "exp") <=? now then Throw "expired"
    else if now + 30 <? num_of (prop payload "iat") then Throw "iat_in_future"
    else if given (expectedRoomId opts)
            && negb (String.eqb (str_of (prop payload "roomId"))
                                (default "" (expectedRoomId opts)))
    then Throw "roomId_mismatch"
    else if given (expectedPeerId opts)
            && negb (String.eqb (str_of (prop payload "peerId"))
                                (default "" (expectedPeerId opts)))
    then Throw "peerId_mismatch"
    else if given (expectedSessionId opts)
            && negb (is_str (or_else (prop payload "sessionId") (Some (JStr "")))
                            (default "" (expectedSessionId opts)))
    then Throw "sessionId_mismatch"
    else Ok parsed.

(** A property read of [null] throws. *)
Definition check_payload (parsed : json) (opts : Opts) (clock : Z) : Res json :=
  match parsed with
  | JNull => Throw "TypeError"
  | _ => payload_checks parsed opts clock
  end.

(** Lines 58-94 of [verifyToken]: everything before the jti table is
    touched. [clock] is [Math.floor(Date.now() / 1000)]. *)
Definition validate (token : string) (opts : Opts) (clock : Z) : Res json :=
  match split "." (list_ascii_of_string token) with
  | [payloadB64; sigB64] =>
      let expectedSig := createHmac_sha256 (list_ascii_of_string SECRET) payloadB64 in
      let gotSig := base64urlDecodeToBuffer sigB64 in
      if negb (length gotSig =? length expectedSig)%nat then Throw "bad_sig_len"
      else if negb (bool_decide (gotSig = expectedSig)) then Throw "bad_sig"
      else
        let payloadJson := string_of_list_ascii (base64urlDecodeToBuffer payloadB64) in
        match JSON_parse payloadJson with
        | Throw e => Throw e
        | Ok payload => check_payload payload opts clock
        end
  | _ => Throw "bad_format"
  end.

(** [verifyToken], with the jti table passed in and out. *)
Definition verifyToken (token : string) (opts : Opts) (clock : Z)
    (usedJti : gmap string Z) : Res json * gmap string Z :=
  match validate token opts clock with
  | Throw e => (Throw e, usedJti)
  | Ok payload =>
      let usedJti := cleanupUsedJti (now_of opts clock) usedJti in
      if consumeJti opts then
        let jti := str_of (prop (Some payload) "jti") in
        if bool_decide (is_Some (usedJti !! jti)) then (Throw "replayed", usedJti)
        else (Ok payload, <[jti := num_of (prop (Some payload) "exp")]> usedJti)
      else (Ok payload, usedJti)
  end.

Definition signToken (payload : TokenPayload) : string :=
  let payloadB64 :=
    base64urlEncode (list_ascii_of_string (JSON_stringify (payload_json payload))) in
  let sig := createHmac_sha256 (list_ascii_of_string SECRET) payloadB64 in
  let sigB64 := base64urlEncode sig in
  string_of_list_ascii (payloadB64 ++ "."%char :: sigB64).

(** *** The codec's laws *)

Definition fields_ok (p : TokenPayload) : Prop :=
  roomId p ≠ "" ∧ peerId p ≠ "" ∧ jti p ≠ "" ∧ iat p ≠ 0 ∧ exp p ≠ 0.

(** What the library promises for the payload [p]:
    [JSON.parse(JSON.stringify(p))] reads [p] back. *)
Definition json_law (p : TokenPayload) : Prop :=
  JSON_parse (JSON_stringify (payload_json p)) = Ok (payload_json p).

Lemma split_no_sep c s : c ∉ s → split c s = [s].
Proof.
  induction s as [|x s IH]; [done|]. intros Hc.
  cbn. destruct (Ascii.eqb_spec x c) as [->|_]; [set_solver|].
  rewrite IH; [done|set_solver].
Qed.

Lemma split_sep c a b : c ∉ a → c ∉ b → split c (a ++ c :: b) = [a; b].
Proof.
  intros Ha Hb. induction a as [|x a IH]; cbn.
  - by rewrite Ascii.eqb_refl, split_no_sep.
  - destruct (Ascii.eqb_spec x c) as [->|_]; [set_solver|].
    rewrite IH; [done|set_solver].
Qed.

Lemma payload_fields p :
  let v := Some (payload_json p) in
  prop v "roomId" = Some (JStr (roomId p)) ∧
  prop v "peerId" = Some (JStr (peerId p)) ∧
  prop v "sessionId" = JStr <$> sessionId p ∧
  prop v "jti" = Some (JStr (jti p)) ∧
  prop v "iat" = Some (JNum (iat p)) ∧
  prop v "exp" = Some (JNum (exp p)).
Proof. destruct p as [r q [s|] j i e]; by repeat split. Qed.

Lemma eqb_empty s : s ≠ "" → String.eqb s "" = false.
Proof. intros H. by apply String.eqb_neq. Qed.

Lemma validate_sign p opts clock :
  json_law p →
  validate (signToken p) opts clock = check_payload (payload_json p) opts clock.
Proof.
  intros Hlaw. unfold validate, signToken.
  rewrite list_ascii_of_string_of_list_ascii.
  rewrite split_sep by apply base64urlEncode_no_dot.
  rewrite !base64url_roundtrip, Nat.eqb_refl, bool_decide_eq_true_2 by done.
  cbn [negb]. rewrite string_of_list_ascii_of_string. by rewrite Hlaw.
Qed.

(** The checks on a payload that [signToken] was given. *)
Lemma check_payload_sign p opts clock :
  fields_ok p →
  expectedRoomId opts = None → expectedPeerId opts = None →
  expectedSessionId opts = None →
  check_payload (payload_json p) opts clock =
    if exp p <=? now_of opts clock then Throw "expired"
    else if now_of opts clock + 30 <? iat p then Throw "iat_in_future"
    else Ok (payload_json p).
Proof.
  intros (Hr & Hp & Hj & Hi & He) Er Ep Es.
  destruct (payload_fields p) as (Fr & Fp & _ & Fj & Fi & Fe).
  change (check_payload (payload_json p) opts clock)
    with (payload_checks (payload_json p) opts clock).
  unfold payload_checks.
  rewrite Fr, Fp, Fj, Fi, Fe, Er, Ep, Es. cbn [truthy is_string is_number num_of given].
  rewrite !eqb_empty by done.
  destruct (Z.eqb_spec (iat p) 0); [done|].
  destruct (Z.eqb_spec (exp p) 0); [done|].
  cbn. by repeat case_match.
Qed.

(** What an accepted payload satisfies. *)
Lemma check_payload_Ok parsed opts clock j :
  check_payload parsed opts clock = Ok j →
  j = parsed ∧
  now_of opts clock < num_of (prop (Some j) "exp") ∧
  num_of (prop (Some j) "iat") ≤ now_of opts clock + 30 ∧
  truthy (prop (Some j) "jti") = true ∧ is_string (prop (Some j) "jti") = true.
Proof.
  intros H.
  assert (H' : payload_checks parsed opts clock = Ok j) by by destruct parsed.
  clear H. unfold payload_checks in H'. cbv zeta in H'.
  repeat (match type of H' with
          | (if ?b then _ else _) = _ => destruct b eqn:?; [discriminate|]
          end).
  injection H' as <-.
  repeat match goal with
         | E : _ || _ = false |- _ => apply orb_false_elim in E as [? ?]
         | E : negb _ = false |- _ => apply negb_false_iff in E
         end.
  repeat split; try done; lia.
Qed.

Lemma validate_Ok token opts clock j :
  validate token opts clock = Ok j →
  now_of opts clock < num_of (prop (Some j) "exp") ∧
  num_of (prop (Some j) "iat") ≤ now_of opts clock + 30 ∧
  truthy (prop (Some j) "jti") = true ∧ is_string (prop (Some j) "jti") = true.
Proof.
  unfold validate. intros H. repeat case_match; try discriminate.
  by apply check_payload_Ok in H as (_ & ?).
Qed.

(** *** The jti table *)

Lemma cleanup_lookup now used j e :
  cleanupUsedJti now used !! j = Some e ↔ used !! j = Some e ∧ now < e.
Proof.
  unfold cleanupUsedJti. rewrite map_lookup_filter_Some. cbn. intuition lia.
Qed.

Lemma cleanup_lookup_None now used j :
  used !! j = None → cleanupUsedJti now used !! j = None.
Proof.
  intros H. destruct (cleanupUsedJti now used !! j) eqn:E; [|done].
  apply cleanup_lookup in E as [E _]. congruence.
Qed.

(** A verification leaves alone the records that are still in the future. *)
Lemma verifyToken_keeps token opts clock used j e :
  used !! j = Some e → now_of opts clock < e →
  (verifyToken token opts clock used).2 !! j = Some e.
Proof.
  intros Hj Hnow. unfold verifyToken.
  assert (cleanupUsedJti (now_of opts clock) used !! j = Some e) as Hc
    by by apply cleanup_lookup.
  repeat case_match; cbn; try done.
  rewrite lookup_insert_ne; [done|].
  intros <-. match goal with H : bool_decide _ = false |- _ =>
    apply bool_decide_eq_false in H; apply H end. by eexists.
Qed.

(** A recorded jti is refused while its record is in the future. *)
Lemma verifyToken_replayed token opts clock used payload e :
  consumeJti opts = true →
  validate token opts clock = Ok payload →
  used !! str_of (prop (Some payload) "jti") = Some e →
  now_of opts clock < e →
  verifyToken token opts clock used
    = (Throw "replayed", cleanupUsedJti (now_of opts clock) used).
Proof.
  intros Hc Hv Hj Hnow. unfold verifyToken. rewrite Hv, Hc.
  rewrite bool_decide_eq_true_2; [done|].
  exists e. by apply cleanup_lookup.
Qed.

(** A fresh jti is accepted and recorded with its [exp]. *)
Lemma verifyToken_fresh token opts clock used payload :
  validate token opts clock = Ok payload →
  (consumeJti opts = true → used !! str_of (prop (Some payload) "jti") = None) →
  verifyToken token opts clock used
    = (Ok payload,
       if consumeJti opts
       then <[str_of (prop (Some payload) "jti") := num_of (prop (Some payload) "exp")]>
              (cleanupUsedJti (now_of opts clock) used)
       else cleanupUsedJti (now_of opts clock) used).
Proof.
  intros Hv Hj. unfold verifyToken. rewrite Hv.
  destruct (consumeJti opts); [|done].
  rewrite bool_decide_eq_false_2; [done|].
  rewrite cleanup_lookup_None by auto. by intros [? ?].
Qed.

Lemma verifyToken_Ok token opts clock used payload used' :
  verifyToken token opts clock used = (Ok payload, used') →
  validate token opts clock = Ok payload.
Proof. unfold verifyToken. intros H. repeat case_match; congruence. Qed.

End codec.

(** The codec on the libraries modelled above. *)
Definition dev_secret : string := "dev_secret_change_me".
Definition sign := signToken dev_secret Sha256.hmac Json.stringify.
Definition verify := verifyToken dev_secret Sha256.hmac Json.parse.

Definition scenario_payload : TokenPayload :=
  {| roomId := "r1"; peerId := "p1"; sessionId := None; jti := "j1";
     iat := 1000; exp := 1060 |}.

Definition at_time (now : Z) (consume : bool) : Opts :=
  {| consumeJti := consume; expectedRoomId := None; expectedPeerId := None;
     expectedSessionId := None; nowSec := Some now |}.

(** The token of scenario 1, as Node prints it. *)
Example sign_scenario :
  sign scenario_payload =
  "eyJyb29tSWQiOiJyMSIsInBlZXJJZCI6InAxIiwianRpIjoiajEiLCJpYXQiOjEwMDAsImV4cCI6MTA2MH0.q56UsPkDv86e7wfp9BEwpc09goIFwMw1De1YBPNrxiU".
Proof. vm_compute. reflexivity. Qed.

Example verify_scenario :
  verify (sign scenario_payload) (at_time 1005 true) 0 ∅
  = (Ok (payload_json scenario_payload), {["j1" := 1060]}).
Proof. vm_compute. reflexivity. Qed.

End Token.


(** ** server.ts: the data model *)

(** A [Map] with string keys, in insertion order. *)
Module JsMap.

Definition t (V : Type) := list (string * V).

Definition get {V} (m : t V) (k : string) : option V := assoc k m.
Definition has {V} (m : t V) (k : string) : bool := bool_decide (is_Some (get m k)).

(** [m.set(k, v)]: a key that is present keeps its place. *)
Fixpoint set {V} (m : t V) (k : string) (v : V) : t V :=
  match m with
  | [] => [(k, v)]
  | (k', v') :: m' =>
      if String.eqb k k' then (k, v) :: m' else (k', v') :: set m' k v
  end.

Fixpoint delete {V} (m : t V) (k : string) : t V :=
  match m with
  | [] => []
  | (k', v') :: m' =>
      if String.eqb k k' then delete m' k else (k', v') :: delete m' k
  end.

Global Arguments get : simpl never.
Global Arguments has : simpl never.

Definition keys {V} (m : t V) : list string := map fst m.
Global Arguments keys : simpl never.
Definition values {V} (m : t V) : list V := map snd m.
Definition entries {V} (m : t V) : list (string * V) := m.
Definition size {V} (m : t V) : nat := length m.

Lemma get_set {V} (m : t V) k v k' :
  get (set m k v) k' = if String.eqb k' k then Some v else get m k'.
Proof.
  unfold get. induction m as [|[x y] m IH]; cbn.
  - done.
  - destruct (String.eqb_spec k x) as [->|Hkx]; cbn.
    + by destruct (String.eqb_spec k' x).
    + destruct (String.eqb_spec k' x) as [->|]; [|done].
      by destruct (String.eqb_spec x k) as [->|].
Qed.

Lemma get_delete {V} (m : t V) k k' :
  get (delete m k) k' = if String.eqb k' k then None else get m k'.
Proof.
  unfold get. induction m as [|[x y] m IH]; cbn.
  - by destruct (String.eqb k' k).
  - destruct (String.eqb_spec k x) as [->|Hkx]; cbn.
    + rewrite IH. destruct (String.eqb_spec k' x); done.
    + rewrite IH. destruct (String.eqb_spec k' x) as [->|]; [|done].
      by destruct (String.eqb_spec x k) as [->|].
Qed.

Lemma set_set {V} (m : t V) k v v' : set (set m k v) k v' = set m k v'.
Proof.
  induction m as [|[x y] m IH]; cbn.
  - by rewrite String.eqb_refl.
  - destruct (String.eqb_spec k x) as [->|Hkx]; cbn.
    + by rewrite String.eqb_refl.
    + apply String.eqb_neq in Hkx. by rewrite Hkx, IH.
Qed.

Lemma elem_of_keys {V} (m : t V) k : k ∈ keys m ↔ is_Some (get m k).
Proof.
  unfold get, keys. induction m as [|[x y] m IH]; cbn.
  - split; [by intros ?%elem_of_nil|by intros [? ?]].
  - rewrite elem_of_cons, IH. destruct (String.eqb_spec k x) as [->|]; naive_solver.
Qed.

Lemma keys_delete {V} (m : t V) k x : x ∈ keys (delete m k) ↔ x ∈ keys m ∧ x ≠ k.
Proof.
  rewrite !elem_of_keys, get_delete.
  destruct (String.eqb_spec x k) as [->|]; [|naive_solver].
  split; [by intros [? ?]|naive_solver].
Qed.

Lemma keys_set {V} (m : t V) k v x : x ∈ keys (set m k v) ↔ x = k ∨ x ∈ keys m.
Proof.
  rewrite !elem_of_keys, get_set.
  destruct (String.eqb_spec x k) as [->|]; naive_solver.
Qed.

End JsMap.

(** A [Set] of strings, in insertion order. *)
Module JsSet.

Definition t := list string.

Definition has (s : t) (x : string) : bool := bool_decide (x ∈ s).
Definition add (s : t) (x : string) : t := if has s x then s else s ++ [x].
Definition delete (s : t) (x : string) : t :=
  List.filter (λ y, negb (String.eqb y x)) s.

Lemma elem_of_delete s x y : y ∈ delete s x ↔ y ∈ s ∧ y ≠ x.
Proof.
  unfold delete. rewrite !list_elem_of_In, filter_In, negb_true_iff.
  by rewrite String.eqb_neq.
Qed.

Lemma elem_of_add s x y : y ∈ add s x ↔ y = x ∨ y ∈ s.
Proof.
  unfold add, has. case_bool_decide; [naive_solver|].
  rewrite elem_of_app, list_elem_of_singleton. naive_solver.
Qed.

End JsSet.

(** The handles of the media engine: what the server reads of them. *)
Record Producer := { producer_id : string; producer_kind : string }.
Record Consumer := { consumer_id : string; consumer_kind : string;
                     consumer_rtpParameters : jsval }.
Record Router := { router_id : string; rtpCapabilities : jsval }.
Record Transport := { transport_id : string; iceParameters : jsval;
                      iceCandidates : jsval; dtlsParameters : jsval }.

(** The heap address of a [Client] object. *)
Definition Addr := nat.

Module Client.
Record t := {
  sessionId : string;
  peerId : string;
  ws : nat;
  roomId : option string;
  send : option string;
  recv : option string;
  producers : JsMap.t Producer;
  consumers : JsMap.t Consumer;
  cleanupTimer : option nat;
  disconnectedAt : option Z;
}.

Definition dummy : t :=
  {| sessionId := ""; peerId := ""; ws := 0%nat; roomId := None; send := None;
     recv := None; producers := []; consumers := []; cleanupTimer := None;
     disconnectedAt := None |}.

Definition with_ws (x : nat) (c : t) : t :=
  {| sessionId := sessionId c; peerId := peerId c; ws := x; roomId := roomId c;
     send := send c; recv := recv c; producers := producers c;
     consumers := consumers c; cleanupTimer := cleanupTimer c;
     disconnectedAt := disconnectedAt c |}.
Definition with_roomId (x : option string) (c : t) : t :=
  {| sessionId := sessionId c; peerId := peerId c; ws := ws c; roomId := x;
     send := send c; recv := recv c; producers := producers c;
     consumers := consumers c; cleanupTimer := cleanupTimer c;
     disconnectedAt := disconnectedAt c |}.
Definition with_send (x : option string) (c : t) : t :=
  {| sessionId := sessionId c; peerId := peerId c; ws := ws c; roomId := roomId c;
     send := x; recv := recv c; producers := producers c;
     consumers := consumers c; cleanupTimer := cleanupTimer c;
     disconnectedAt := disconnectedAt c |}.
Definition with_recv (x : option string) (c : t) : t :=
  {| sessionId := sessionId c; peerId := peerId c; ws := ws c; roomId := roomId c;
     send := send c; recv := x; producers := producers c;
     consumers := consumers c; cleanupTimer := cleanupTimer c;
     disconnectedAt := disconnectedAt c |}.
Definition with_producers (x : JsMap.t Producer) (c : t) : t :=
  {| sessionId := sessionId c; peerId := peerId c; ws := ws c; roomId := roomId c;
     send := send c; recv := recv c; producers := x;
     consumers := consumers c; cleanupTimer := cleanupTimer c;
     disconnectedAt := disconnectedAt c |}.
Definition with_consumers (x : JsMap.t Consumer) (c : t) : t :=
  {| sessionId := sessionId c; peerId := peerId c; ws := ws c; roomId := roomId c;
     send := send c; recv := recv c; producers := producers c;
     consumers := x; cleanupTimer := cleanupTimer c;
     disconnectedAt := disconnectedAt c |}.
Definition with_timer (x : option nat) (d : option Z) (c : t) : t :=
  {| sessionId := sessionId c; peerId := peerId c; ws := ws c; roomId := roomId c;
     send := send c; recv := recv c; producers := producers c;
     consumers := consumers c; cleanupTimer := x; disconnectedAt := d |}.
End Client.

Module Room.
Record info := { peerId : string; producer : Producer }.

Record t := {
  id : string;
  router : Router;
  peers : JsMap.t Addr;
  producers : JsMap.t info;
  audioLevelObserver : string;
  speaking : JsSet.t;
  (** Engine side: the producers that [addProducer] has put under the
      room's audio level observer. *)
  observed : list string;
}.

Definition with_peers (x : JsMap.t Addr) (r : t) : t :=
  {| id := id r; router := router r; peers := x; producers := producers r;
     audioLevelObserver := audioLevelObserver r; speaking := speaking r;
     observed := observed r |}.
Definition with_producers (x : JsMap.t info) (r : t) : t :=
  {| id := id r; router := router r; peers := peers r; producers := x;
     audioLevelObserver := audioLevelObserver r; speaking := speaking r;
     observed := observed r |}.
Definition with_speaking (x : JsSet.t) (r : t) : t :=
  {| id := id r; router := router r; peers := peers r; producers := producers r;
     audioLevelObserver := audioLevelObserver r; speaking := x;
     observed := observed r |}.
Definition with_observed (x : list string) (r : t) : t :=
  {| id := id r; router := router r; peers := peers r; producers := producers r;
     audioLevelObserver := audioLevelObserver r; speaking := speaking r;
     observed := x |}.
End Room.

(** A socket with what the handshake hangs on it. *)
Record Ws := {
  ws_id : nat;
  _tokenRoomId : string;
  _tokenPeerId : string;
  _tokenSessionId : string;
}.

(** What the server does to the outside. *)
Inductive Output :=
| Send (ws : nat) (msg : json)
| Close (ws : nat) (code : option Z) (reason : string).

Record State := {
  rooms : JsMap.t Room.t;
  sessions : JsMap.t Addr;
  (** the [Client] objects, by address *)
  heap : list Client.t;
  (** [usedJti] of token.ts *)
  usedJti : gmap string Z;
  (** the pending [setTimeout] callbacks: timer and the peer it destroys *)
  timers : list (nat * Addr);
  next_timer : nat;
  (** the sockets that passed the handshake and are open *)
  sockets : list Ws;
  next_ws : nat;
  (** Engine side: the transports that are open. *)
  open_transports : list string;
}.

Definition init : State :=
  {| rooms := []; sessions := []; heap := []; usedJti := ∅; timers := [];
     next_timer := 0; sockets := []; next_ws := 0; open_transports := [] |}.

Definition with_rooms (x : JsMap.t Room.t) (s : State) : State :=
  {| rooms := x; sessions := sessions s; heap := heap s; usedJti := usedJti s;
     timers := timers s; next_timer := next_timer s; sockets := sockets s;
     next_ws := next_ws s; open_transports := open_transports s |}.
Definition with_sessions (x : JsMap.t Addr) (s : State) : State :=
  {| rooms := rooms s; sessions := x; heap := heap s; usedJti := usedJti s;
     timers := timers s; next_timer := next_timer s; sockets := sockets s;
     next_ws := next_ws s; open_transports := open_transports s |}.
Definition with_heap (x : list Client.t) (s : State) : State :=
  {| rooms := rooms s; sessions := sessions s; heap := x; usedJti := usedJti s;
     timers := timers s; next_timer := next_timer s; sockets := sockets s;
     next_ws := next_ws s; open_transports := open_transports s |}.
Definition with_usedJti (x : gmap string Z) (s : State) : State :=
  {| rooms := rooms s; sessions := sessions s; heap := heap s; usedJti := x;
     timers := timers s; next_timer := next_timer s; sockets := sockets s;
     next_ws := next_ws s; open_transports := open_transports s |}.
Definition with_timers (x : list (nat * Addr)) (n : nat) (s : State) : State :=
  {| rooms := rooms s; sessions := sessions s; heap := heap s; usedJti := usedJti s;
     timers := x; next_timer := n; sockets := sockets s;
     next_ws := next_ws s; open_transports := open_transports s |}.
Definition with_sockets (x : list Ws) (n : nat) (s : State) : State :=
  {| rooms := rooms s; sessions := sessions s; heap := heap s; usedJti := usedJti s;
     timers := timers s; next_timer := next_timer s; sockets := x;
     next_ws := n; open_transports := open_transports s |}.
Definition with_transports (x : list string) (s : State) : State :=
  {| rooms := rooms s; sessions := sessions s; heap := heap s; usedJti := usedJti s;
     timers := timers s; next_timer := next_timer s; sockets := sockets s;
     next_ws := next_ws s; open_transports := x |}.

(** ** Handlers as state transformers that may throw and that emit outputs *)

Definition World : Type := State * list Output.
Definition M (A : Type) : Type := World → Res A * World.

Definition ret {A} (a : A) : M A := λ w, (Ok a, w).
Definition throw {A} (e : string) : M A := λ w, (Throw e, w).
Definition bind {A B} (m : M A) (f : A → M B) : M B :=
  λ w, match m w with
       | (Ok a, w') => f a w'
       | (Throw e, w') => (Throw e, w')
       end.

(** A step on the state alone. *)
Definition lift {A} (f : State → Res A * State) : M A :=
  λ w, let '(r, s') := f w.1 in (r, (s', w.2)).
Definition emit (o : Output) : M unit := λ w, (Ok tt, (w.1, w.2 ++ [o])).

Definition gets {A} (f : State → A) : M A := lift (λ s, (Ok (f s), s)).
Definition modify (f : State → State) : M unit := lift (λ s, (Ok tt, f s)).

(** [try { m } catch {}] *)
Definition try_ (m : M unit) : M unit :=
  λ w, match m w with
       | (Ok _, w') | (Throw _, w') => (Ok tt, w')
       end.

Definition when (b : bool) (m : M unit) : M unit := if b then m else ret tt.

Fixpoint forM {A} (l : list A) (f : A → M unit) : M unit :=
  match l with
  | [] => ret tt
  | x :: l' => bind (f x) (λ _, forM l' f)
  end.

Declare Scope m_scope.
Delimit Scope m_scope with M.
Notation "'let*' x ':=' m 'in' k" := (bind m (λ x, k))
  (at level 10, x pattern, m at level 100, k at level 200) : m_scope.
Notation "m ;;; k" := (bind m (λ _, k))
  (at level 100, right associativity) : m_scope.
Open Scope m_scope.

(** *** Reading and writing the shared objects *)

Definition deref (s : State) (a : Addr) : Client.t := default Client.dummy (heap s !! a).

Definition peer (a : Addr) : M Client.t := gets (λ s, deref s a).
Definition set_peer (a : Addr) (f : Client.t → Client.t) : M unit :=
  modify (λ s, with_heap (alter f a (heap s)) s).

(** [new Client]: the object and its address. *)
Definition alloc (c : Client.t) : M Addr :=
  lift (λ s, (Ok (length (heap s)), with_heap (heap s ++ [c]) s)).

Definition room (roomId : string) : M (option Room.t) :=
  gets (λ s, JsMap.get (rooms s) roomId).

(** A write through a reference to the room object published under
    [roomId]. *)
Definition set_room (roomId : string) (f : Room.t → Room.t) : M unit :=
  modify (λ s, match JsMap.get (rooms s) roomId with
               | Some r => with_rooms (JsMap.set (rooms s) roomId (f r)) s
               | None => s
               end).

(** *** The media engine's calls *)

(** What the outside answers during one handler: the engine's results
    and [rid()]. *)
Record Oracle := {
  o_rid : string;
  o_createRouter : Res Router;
  o_createAudioLevelObserver : Res string;
  o_createWebRtcTransport : Res Transport;
  o_connect : Res unit;
  o_produce : Res string;
  o_canConsume : bool;
  o_consume : Res (string * jsval);
  o_pause : Res unit;
  o_resume : Res unit;
}.

Definition of_res {A} (r : Res A) : M A := λ w, (r, w).

Definition open_transport (id : string) : M unit :=
  modify (λ s, with_transports (open_transports s ++ [id]) s).

(** [transport.close()] *)
Definition close_transport (id : string) : M unit :=
  modify (λ s, with_transports (JsSet.delete (open_transports s) id) s).

(** [producer.close()]: the engine takes a closed producer out of the
    observers it was under. *)
Definition close_producer (p : Producer) : M unit :=
  modify (λ s,
    with_rooms
      (map (λ kv, (kv.1, Room.with_observed
                            (JsSet.delete (Room.observed kv.2) (producer_id p)) kv.2))
           (rooms s)) s).

(** [consumer.close()].  The server never reads back whether a consumer,
    a router or an observer is closed, so closing them leaves the state
    as it is. *)
Definition close_consumer (c : Consumer) : M unit := ret tt.

(** [router.close()], [audioLevelObserver.close()] *)
Definition close_router (r : Router) : M unit := ret tt.
Definition close_observer (id : string) : M unit := ret tt.

(** ** server.ts: what the two variants share (lines 51-307) *)

Definition send_ (ws : nat) (msg : json) : M unit := emit (Send ws msg).

Definition roomProducerList (r : Room.t) : json :=
  JArr (map (λ v, obj [("producerId", Some (JStr (producer_id (Room.producer v))));
                       ("peerId", Some (JStr (Room.peerId v)));
                       ("kind", Some (JStr (producer_kind (Room.producer v))))])
            (JsMap.values (Room.producers r))).

Definition roomPeerList (s : State) (r : Room.t) : json :=
  JArr (map (λ a, obj [("peerId", Some (JStr (Client.peerId (deref s a))))])
            (JsMap.values (Room.peers r))).

(** The members a broadcast goes to. *)
Definition recipients (s : State) (r : Room.t) (excludePeerId : option string) : list nat :=
  map (λ a, Client.ws (deref s a))
      (List.filter
         (λ a, negb (bool_decide (nonempty excludePeerId = Some (Client.peerId (deref s a)))))
         (JsMap.values (Room.peers r))).

Definition broadcastRoom (roomId : string) (msg : json) (excludePeerId : option string)
  : M unit :=
  let* r := room roomId in
  match r with
  | Some r =>
      let* to := gets (λ s, recipients s r excludePeerId) in
      forM to (λ ws, try_ (send_ ws msg))
  | None => ret tt
  end.

Definition broadcastPeerJoined (roomId peerId : string) : M unit :=
  broadcastRoom roomId
    (obj [("type", Some (JStr "peerJoined")); ("peerId", Some (JStr peerId))])
    (Some peerId).

Definition broadcastPeerLeft (roomId peerId : string) : M unit :=
  broadcastRoom roomId
    (obj [("type", Some (JStr "peerLeft")); ("peerId", Some (JStr peerId))])
    (Some peerId).

Definition producerSpeaking (pid : string) (peerId : option string) (speaking : bool)
    (volume : option Z) : json :=
  obj [("type", Some (JStr "producerSpeaking")); ("producerId", Some (JStr pid));
       ("peerId", JStr <$> peerId); ("speaking", Some (JBool speaking));
       ("volume", JNum <$> volume)].

Definition owner_of (r : option Room.t) (pid : string) : option string :=
  r' ← r; Room.peerId <$> JsMap.get (Room.producers r') pid.

(** The [volumes] listener of the room's observer. *)
Definition on_volumes (roomId : string) (volumes : list (Producer * Z)) : M unit :=
  let active := map (λ v, producer_id v.1) volumes in
  forM volumes (λ v,
    let* r := room roomId in
    broadcastRoom roomId
      (producerSpeaking (producer_id v.1) (owner_of r (producer_id v.1)) true (Some v.2))
      None) ;;;
  let* r := room roomId in
  forM (from_option Room.speaking [] r) (λ pid,
    when (negb (bool_decide (pid ∈ active)))
      (set_room roomId (λ r, Room.with_speaking (JsSet.delete (Room.speaking r) pid) r) ;;;
       let* r := room roomId in
       broadcastRoom roomId (producerSpeaking pid (owner_of r pid) false None) None)) ;;;
  forM active (λ pid,
    set_room roomId (λ r, Room.with_speaking (JsSet.add (Room.speaking r) pid) r)).

(** The [silence] listener. *)
Definition on_silence (roomId : string) : M unit :=
  let* r := room roomId in
  forM (from_option Room.speaking [] r) (λ pid,
    set_room roomId (λ r, Room.with_speaking (JsSet.delete (Room.speaking r) pid) r) ;;;
    let* r := room roomId in
    broadcastRoom roomId (producerSpeaking pid (owner_of r pid) false None) None).

Definition getRoom (id : string) (o : Oracle) : M Room.t :=
  let* r := room id in
  match r with
  | Some r => ret r
  | None =>
      let* router := of_res (o_createRouter o) in
      let* audioLevelObserver := of_res (o_createAudioLevelObserver o) in
      let r := {| Room.id := id; Room.router := router; Room.peers := [];
                  Room.producers := []; Room.audioLevelObserver := audioLevelObserver;
                  Room.speaking := []; Room.observed := [] |} in
      modify (λ s, with_rooms (JsMap.set (rooms s) id r) s) ;;;
      ret r
  end.

Definition sessions_delete (sessionId : string) : M unit :=
  modify (λ s, with_sessions (JsMap.delete (sessions s) sessionId) s).

(** Close what the peer holds and forget it (lines 216-232 and 290-306). *)
Definition release_media (a : Addr) : M unit :=
  let* p := peer a in
  try_ (forM (JsMap.values (Client.producers p)) close_producer) ;;;
  try_ (forM (JsMap.values (Client.consumers p)) close_consumer) ;;;
  try_ (from_option close_transport (ret tt) (Client.send p)) ;;;
  try_ (from_option close_transport (ret tt) (Client.recv p)) ;;;
  set_peer a (λ p, Client.with_recv None (Client.with_send None
               (Client.with_consumers [] (Client.with_producers [] p)))).

Definition unspeak (roomId pid peerId : string) : M unit :=
  let* r := room roomId in
  when (from_option (λ r, JsSet.has (Room.speaking r) pid) false r)
    (set_room roomId (λ r, Room.with_speaking (JsSet.delete (Room.speaking r) pid) r) ;;;
     broadcastRoom roomId (producerSpeaking pid (Some peerId) false None) None).

Definition destroyPeer (a : Addr) : M unit :=
  let* p := peer a in
  match nonempty (Client.roomId p) with
  | None => sessions_delete (Client.sessionId p)
  | Some roomId =>
      let* r := room roomId in
      match r with
      | None => sessions_delete (Client.sessionId p)
      | Some r =>
          forM (JsMap.entries (Room.producers r)) (λ e,
            when (String.eqb (Room.peerId e.2) (Client.peerId p))
              (set_room roomId
                 (λ r, Room.with_producers (JsMap.delete (Room.producers r) e.1) r) ;;;
               unspeak roomId e.1 (Client.peerId p) ;;;
               broadcastRoom roomId
                 (obj [("type", Some (JStr "producerClosed"));
                       ("producerId", Some (JStr e.1));
                       ("peerId", Some (JStr (Client.peerId p)));
                       ("kind", Some (JStr (producer_kind (Room.producer e.2))));
                       ("reason", Some (JStr "left"))])
                 None)) ;;;
          set_room roomId
            (λ r, Room.with_peers (JsMap.delete (Room.peers r) (Client.peerId p)) r) ;;;
          broadcastPeerLeft roomId (Client.peerId p) ;;;
          release_media a ;;;
          set_peer a (Client.with_roomId None) ;;;
          sessions_delete (Client.sessionId p) ;;;
          let* r' := room roomId in
          when (from_option (λ r, (JsMap.size (Room.peers r) =? 0)%nat) false r')
            (try_ (close_observer (Room.audioLevelObserver r)) ;;;
             try_ (close_router (Room.router r)) ;;;
             modify (λ s, with_rooms (JsMap.delete (rooms s) (Room.id r)) s))
      end
  end.

Definition clearTimeout (t : nat) : M unit :=
  modify (λ s, with_timers (List.filter (λ x, negb (x.1 =? t)%nat) (timers s))
                           (next_timer s) s).

(** [setTimeout(() => destroyPeer(peer), GRACE_MS)] *)
Definition GRACE_MS : Z := 25000.

Definition scheduleGraceCleanup (a : Addr) (clock_ms : Z) : M unit :=
  let* p := peer a in
  from_option clearTimeout (ret tt) (Client.cleanupTimer p) ;;;
  let* t := gets next_timer in
  modify (λ s, with_timers (timers s ++ [(t, a)]) (S t) s) ;;;
  set_peer a (Client.with_timer (Some t) (Some clock_ms)).

Definition resetPeerMedia (a : Addr) : M unit :=
  let* p := peer a in
  match nonempty (Client.roomId p) with
  | Some roomId =>
      let* r := room roomId in
      match r with
      | Some r =>
          forM (JsMap.entries (Room.producers r)) (λ e,
            when (String.eqb (Room.peerId e.2) (Client.peerId p))
              (set_room roomId
                 (λ r, Room.with_producers (JsMap.delete (Room.producers r) e.1) r) ;;;
               unspeak roomId e.1 (Client.peerId p) ;;;
               try_ (close_producer (Room.producer e.2))))
      | None => ret tt
      end
  | None => ret tt
  end ;;;
  release_media a.

(** ** The token-gated server (server.ts with the token gate) *)

Module Gated.

Definition response (requestId : jsval) (ok : bool) (data : jsval) : json :=
  obj [("type", Some (JStr "response")); ("requestId", requestId);
       ("ok", Some (JBool ok)); ("data", data)].

Definition ok (ws : Ws) (requestId : jsval) (data : jsval) : M unit :=
  send_ (ws_id ws) (response requestId true data).

Definition fail (ws : Ws) (requestId : jsval) (e : string) : M unit :=
  send_ (ws_id ws) (response requestId false (Some (obj [("error", Some (JStr e))]))).

Definition requireRoomIdMatch (ws : Ws) (roomIdFromMsg : string) : M string :=
  let authedRoomId := trim (_tokenRoomId ws) in
  if String.eqb authedRoomId "" then throw "not_authed"
  else
    let r := trim roomIdFromMsg in
    if String.eqb r "" then throw "roomId required"
    else if negb (String.eqb r authedRoomId) then throw "roomId mismatch"
    else ret r.

Definition requireBoundIdentity (ws : Ws) (msgSessionId : string) (o : Oracle)
  : M (string * string) :=
  let authedPeerId := trim (_tokenPeerId ws) in
  let authedSessionId := trim (_tokenSessionId ws) in
  if String.eqb authedPeerId "" then throw "not_authed"
  else
    let s := trim msgSessionId in
    if negb (String.eqb authedSessionId "") then
      if String.eqb s "" then throw "sessionId required (token-bound)"
      else if negb (String.eqb s authedSessionId)
      then throw "sessionId mismatch (token-bound)"
      else ret (authedPeerId, authedSessionId)
    else ret (authedPeerId, if String.eqb s "" then "s_" +:+ o_rid o else s).

(** Lines 423-449 and 490-516: find the peer of the session or make it;
    an existing peer is adopted by the new socket. *)
Definition adopt (ws : Ws) (sessionId peerId : string) : M Addr :=
  let* found := gets (λ s, JsMap.get (sessions s) sessionId) in
  match found with
  | None =>
      let* a := alloc {| Client.sessionId := sessionId; Client.peerId := peerId;
                         Client.ws := ws_id ws; Client.roomId := None;
                         Client.send := None; Client.recv := None;
                         Client.producers := []; Client.consumers := [];
                         Client.cleanupTimer := None; Client.disconnectedAt := None |} in
      modify (λ s, with_sessions (JsMap.set (sessions s) sessionId a) s) ;;;
      ret a
  | Some a =>
      let* p := peer a in
      if negb (String.eqb (Client.peerId p) peerId)
      then throw "peerId mismatch (session bound)"
      else
        from_option clearTimeout (ret tt) (Client.cleanupTimer p) ;;;
        set_peer a (Client.with_timer None None) ;;;
        resetPeerMedia a ;;;
        try_ (when (negb (Client.ws p =? ws_id ws)%nat)
                (emit (Close (Client.ws p) None ""))) ;;;
        set_peer a (Client.with_ws (ws_id ws)) ;;;
        ret a
  end.

Definition welcome (s : State) (p : Client.t) (r : option Room.t) : json :=
  obj [("type", Some (JStr "welcome"));
       ("sessionId", Some (JStr (Client.sessionId p)));
       ("peerId", Some (JStr (Client.peerId p)));
       ("existingPeers", Some (from_option (roomPeerList s) (JArr []) r));
       ("existingProducers", Some (from_option roomProducerList (JArr []) r))].

Definition resumeSession (ws : Ws) (requestId payload : jsval) (o : Oracle) : M unit :=
  let* roomId :=
    requireRoomIdMatch ws
      (if truthy (prop payload "roomId") then String_ (prop payload "roomId") else "") in
  let* bound :=
    requireBoundIdentity ws (String_ (or_else (prop payload "sessionId") (Some (JStr "")))) o in
  let* a := adopt ws bound.2 bound.1 in
  let* p := peer a in
  if match nonempty (Client.roomId p) with
     | Some r => negb (String.eqb r roomId)
     | None => false
     end
  then throw "roomId mismatch"
  else
    match nonempty (Client.roomId p) with
    | None =>
        set_peer a (Client.with_roomId (Some roomId)) ;;;
        let* _ := getRoom roomId o in
        set_room roomId (λ r, Room.with_peers (JsMap.set (Room.peers r) (Client.peerId p) a) r) ;;;
        broadcastPeerJoined roomId (Client.peerId p)
    | Some _ => ret tt
    end ;;;
    let* p := peer a in
    let* r := room (default "" (Client.roomId p)) in
    let* s := gets (λ s, s) in
    ok ws requestId
      (Some (obj [("sessionId", Some (JStr (Client.sessionId p)));
                  ("peerId", Some (JStr (Client.peerId p)));
                  ("roomId", JStr <$> Client.roomId p);
                  ("rtpCapabilities", r' ← r; rtpCapabilities (Room.router r'));
                  ("existingPeers", Some (from_option (roomPeerList s) (JArr []) r));
                  ("existingProducers", Some (from_option roomProducerList (JArr []) r))])) ;;;
    send_ (ws_id ws) (welcome s p r).

Definition join (ws : Ws) (requestId payload : jsval) (o : Oracle) : M unit :=
  let* roomId :=
    requireRoomIdMatch ws (String_ (or_else (prop payload "roomId") (Some (JStr "")))) in
  let* bound :=
    requireBoundIdentity ws (String_ (or_else (prop payload "sessionId") (Some (JStr "")))) o in
  let* a := adopt ws bound.2 bound.1 in
  let* p := peer a in
  if match nonempty (Client.roomId p) with
     | Some r => negb (String.eqb r roomId)
     | None => false
     end
  then throw "roomId mismatch"
  else
    set_peer a (Client.with_roomId (Some roomId)) ;;;
    let* r := getRoom roomId o in
    set_room roomId (λ r, Room.with_peers (JsMap.set (Room.peers r) (Client.peerId p) a) r) ;;;
    let* p := peer a in
    let* r := room roomId in
    let* s := gets (λ s, s) in
    ok ws requestId
      (Some (obj [("roomId", Some (JStr roomId));
                  ("sessionId", Some (JStr (Client.sessionId p)));
                  ("peerId", Some (JStr (Client.peerId p)));
                  ("rtpCapabilities", r' ← r; rtpCapabilities (Room.router r'));
                  ("existingPeers", Some (from_option (roomPeerList s) (JArr []) r));
                  ("existingProducers", Some (from_option roomProducerList (JArr []) r))])) ;;;
    send_ (ws_id ws) (welcome s p r) ;;;
    broadcastPeerJoined roomId (Client.peerId p).

Definition listProducers (ws : Ws) (requestId payload : jsval) : M unit :=
  let sessionId := field payload "sessionId" in
  let* found :=
    gets (λ s, if String.eqb sessionId "" then None
               else deref s <$> JsMap.get (sessions s) sessionId) in
  let roomIdFromMsg :=
    if truthy (prop payload "roomId") then Some (String_ (prop payload "roomId")) else None in
  let* roomId :=
    match nonempty roomIdFromMsg with
    | Some r => requireRoomIdMatch ws r
    | None =>
        match nonempty (found ≫= Client.roomId) with
        | Some r => requireRoomIdMatch ws r
        | None => ret ""
        end
    end in
  if String.eqb roomId "" then throw "room not found"
  else
    let* r := room roomId in
    match r with
    | None => throw "room not found"
    | Some r => ok ws requestId (Some (obj [("list", Some (roomProducerList r))]))
    end.

Definition createTransport (ws : Ws) (requestId payload : jsval) (o : Oracle) (a : Addr)
  : M unit :=
  let direction := field payload "direction" in
  if negb (String.eqb direction "send") && negb (String.eqb direction "recv")
  then throw "invalid direction"
  else
    let* p := peer a in
    match nonempty (Client.roomId p) with
    | None => throw "room not joined"
    | Some roomId =>
        let* r := room roomId in
        match r with
        | None => throw "room not found"
        | Some r =>
            let* transport := of_res (o_createWebRtcTransport o) in
            open_transport (transport_id transport) ;;;
            (if String.eqb direction "send"
             then set_peer a (Client.with_send (Some (transport_id transport)))
             else set_peer a (Client.with_recv (Some (transport_id transport)))) ;;;
            ok ws requestId
              (Some (obj [("id", Some (JStr (transport_id transport)));
                          ("iceParameters", iceParameters transport);
                          ("iceCandidates", iceCandidates transport);
                          ("dtlsParameters", dtlsParameters transport)]))
        end
    end.

Definition connectTransport (ws : Ws) (requestId payload : jsval) (o : Oracle) (a : Addr)
  : M unit :=
  let direction := field payload "direction" in
  if negb (truthy (prop payload "dtlsParameters")) then throw "missing dtlsParameters"
  else
    let* p := peer a in
    let t := if String.eqb direction "send" then Client.send p
             else if String.eqb direction "recv" then Client.recv p
             else None in
    match t with
    | None => throw (direction +:+ " transport not created")
    | Some _ =>
        of_res (o_connect o) ;;;
        ok ws requestId (Some (obj [("connected", Some (JBool true))]))
    end.

Definition produce (ws : Ws) (requestId payload : jsval) (o : Oracle) (a : Addr)
  : M unit :=
  let kind := field payload "kind" in
  if negb (String.eqb kind "audio") && negb (String.eqb kind "video")
  then throw "invalid kind"
  else
    let* p := peer a in
    match Client.send p with
    | None => throw "send transport not ready"
    | Some _ =>
        if negb (truthy (prop payload "rtpParameters")) then throw "missing rtpParameters"
        else
          let* pid := of_res (o_produce o) in
          let producer := {| producer_id := pid; producer_kind := kind |} in
          set_peer a (λ p, Client.with_producers
                             (JsMap.set (Client.producers p) pid producer) p) ;;;
          let* p := peer a in
          match nonempty (Client.roomId p) with
          | Some roomId =>
              set_room roomId
                (λ r, Room.with_producers
                        (JsMap.set (Room.producers r) pid
                           {| Room.peerId := Client.peerId p; Room.producer := producer |})
                        r)
          | None => ret tt
          end ;;;
          ok ws requestId (Some (obj [("id", Some (JStr pid))]))
    end.

Definition pauseProducer (ws : Ws) (requestId payload : jsval) (o : Oracle) (a : Addr)
  : M unit :=
  let producerId := field payload "producerId" in
  if String.eqb producerId "" then throw "missing producerId"
  else
    let* p := peer a in
    match JsMap.get (Client.producers p) producerId with
    | None => throw "producer not found"
    | Some _ =>
        of_res (o_pause o) ;;;
        ok ws requestId (Some (obj [("paused", Some (JBool true))]))
    end.

Definition resumeProducer (ws : Ws) (requestId payload : jsval) (o : Oracle) (a : Addr)
  : M unit :=
  let producerId := field payload "producerId" in
  if String.eqb producerId "" then throw "missing producerId"
  else
    let* p := peer a in
    match JsMap.get (Client.producers p) producerId with
    | None => throw "producer not found"
    | Some _ =>
        of_res (o_resume o) ;;;
        ok ws requestId (Some (obj [("paused", Some (JBool false))]))
    end.

Definition consume (ws : Ws) (requestId payload : jsval) (o : Oracle) (a : Addr)
  : M unit :=
  let producerId := field payload "producerId" in
  if String.eqb producerId "" then throw "missing producerId"
  else
    let* p := peer a in
    match Client.recv p with
    | None => throw "recv transport not ready"
    | Some _ =>
        match nonempty (Client.roomId p) with
        | None => throw "room not joined"
        | Some roomId =>
            let* r := room roomId in
            match r with
            | None => throw "room not found"
            | Some r =>
                if negb (truthy (prop payload "rtpCapabilities"))
                then throw "missing rtpCapabilities"
                else
                  match JsMap.get (Room.producers r) producerId with
                  | None => throw "producer not found"
                  | Some rec =>
                      if String.eqb (Room.peerId rec) (Client.peerId p)
                      then throw "cannot consume self"
                      else if negb (o_canConsume o)
                      then throw "cannot consume (rtpCapabilities)"
                      else
                        let* c := of_res (o_consume o) in
                        let consumer :=
                          {| consumer_id := c.1;
                             consumer_kind := producer_kind (Room.producer rec);
                             consumer_rtpParameters := c.2 |} in
                        set_peer a (λ p, Client.with_consumers
                                           (JsMap.set (Client.consumers p) c.1 consumer) p) ;;;
                        ok ws requestId
                          (Some (obj [("id", Some (JStr c.1));
                                      ("producerId", Some (JStr producerId));
                                      ("kind", Some (JStr (consumer_kind consumer)));
                                      ("rtpParameters", c.2)]))
                  end
            end
        end
    end.

Definition pauseConsumer (ws : Ws) (requestId payload : jsval) (o : Oracle) (a : Addr)
  : M unit :=
  let consumerId := field payload "consumerId" in
  if String.eqb consumerId "" then throw "missing consumerId"
  else
    let* p := peer a in
    match JsMap.get (Client.consumers p) consumerId with
    | None => throw "consumer not found"
    | Some _ => of_res (o_pause o) ;;; ok ws requestId (Some (obj []))
    end.

Definition resumeConsumer (ws : Ws) (requestId payload : jsval) (o : Oracle) (a : Addr)
  : M unit :=
  let consumerId := field payload "consumerId" in
  if String.eqb consumerId "" then throw "missing consumerId"
  else
    let* p := peer a in
    match JsMap.get (Client.consumers p) consumerId with
    | None => throw "consumer not found"
    | Some _ => of_res (o_resume o) ;;; ok ws requestId (Some (obj []))
    end.

(** Lines 570-575: the requests below the handshake ones name their peer
    by [payload.sessionId]. *)
Definition locate (ws : Ws) (payload : jsval) : M Addr :=
  let sessionId := field payload "sessionId" in
  let* found :=
    gets (λ s, if String.eqb sessionId "" then None else JsMap.get (sessions s) sessionId) in
  match found with
  | None => throw "invalid sessionId (peer not found)"
  | Some a =>
      let* p := peer a in
      match nonempty (Client.roomId p) with
      | Some r => let* _ := requireRoomIdMatch ws r in ret a
      | None => ret a
      end
  end.

(** The body of the [try] block (lines 413-800). *)
Definition handler (ws : Ws) (type requestId payload : jsval) (o : Oracle) : M unit :=
  if is_str type "resumeSession" then resumeSession ws requestId payload o
  else if is_str type "join" then join ws requestId payload o
  else if is_str type "listProducers" || is_str type "getRoomProducers"
  then listProducers ws requestId payload
  else
    let* a := locate ws payload in
    if is_str type "createTransport" then createTransport ws requestId payload o a
    else if is_str type "connectTransport" then connectTransport ws requestId payload o a
    else if is_str type "produce" then produce ws requestId payload o a
    else if is_str type "pauseProducer" then pauseProducer ws requestId payload o a
    else if is_str type "resumeProducer" then resumeProducer ws requestId payload o a
    else if is_str type "consume" then consume ws requestId payload o a
    else if is_str type "pauseConsumer" then pauseConsumer ws requestId payload o a
    else if is_str type "resumeConsumer" then resumeConsumer ws requestId payload o a
    else fail ws requestId "unknown type".

(** [ws.on("message")] once the message is read into its three parts:
    what the handler throws is answered by [fail]. *)
Definition onMessage (ws : Ws) (type requestId payload : jsval) (o : Oracle) : M unit :=
  λ w, match handler ws type requestId payload o w with
       | (Ok _, w') => (Ok tt, w')
       | (Throw e, w') => fail ws requestId e w'
       end.

(** [ws.on("close")] *)
Definition onClose (ws : nat) (clock_ms : Z) : M unit :=
  let* found :=
    gets (λ s, list_find (λ a, Client.ws (deref s a) = ws) (JsMap.values (sessions s))) in
  match found with
  | Some (_, a) => scheduleGraceCleanup a clock_ms
  | None => ret tt
  end.

(** The listeners that [produce] and [consume] put on the engine's
    objects (lines 672-679 and 757-763). *)
Definition on_producer_transportclose (a : Addr) (producer : Producer) : M unit :=
  try_ (set_peer a (λ p, Client.with_producers
                           (JsMap.delete (Client.producers p) (producer_id producer)) p)) ;;;
  try_ (close_producer producer).

Definition on_consumer_transportclose (a : Addr) (consumer : Consumer) : M unit :=
  try_ (set_peer a (λ p, Client.with_consumers
                           (JsMap.delete (Client.consumers p) (consumer_id consumer)) p)).

Definition on_consumer_producerclose (a : Addr) (consumer : Consumer) : M unit :=
  try_ (set_peer a (λ p, Client.with_consumers
                           (JsMap.delete (Client.consumers p) (consumer_id consumer)) p)) ;;;
  try_ (close_consumer consumer).

(** [dtlsstatechange] reaching [closed] (lines 601-607). *)
Definition on_dtls_closed (transport : string) : M unit :=
  try_ (close_transport transport).

Section handshake.

Variable SECRET : string.
Variable createHmac_sha256 : list ascii → list ascii → Base64.Buffer.
Variable JSON_parse : string → Res json.

Definition welcome_hint : string :=
  "Send join/resumeSession with payload.sessionId (persist it in localStorage). Token peerId is authoritative.".

(** [wss.on("connection")], lines 313-372. [token] is what the query
    string carries, [None] when it carries none. The result is the
    socket with its token fields when it is admitted. *)
Definition onConnection (ws : nat) (token : option string) (clock : Z) : M (option Ws) :=
  match nonempty token with
  | None => try_ (emit (Close ws (Some 1008) "missing token")) ;;; ret None
  | Some token =>
      let* used := gets usedJti in
      let '(r, used') :=
        Token.verifyToken SECRET createHmac_sha256 JSON_parse token
          {| Token.consumeJti := true; Token.expectedRoomId := None;
             Token.expectedPeerId := None; Token.expectedSessionId := None;
             Token.nowSec := None |} clock used in
      modify (with_usedJti used') ;;;
      let checked :=
        match r with
        | Ok tokenPayload =>
            if negb (truthy (prop (Some tokenPayload) "roomId")) then Throw "no_roomId"
            else if negb (truthy (prop (Some tokenPayload) "peerId")) then Throw "no_peerId"
            else Ok tokenPayload
        | Throw e => Throw e
        end in
      match checked with
      | Throw e =>
          try_ (emit (Close ws (Some 1008)
                        ("invalid token: " +:+ (if String.eqb e "" then "unknown" else e)))) ;;;
          ret None
      | Ok tokenPayload =>
          let tokenPayload := Some tokenPayload in
          let tokenRoomId :=
            trim (String_ (or_else (prop tokenPayload "roomId") (Some (JStr "")))) in
          let tokenPeerId :=
            trim (String_ (or_else (prop tokenPayload "peerId") (Some (JStr "")))) in
          let tokenSessionId :=
            if truthy (prop tokenPayload "sessionId")
            then trim (String_ (prop tokenPayload "sessionId")) else "" in
          if String.eqb tokenRoomId ""
          then try_ (emit (Close ws (Some 1008) "invalid token: no_roomId")) ;;; ret None
          else if String.eqb tokenPeerId ""
          then try_ (emit (Close ws (Some 1008) "invalid token: no_peerId")) ;;; ret None
          else
            send_ ws
              (obj [("type", Some (JStr "welcome")); ("peerId", Some (JStr tokenPeerId));
                    ("sessionId", JStr <$> nonempty (Some tokenSessionId));
                    ("hint", Some (JStr welcome_hint))]) ;;;
            ret (Some {| ws_id := ws; _tokenRoomId := tokenRoomId;
                         _tokenPeerId := tokenPeerId;
                         _tokenSessionId := tokenSessionId |})
      end
  end.

(** *** The server as a transition system *)

Inductive Event :=
| Connect (token : option string) (clock : Z)
| Message (ws : nat) (type requestId payload : jsval) (o : Oracle)
| SocketClosed (ws : nat) (clock_ms : Z)
| GraceExpired (timer : nat)
| Volumes (roomId : string) (volumes : list (Producer * Z))
| Silence (roomId : string)
| ProducerTransportClose (a : Addr) (producerId : string)
| ConsumerTransportClose (a : Addr) (consumerId : string)
| ConsumerProducerClose (a : Addr) (consumerId : string)
| DtlsClosed (transport : string).

Definition socket (s : State) (ws : nat) : option Ws :=
  (λ x, x.2) <$> list_find (λ w, ws_id w = ws) (sockets s).

(** What an event runs, or [None] when it cannot happen in this state:
    a message needs its socket, a timer must be pending, a listener needs
    the object it was put on. The observer of a room reports producers of
    that room: the system lets it report any producers of the room's
    index (this server never calls [addProducer], so the engine itself
    would report none of them). *)
Definition action (s : State) (e : Event) : option (M unit) :=
  match e with
  | Connect token clock =>
      Some (let* w := onConnection (next_ws s) token clock in
            modify (λ s, with_sockets (from_option (λ w, sockets s ++ [w]) (sockets s) w)
                                      (S (next_ws s)) s))
  | Message ws type requestId payload o =>
      w ← socket s ws; Some (onMessage w type requestId payload o)
  | SocketClosed ws clock_ms =>
      _ ← socket s ws;
      Some (modify (λ s, with_sockets
                           (List.filter (λ w, negb (ws_id w =? ws)%nat) (sockets s))
                           (next_ws s) s) ;;;
            onClose ws clock_ms)
  | GraceExpired timer =>
      a ← (λ x, x.2.2) <$> list_find (λ x, x.1 = timer) (timers s);
      Some (clearTimeout timer ;;; destroyPeer a)
  | Volumes roomId volumes =>
      r ← JsMap.get (rooms s) roomId;
      if bool_decide (Forall (λ v, producer_id v.1 ∈ JsMap.keys (Room.producers r)) volumes)
      then Some (on_volumes roomId volumes) else None
  | Silence roomId =>
      _ ← JsMap.get (rooms s) roomId; Some (on_silence roomId)
  | ProducerTransportClose a producerId =>
      on_producer_transportclose a <$> JsMap.get (Client.producers (deref s a)) producerId
  | ConsumerTransportClose a consumerId =>
      on_consumer_transportclose a <$> JsMap.get (Client.consumers (deref s a)) consumerId
  | ConsumerProducerClose a consumerId =>
      on_consumer_producerclose a <$> JsMap.get (Client.consumers (deref s a)) consumerId
  | DtlsClosed transport =>
      if bool_decide (transport ∈ open_transports s)
      then Some (on_dtls_closed transport) else None
  end.

(** One turn of the event loop: the state after it and what was sent. *)
Definition step (s : State) (e : Event) : option (State * list Output) :=
  m ← action s e; Some (m (s, [])).2.

Fixpoint run (s : State) (es : list Event) : option State :=
  match es with
  | [] => Some s
  | e :: es' => x ← step s e; run x.1 es'
  end.

Inductive reachable : State → Prop :=
| reachable_init : reachable init
| reachable_step s e s' out :
    reachable s → step s e = Some (s', out) → reachable s'.

End handshake.

End Gated.

(** ** The server without the token gate: the two handlers that differ *)

Module Legacy.

Definition ok := Gated.ok.

(** [mkTransport] *)
Definition mkTransport (o : Oracle) : M Transport :=
  let* t := of_res (o_createWebRtcTransport o) in
  open_transport (transport_id t) ;;;
  ret t.

Definition createTransport (ws : Ws) (requestId payload : jsval) (o : Oracle) (a : Addr)
  : M unit :=
  let* p := peer a in
  let* r := from_option room (ret None) (Client.roomId p) in
  match r with
  | None => throw "room not found"
  | Some r =>
      let* dir := of_res (prop_strict payload "direction") in
      let* p := peer a in
      when (is_str dir "send")
        (match Client.send p with
         | Some t => try_ (close_transport t) ;;; set_peer a (Client.with_send None)
         | None => ret tt
         end) ;;;
      let* p := peer a in
      when (is_str dir "recv")
        (match Client.recv p with
         | Some t => try_ (close_transport t) ;;; set_peer a (Client.with_recv None)
         | None => ret tt
         end) ;;;
      let* t := mkTransport o in
      (if is_str dir "send"
       then set_peer a (Client.with_send (Some (transport_id t)))
       else set_peer a (Client.with_recv (Some (transport_id t)))) ;;;
      ok ws requestId
        (Some (obj [("id", Some (JStr (transport_id t)));
                    ("iceParameters", iceParameters t);
                    ("iceCandidates", iceCandidates t);
                    ("dtlsParameters", dtlsParameters t)]))
  end.

(** [transport.produce]: the engine takes the two kinds and throws on
    anything else. *)
Definition engine_produce (kind : jsval) (o : Oracle) : M Producer :=
  if is_str kind "audio" || is_str kind "video" then
    let* pid := of_res (o_produce o) in
    ret {| producer_id := pid; producer_kind := Token.str_of kind |}
  else throw "TypeError".

Definition produce (ws : Ws) (requestId payload : jsval) (o : Oracle) (a : Addr)
  : M unit :=
  let* p := peer a in
  let* r := from_option room (ret None) (Client.roomId p) in
  match r with
  | None => throw "room not found"
  | Some r =>
      let roomId := Room.id r in
      match Client.send p with
      | None => throw "send transport not ready"
      | Some _ =>
          let* kind := of_res (prop_strict payload "kind") in
          let* producer := engine_produce kind o in
          let pid := producer_id producer in
          set_peer a (λ p, Client.with_producers
                             (JsMap.set (Client.producers p) pid producer) p) ;;;
          set_room roomId
            (λ r, Room.with_producers
                    (JsMap.set (Room.producers r) pid
                       {| Room.peerId := Client.peerId p; Room.producer := producer |}) r) ;;;
          when (String.eqb (producer_kind producer) "audio")
            (try_ (set_room roomId
                     (λ r, Room.with_observed (JsSet.add (Room.observed r) pid) r))) ;;;
          ok ws requestId (Some (obj [("producerId", Some (JStr pid))])) ;;;
          broadcastRoom roomId
            (obj [("type", Some (JStr "newProducer")); ("producerId", Some (JStr pid));
                  ("peerId", Some (JStr (Client.peerId p)));
                  ("kind", Some (JStr (producer_kind producer)))])
            (Some (Client.peerId p))
      end
  end.

End Legacy.

(** ** mkToken.cjs *)

Module MkToken.
Import Base64.

(** [b64u] *)
Definition b64u (buf : Buffer) : list ascii :=
  replace_char "/" "_" (replace_char "+" "-" (remove_char "=" (toString_base64 buf))).

(** The secret the script falls back to. *)
Definition default_secret : string := "dev_secret_123".

Section script.

Variable SECRET : string.
Variable createHmac_sha256 : list ascii → list ascii → Buffer.
Variable JSON_stringify : json → string.

(** [clock_ms] is [Date.now()]. *)
Definition payload (clock_ms : Z) : json :=
  obj [("roomId", Some (JStr "test")); ("exp", Some (JNum (clock_ms / 1000 + 60)))].

Definition token (clock_ms : Z) : string :=
  let payloadB64 := b64u (list_ascii_of_string (JSON_stringify (payload clock_ms))) in
  let sig := createHmac_sha256 (list_ascii_of_string SECRET) payloadB64 in
  string_of_list_ascii (payloadB64 ++ "."%char :: b64u sig).

End script.
End MkToken.

(** ** The server without the token gate: the rest of it (lines 310-630) *)

Module Ungated.

(** What the outside answers during one handler of this server: the
    engine's results and the [rid()] of a session id as before, the
    [rid()] of a peer id, and the kind the engine gives to a consumer. *)
Record Answers := {
  engine : Oracle;
  rid_peer : string;
  engine_kind : string;
}.

(** [String(payload?.sessionId || "").trim() || "s_" + rid()] *)
Definition session_of (payload : jsval) (o : Answers) : string :=
  let s := field payload "sessionId" in
  if String.eqb s "" then "s_" +:+ o_rid (engine o) else s.

(** Lines 333-357 and 401-424: find the peer of the session or make it,
    under the peer id the payload asks for; an existing peer is adopted
    by the new socket whatever the payload says. *)
Definition adopt (ws : Ws) (sessionId : string) (payload : jsval) (o : Answers) : M Addr :=
  let* found := gets (λ s, JsMap.get (sessions s) sessionId) in
  match found with
  | None =>
      let* a := alloc {| Client.sessionId := sessionId;
                         Client.peerId :=
                           if truthy (prop payload "peerId")
                           then String_ (prop payload "peerId")
                           else "p_" +:+ rid_peer o;
                         Client.ws := ws_id ws; Client.roomId := None;
                         Client.send := None; Client.recv := None;
                         Client.producers := []; Client.consumers := [];
                         Client.cleanupTimer := None; Client.disconnectedAt := None |} in
      modify (λ s, with_sessions (JsMap.set (sessions s) sessionId a) s) ;;;
      ret a
  | Some a =>
      let* p := peer a in
      from_option clearTimeout (ret tt) (Client.cleanupTimer p) ;;;
      set_peer a (Client.with_timer None None) ;;;
      resetPeerMedia a ;;;
      try_ (when (negb (Client.ws p =? ws_id ws)%nat)
              (emit (Close (Client.ws p) None ""))) ;;;
      set_peer a (Client.with_ws (ws_id ws)) ;;;
      ret a
  end.

(** Lines 329-390. *)
Definition resumeSession (ws : Ws) (requestId payload : jsval) (o : Answers) : M unit :=
  let roomId :=
    if truthy (prop payload "roomId") then Some (String_ (prop payload "roomId")) else None in
  let* a := adopt ws (session_of payload o) payload o in
  let* p := peer a in
  match nonempty roomId, nonempty (Client.roomId p) with
  | Some roomId, None =>
      set_peer a (Client.with_roomId (Some roomId)) ;;;
      let* _ := getRoom roomId (engine o) in
      set_room roomId (λ r, Room.with_peers (JsMap.set (Room.peers r) (Client.peerId p) a) r) ;;;
      broadcastPeerJoined roomId (Client.peerId p)
  | _, _ => ret tt
  end ;;;
  let* p := peer a in
  let* r := from_option room (ret None) (nonempty (Client.roomId p)) in
  let* s := gets (λ s, s) in
  Gated.ok ws requestId
    (Some (obj [("sessionId", Some (JStr (Client.sessionId p)));
                ("peerId", Some (JStr (Client.peerId p)));
                ("roomId", JStr <$> Client.roomId p);
                ("rtpCapabilities", r' ← r; rtpCapabilities (Room.router r'));
                ("existingPeers", Some (from_option (roomPeerList s) (JArr []) r));
                ("existingProducers", Some (from_option roomProducerList (JArr []) r))])) ;;;
  send_ (ws_id ws) (Gated.welcome s p r).

(** Lines 395-452: the peer is put in the room it asks for, whatever
    room it was in. *)
Definition join (ws : Ws) (requestId payload : jsval) (o : Answers) : M unit :=
  let roomId := field payload "roomId" in
  if String.eqb roomId "" then throw "roomId required"
  else
    let* a := adopt ws (session_of payload o) payload o in
    let* p := peer a in
    set_peer a (Client.with_roomId (Some roomId)) ;;;
    let* _ := getRoom roomId (engine o) in
    set_room roomId (λ r, Room.with_peers (JsMap.set (Room.peers r) (Client.peerId p) a) r) ;;;
    let* p := peer a in
    let* r := room roomId in
    let* s := gets (λ s, s) in
    Gated.ok ws requestId
      (Some (obj [("roomId", Some (JStr roomId));
                  ("sessionId", Some (JStr (Client.sessionId p)));
                  ("peerId", Some (JStr (Client.peerId p)));
                  ("rtpCapabilities", r' ← r; rtpCapabilities (Room.router r'));
                  ("existingPeers", Some (from_option (roomPeerList s) (JArr []) r));
                  ("existingProducers", Some (from_option roomProducerList (JArr []) r))])) ;;;
    send_ (ws_id ws) (Gated.welcome s p r) ;;;
    broadcastPeerJoined roomId (Client.peerId p).

(** Lines 457-468: any room can be listed by its id. *)
Definition listProducers (ws : Ws) (requestId payload : jsval) : M unit :=
  let sessionId := field payload "sessionId" in
  let* found :=
    gets (λ s, if String.eqb sessionId "" then None
               else deref s <$> JsMap.get (sessions s) sessionId) in
  let roomId :=
    if truthy (prop payload "roomId") then Some (String_ (prop payload "roomId"))
    else found ≫= Client.roomId in
  match nonempty roomId with
  | None => throw "room not found"
  | Some roomId =>
      let* r := room roomId in
      match r with
      | None => throw "room not found"
      | Some r => Gated.ok ws requestId (Some (obj [("list", Some (roomProducerList r))]))
      end
  end.

(** Lines 473-475: the requests below name their peer by
    [payload.sessionId]; nothing ties the peer to the socket. *)
Definition locate (payload : jsval) : M Addr :=
  let sessionId := field payload "sessionId" in
  let* found :=
    gets (λ s, if String.eqb sessionId "" then None else JsMap.get (sessions s) sessionId) in
  match found with
  | None => throw "invalid sessionId (peer not found)"
  | Some a => ret a
  end.

(** Lines 508-516. *)
Definition connectTransport (ws : Ws) (requestId payload : jsval) (o : Answers) (a : Addr)
  : M unit :=
  let* dir := of_res (prop_strict payload "direction") in
  let* p := peer a in
  match (if is_str dir "send" then Client.send p else Client.recv p) with
  | None => throw "transport not found"
  | Some _ =>
      of_res (o_connect (engine o)) ;;;
      Gated.ok ws requestId (Some (obj [("connected", Some (JBool true))]))
  end.

(** [map.get(v)] for a map with string keys. *)
Definition get_by {V} (m : JsMap.t V) (v : jsval) : option V :=
  match v with Some (JStr k) => JsMap.get m k | _ => None end.

(** Lines 553-583: who owns the producer is not looked at. *)
Definition consume (ws : Ws) (requestId payload : jsval) (o : Answers) (a : Addr)
  : M unit :=
  let* p := peer a in
  let* r := from_option room (ret None) (Client.roomId p) in
  match r with
  | None => throw "room not found"
  | Some r =>
      match Client.recv p with
      | None => throw "recv transport not ready"
      | Some _ =>
          let* producerId := of_res (prop_strict payload "producerId") in
          if negb (o_canConsume (engine o)) then throw "cannot consume"
          else
            let* c := of_res (o_consume (engine o)) in
            let consumer :=
              {| consumer_id := c.1; consumer_kind := engine_kind o;
                 consumer_rtpParameters := c.2 |} in
            set_peer a (λ p, Client.with_consumers
                               (JsMap.set (Client.consumers p) c.1 consumer) p) ;;;
            Gated.ok ws requestId
              (Some (obj [("id", Some (JStr c.1));
                          ("producerId", producerId);
                          ("kind", Some (JStr (consumer_kind consumer)));
                          ("rtpParameters", c.2)]))
      end
  end.

(** Lines 585-591: a consumer that is not there is resumed all the same. *)
Definition resumeConsumer (ws : Ws) (requestId payload : jsval) (o : Answers) (a : Addr)
  : M unit :=
  let* consumerId := of_res (prop_strict payload "consumerId") in
  let* p := peer a in
  match get_by (Client.consumers p) consumerId with
  | Some _ => of_res (o_resume (engine o))
  | None => ret tt
  end ;;;
  Gated.ok ws requestId (Some (obj [("resumed", Some (JBool true))])).

(** Lines 593-600. *)
Definition pauseProducer (ws : Ws) (requestId payload : jsval) (o : Answers) (a : Addr)
  : M unit :=
  let* producerId := of_res (prop_strict payload "producerId") in
  let* p := peer a in
  match get_by (Client.producers p) producerId with
  | None => throw "producer not found"
  | Some _ =>
      of_res (o_pause (engine o)) ;;;
      Gated.ok ws requestId (Some (obj [("paused", Some (JBool true))]))
  end.

(** Lines 602-609. *)
Definition resumeProducer (ws : Ws) (requestId payload : jsval) (o : Answers) (a : Addr)
  : M unit :=
  let* producerId := of_res (prop_strict payload "producerId") in
  let* p := peer a in
  match get_by (Client.producers p) producerId with
  | None => throw "producer not found"
  | Some _ =>
      of_res (o_resume (engine o)) ;;;
      Gated.ok ws requestId (Some (obj [("resumed", Some (JBool true))]))
  end.

(** The body of the [try] block (lines 325-611). *)
Definition handler (ws : Ws) (type requestId payload : jsval) (o : Answers) : M unit :=
  if is_str type "resumeSession" then resumeSession ws requestId payload o
  else if is_str type "join" then join ws requestId payload o
  else if is_str type "listProducers" || is_str type "getRoomProducers"
  then listProducers ws requestId payload
  else
    let* a := locate payload in
    if is_str type "createTransport"
    then Legacy.createTransport ws requestId payload (engine o) a
    else if is_str type "connectTransport" then connectTransport ws requestId payload o a
    else if is_str type "produce" then Legacy.produce ws requestId payload (engine o) a
    else if is_str type "consume" then consume ws requestId payload o a
    else if is_str type "resumeConsumer" then resumeConsumer ws requestId payload o a
    else if is_str type "pauseProducer" then pauseProducer ws requestId payload o a
    else if is_str type "resumeProducer" then resumeProducer ws requestId payload o a
    else Gated.fail ws requestId "unknown type".

(** [ws.on("message")] once the message is read into its three parts
    (lines 319-615): what the handler throws is answered by [fail]. *)
Definition onMessage (ws : Ws) (type requestId payload : jsval) (o : Answers) : M unit :=
  λ w, match handler ws type requestId payload o w with
       | (Ok _, w') => (Ok tt, w')
       | (Throw e, w') => Gated.fail ws requestId e w'
       end.

Definition welcome_hint : string :=
  "Please send join/resumeSession with payload.sessionId (persist it in localStorage).".

(** [wss.on("connection")], lines 310-317: every socket is let in and
    greeted under a peer id made up for the greeting. *)
Definition onConnection (ws : nat) (rid : string) : M Ws :=
  send_ ws (obj [("type", Some (JStr "welcome")); ("peerId", Some (JStr ("p_" +:+ rid)));
                 ("hint", Some (JStr welcome_hint))]) ;;;
  ret {| ws_id := ws; _tokenRoomId := ""; _tokenPeerId := ""; _tokenSessionId := "" |}.

(** [ws.on("close")], lines 617-630, is that of the gated server. *)
Definition onClose := Gated.onClose.

End Ungated.

(** ** Reasoning about handlers *)

(** Run the monad's combinators. *)
Ltac mred :=
  cbv beta iota zeta delta
    [bind gets lift modify ret throw try_ when of_res emit peer room set_peer
     set_room send_ fst snd negb andb orb].

(** [m] keeps [I], whether it returns or throws. *)
Definition preserves (I : State → Prop) {A} (m : M A) : Prop :=
  ∀ w, I w.1 → I (m w).2.1.

Section preserves.
Context (I : State → Prop).

Lemma preserves_ret {A} (a : A) : preserves I (ret a).
Proof. by intros w. Qed.

Lemma preserves_throw {A} e : preserves I (@throw A e).
Proof. by intros w. Qed.

Lemma preserves_of_res {A} (r : Res A) : preserves I (of_res r).
Proof. by intros w. Qed.

Lemma preserves_emit o : preserves I (emit o).
Proof. by intros w. Qed.

Lemma preserves_bind {A B} (m : M A) (f : A → M B) :
  preserves I m → (∀ a, preserves I (f a)) → preserves I (bind m f).
Proof.
  intros Hm Hf w Hw. unfold bind. specialize (Hm w Hw).
  destruct (m w) as [[a|e] w']; [by apply Hf|done].
Qed.

Lemma preserves_lift {A} (f : State → Res A * State) :
  (∀ s, I s → I (f s).2) → preserves I (lift f).
Proof. intros Hf [s out] Hs. unfold lift. cbn. specialize (Hf s Hs). by destruct (f s). Qed.

Lemma preserves_gets {A} (f : State → A) : preserves I (gets f).
Proof. by apply preserves_lift. Qed.

Lemma preserves_modify f : (∀ s, I s → I (f s)) → preserves I (modify f).
Proof. intros. by apply preserves_lift. Qed.

Lemma preserves_try m : preserves I m → preserves I (try_ m).
Proof. intros Hm w Hw. unfold try_. specialize (Hm w Hw). by destruct (m w) as [[]]. Qed.

Lemma preserves_when b m : preserves I m → preserves I (when b m).
Proof. destruct b; [done|]. intros _. apply preserves_ret. Qed.

Lemma preserves_forM {A} (l : list A) f :
  (∀ x, x ∈ l → preserves I (f x)) → preserves I (forM l f).
Proof.
  intros Hf. induction l as [|x l IH]; cbn; [apply preserves_ret|].
  apply preserves_bind; [apply Hf; left|].
  intros _. apply IH. intros y Hy. apply Hf. by right.
Qed.

End preserves.

(** Decompose a handler along its combinators. *)
Ltac mpres_step :=
  lazymatch goal with
  | |- preserves _ (bind _ _) => apply preserves_bind; [|intros]
  | |- preserves _ (ret _) => apply preserves_ret
  | |- preserves _ (throw _) => apply preserves_throw
  | |- preserves _ (of_res _) => apply preserves_of_res
  | |- preserves _ (emit _) => apply preserves_emit
  | |- preserves _ (send_ _ _) => apply preserves_emit
  | |- preserves _ (gets _) => apply preserves_gets
  | |- preserves _ (peer _) => apply preserves_gets
  | |- preserves _ (room _) => apply preserves_gets
  | |- preserves _ (try_ _) => apply preserves_try
  | |- preserves _ (when _ _) => apply preserves_when
  | |- preserves _ (forM _ _) => apply preserves_forM; intros ? ?
  | |- preserves _ (from_option _ _ ?o) => destruct o; cbn [from_option]
  | |- preserves _ (match ?x with _ => _ end) => destruct x eqn:?
  | |- preserves _ (let '(_, _) := ?x in _) => destruct x eqn:?
  end.

Ltac head_of t :=
  lazymatch t with
  | ?f _ => head_of f
  | _ => t
  end.

Ltac mpres tac :=
  repeat first
    [ mpres_step
    | lazymatch goal with
      | |- preserves _ (modify _) => apply preserves_modify; intros ? ?; tac
      | |- preserves _ (lift _) => apply preserves_lift; intros ? ?; tac
      | |- preserves _ ?m => let h := head_of m in progress unfold h
      end ].


(** * Properties *)

(** ** The token codec *)

Module TokenSpec.
Import Token.




Section laws.

Variable SECRET : string.
Variable createHmac_sha256 : list ascii → list ascii → Base64.Buffer.
Variable JSON_stringify : json → string.
Variable JSON_parse : string → Res json.

Abbreviation sign := (signToken SECRET createHmac_sha256 JSON_stringify).
Abbreviation verify := (verifyToken SECRET createHmac_sha256 JSON_parse).
Abbreviation law := (json_law JSON_stringify JSON_parse).

Lemma verify_sign p now consume clock used :
  fields_ok p → law p → (consume = true → used !! jti p = None) →
  (verify (sign p) (at_time now consume) clock used).1 =
    if exp p <=? now then Throw "expired"
    else if now + 30 <? iat p then Throw "iat_in_future"
    else Ok (payload_json p).
Proof.
  intros Hok Hlaw Hfresh.
  pose proof (validate_sign SECRET createHmac_sha256 JSON_stringify JSON_parse
                p (at_time now consume) clock Hlaw) as Hv.
  rewrite check_payload_sign in Hv by done.
  change (now_of (at_time now consume) clock) with now in Hv.
  destruct (exp p <=? now) eqn:E1.
  { unfold verifyToken. by rewrite Hv. }
  destruct (now + 30 <? iat p) eqn:E2.
  { unfold verifyToken. by rewrite Hv. }
  erewrite verifyToken_fresh; [done|exact Hv|].
  intros Hc. destruct (payload_fields p) as (_ & _ & _ & -> & _). cbn. by apply Hfresh.
Qed.


(** C6: for a payload that is valid in its other fields, [iat = now + 30]
    is accepted and [iat = now + 31] is refused with [iat_in_future];
    [exp = now] is refused with [expired]; and no token at all is accepted
    at a time that its [exp] does not exceed. *)
Theorem time_boundaries (p : TokenPayload) (now clock : Z) (consume : bool)
    (used : gmap string Z) :
  fields_ok p → law p → used !! jti p = None →
  (now < exp p → iat p = now + 30 →
     (verify (sign p) (at_time now consume) clock used).1 = Ok (payload_json p)) ∧
  (now < exp p → iat p = now + 31 →
     (verify (sign p) (at_time now consume) clock used).1 = Throw "iat_in_future") ∧
  (exp p = now →
     (verify (sign p) (at_time now consume) clock used).1 = Throw "expired") ∧
  (exp p ≤ now →
     (verify (sign p) (at_time now consume) clock used).1 = Throw "expired") ∧
  (∀ token opts clock' used' v used'',
     verify token opts clock' used' = (Ok v, used'') →
     now_of opts clock' < num_of (prop (Some v) "exp")).
Proof.
  intros Hok Hlaw Hfresh.
  repeat split; try (intros; rewrite verify_sign by done;
    repeat match goal with
    | |- context [?a <=? ?b] => destruct (Z.leb_spec a b); try lia
    | |- context [?a <? ?b] => destruct (Z.ltb_spec a b); try lia
    end; done).
  intros token opts clock' used' v used'' Hv.
  apply verifyToken_Ok in Hv. by apply validate_Ok in Hv as (? & _).
Qed.

End laws.

Lemma scenario_law : json_law Json.stringify Json.parse scenario_payload.
Proof. vm_compute. reflexivity. Qed.



Definition at_30 : TokenPayload :=
  {| roomId := "r1"; peerId := "p1"; sessionId := None; jti := "j1";
     iat := 1035; exp := 1060 |}.
Definition at_31 : TokenPayload :=
  {| roomId := "r1"; peerId := "p1"; sessionId := None; jti := "j1";
     iat := 1036; exp := 1060 |}.
Definition at_exp : TokenPayload :=
  {| roomId := "r1"; peerId := "p1"; sessionId := None; jti := "j1";
     iat := 1000; exp := 1005 |}.

Lemma fields_ok_dec p :
  bool_decide (roomId p ≠ "" ∧ peerId p ≠ "" ∧ jti p ≠ "" ∧ iat p ≠ 0 ∧ exp p ≠ 0) = true →
  fields_ok p.
Proof. intros H. by apply bool_decide_eq_true in H. Qed.

Lemma time_boundaries_witness :
  (verify (sign at_30) (at_time 1005 true) 0 ∅).1 = Ok (payload_json at_30) ∧
  (verify (sign at_31) (at_time 1005 true) 0 ∅).1 = Throw "iat_in_future" ∧
  (verify (sign at_exp) (at_time 1005 true) 0 ∅).1 = Throw "expired".
Proof.
  split; [|split].
  - apply (time_boundaries dev_secret Sha256.hmac Json.stringify Json.parse
             at_30 1005 0 true ∅); [by apply fields_ok_dec|by vm_compute|done|done|done].
  - apply (time_boundaries dev_secret Sha256.hmac Json.stringify Json.parse
             at_31 1005 0 true ∅); [by apply fields_ok_dec|by vm_compute|done|done|done].
  - apply (time_boundaries dev_secret Sha256.hmac Json.stringify Json.parse
             at_exp 1005 0 true ∅); [by apply fields_ok_dec|by vm_compute|done|done].
Defined.

End TokenSpec.

(** ** The token-gated server *)

Module Replay.
Import Gated.

(** The options the handshake verifies with. *)
Definition gate_opts : Token.Opts :=
  {| Token.consumeJti := true; Token.expectedRoomId := None;
     Token.expectedPeerId := None; Token.expectedSessionId := None;
     Token.nowSec := None |}.

(** An event that reads the clock reads a time before [e]. *)
Definition before (e : Z) (ev : Event) : Prop :=
  match ev with
  | Connect _ clock => clock < e
  | _ => True
  end.

Section gate.

Variable SECRET : string.
Variable createHmac_sha256 : list ascii → list ascii → Base64.Buffer.
Variable JSON_parse : string → Res json.

Abbreviation validate := (Token.validate SECRET createHmac_sha256 JSON_parse).
Abbreviation verifyToken := (Token.verifyToken SECRET createHmac_sha256 JSON_parse).
Abbreviation onConnection := (Gated.onConnection SECRET createHmac_sha256 JSON_parse).
Abbreviation step := (Gated.step SECRET createHmac_sha256 JSON_parse).
Abbreviation reachable := (Gated.reachable SECRET createHmac_sha256 JSON_parse).

Lemma validate_nonempty token opts clock v :
  validate token opts clock = Ok v → nonempty (Some token) = Some token.
Proof.
  destruct token as [|c token]; [|done]. by cbv.
Qed.

Lemma check_payload_later parsed opts c1 c2 v :
  Token.nowSec opts = None →
  Token.check_payload parsed opts c1 = Ok v → c1 ≤ c2 →
  c2 < Token.num_of (prop (Some v) "exp") →
  Token.check_payload parsed opts c2 = Ok v.
Proof.
  intros Hn Hv Hle Hlt.
  assert (v = parsed) as -> by by apply Token.check_payload_Ok in Hv as (-> & _).
  unfold Token.check_payload in *. destruct parsed; try done;
    unfold Token.payload_checks, Token.now_of in *; rewrite Hn in *;
    cbn [default from_option id] in *;
    repeat match type of Hv with
           | (if ?b then _ else _) = _ => destruct b eqn:?; [discriminate|]
           end;
    repeat match goal with
           | H : (?a <? ?b) = false |- _ => apply Z.ltb_ge in H
           | |- context [?a <=? ?b] => destruct (Z.leb_spec a b); [lia|]
           | |- context [?a <? ?b] => destruct (Z.ltb_spec a b); [lia|]
           end; done.
Qed.

(** A token that passes at one time passes at every later time before
    its [exp]. *)
Lemma validate_later token opts c1 c2 v :
  Token.nowSec opts = None →
  validate token opts c1 = Ok v → c1 ≤ c2 →
  c2 < Token.num_of (prop (Some v) "exp") →
  validate token opts c2 = Ok v.
Proof.
  intros Hn Hv Hle Hlt. unfold Token.validate in *.
  repeat case_match; try discriminate.
  by eapply check_payload_later.
Qed.

(** *** The jti record through the server's steps *)

Section recorded.
Context (j : string) (e : Z).

Definition recorded (s : State) : Prop := usedJti s !! j = Some e.

Ltac frame := unfold recorded in *; repeat case_match; cbn; try done.

Lemma onMessage_recorded ws type rid payload o :
  preserves recorded (onMessage ws type rid payload o).
Proof.
  intros w Hw. unfold onMessage.
  assert (H : preserves recorded (handler ws type rid payload o)) by mpres frame.
  specialize (H w Hw). destruct (handler _ _ _ _ _ w) as [[] w']; [done|].
  by apply (preserves_emit recorded).
Qed.

Lemma onConnection_recorded ws token clock :
  clock < e → preserves recorded (onConnection ws token clock).
Proof.
  intros Hc [s out] Hs. unfold Gated.onConnection.
  destruct (nonempty token) as [t|]; [|done]. mred.
  pose proof (Token.verifyToken_keeps SECRET createHmac_sha256 JSON_parse
                t gate_opts clock (usedJti s) j e Hs Hc) as Hk.
  fold gate_opts.
  destruct (Token.verifyToken _ _ _ t gate_opts clock (usedJti s)) as [r used'].
  cbn in Hk. mred.
  destruct (match r with Ok _ => _ | Throw _ => _ end) as [tp|e0]; [|done].
  destruct (_ =? _)%string; [done|]. by destruct (_ =? _)%string.
Qed.

Lemma step_recorded s ev s' out :
  recorded s → before e ev → step s ev = Some (s', out) → recorded s'.
Proof.
  intros Hs Hb. unfold Gated.step. destruct (action _ _ _ s ev) as [m|] eqn:Ha; [|done].
  cbn. intros [= Hrun].
  assert (preserves recorded m) as Hm.
  { destruct ev; cbn in Ha; simplify_option_eq; repeat case_match; simplify_eq;
      try by mpres frame.
    - apply preserves_bind; [by apply onConnection_recorded|]. intros. by mpres frame.
    - apply onMessage_recorded. }
  specialize (Hm (s, []) Hs). by rewrite Hrun in Hm.
Qed.

End recorded.

Lemma verifyToken_consumed t o c used v used' :
  Token.consumeJti o = true →
  verifyToken t o c used = (Ok v, used') →
  used' !! Token.str_of (prop (Some v) "jti") = Some (Token.num_of (prop (Some v) "exp")).
Proof.
  intros Hc. unfold Token.verifyToken. rewrite Hc.
  repeat case_match; intros [= <- <-]; try done. apply lookup_insert_eq.
Qed.

(** The handshake on a token whose jti is recorded. *)
Lemma onConnection_replayed ws token clock s out v e :
  validate token gate_opts clock = Ok v →
  usedJti s !! Token.str_of (prop (Some v) "jti") = Some e → clock < e →
  onConnection ws (Some token) clock (s, out)
  = (Ok None,
     (with_usedJti (Token.cleanupUsedJti clock (usedJti s)) s,
      out ++ [Close ws (Some 1008) "invalid token: replayed"])).
Proof.
  intros Hv Hj Hc. unfold Gated.onConnection.
  rewrite (validate_nonempty _ _ _ _ Hv). mred. fold gate_opts.
  by rewrite (Token.verifyToken_replayed SECRET createHmac_sha256 JSON_parse
                token gate_opts clock (usedJti s) v e).
Qed.

(** C5: once a verification with [consumeJti] has accepted a jti, a later
    verification with [consumeJti] that presents the same jti while the
    recorded [exp] is in the future is refused with [replayed] though
    every other check passes, and accepts nothing; the record stays when
    the server handles any event before that time; and the handshake on
    the same token closes the socket with 1008 and the reason
    [invalid token: replayed]. *)
Theorem replay_rejected (t1 : string) (o1 : Token.Opts) (c1 : Z)
    (used0 used1 : gmap string Z) (v1 : json) :
  Token.consumeJti o1 = true →
  verifyToken t1 o1 c1 used0 = (Ok v1, used1) →
  let j := Token.str_of (prop (Some v1) "jti") in
  let e := Token.num_of (prop (Some v1) "exp") in
  used1 !! j = Some e ∧ Token.now_of o1 c1 < e ∧
  (∀ t2 o2 c2 used2 v2,
     Token.consumeJti o2 = true → used2 !! j = Some e → Token.now_of o2 c2 < e →
     validate t2 o2 c2 = Ok v2 → Token.str_of (prop (Some v2) "jti") = j →
     verifyToken t2 o2 c2 used2
     = (Throw "replayed", Token.cleanupUsedJti (Token.now_of o2 c2) used2)) ∧
  (∀ t2 o2 c2 used2 v2 used3,
     Token.consumeJti o2 = true → used2 !! j = Some e → Token.now_of o2 c2 < e →
     verifyToken t2 o2 c2 used2 = (Ok v2, used3) →
     Token.str_of (prop (Some v2) "jti") ≠ j) ∧
  (∀ s ev s' out,
     usedJti s !! j = Some e → before e ev → step s ev = Some (s', out) →
     usedJti s' !! j = Some e) ∧
  (o1 = gate_opts →
   ∀ s out ws c2,
     usedJti s !! j = Some e → c1 ≤ c2 → c2 < e →
     onConnection ws (Some t1) c2 (s, out)
     = (Ok None,
        (with_usedJti (Token.cleanupUsedJti c2 (usedJti s)) s,
         out ++ [Close ws (Some 1008) "invalid token: replayed"]))).
Proof.
  intros Hc Hv j e.
  pose proof (Token.verifyToken_Ok _ _ _ _ _ _ _ _ _ Hv) as Hval.
  pose proof (Token.validate_Ok _ _ _ _ _ _ _ Hval) as (Hexp & _).
  split; [by eapply verifyToken_consumed|]. split; [done|].
  split; [|split; [|split]].
  - intros t2 o2 c2 used2 v2 Hc2 Hj Hnow Hv2 Hsame.
    apply Token.verifyToken_replayed with (payload := v2) (e := e); [done|done| |done].
    by rewrite Hsame.
  - intros t2 o2 c2 used2 v2 used3 Hc2 Hj Hnow Hv2 Hsame.
    pose proof (Token.verifyToken_Ok _ _ _ _ _ _ _ _ _ Hv2) as Hval2.
    rewrite <- Hsame in Hj.
    by rewrite (Token.verifyToken_replayed _ _ _ _ _ _ _ _ _ Hc2 Hval2 Hj Hnow) in Hv2.
  - intros s ev s' out. apply step_recorded.
  - intros -> s out ws c2 Hj Hle Hlt.
    apply onConnection_replayed with (v := v1) (e := e); [|done|done].
    by apply validate_later with (c1 := c1).
Qed.

End gate.
End Replay.

(** The handshake of scenario 6: the token of scenario 1 comes again. *)
Definition after_first : State := with_usedJti {["j1" := 1060]} init.

Lemma replay_rejected_witness :
  Gated.onConnection Token.dev_secret Sha256.hmac Json.parse 7
    (Some (Token.sign Token.scenario_payload)) 1010 (after_first, [])
  = (Ok None,
     (with_usedJti (Token.cleanupUsedJti 1010 (usedJti after_first)) after_first,
      [] ++ [Close 7 (Some 1008) "invalid token: replayed"])).
Proof.
  assert (Token.verifyToken Token.dev_secret Sha256.hmac Json.parse
            (Token.sign Token.scenario_payload) Replay.gate_opts 1005 ∅
          = (Ok (Token.payload_json Token.scenario_payload), {["j1" := 1060]})) as H
    by (vm_compute; reflexivity).
  pose proof (Replay.replay_rejected Token.dev_secret Sha256.hmac Json.parse
              (Token.sign Token.scenario_payload) Replay.gate_opts 1005 ∅
              {["j1" := 1060]} (Token.payload_json Token.scenario_payload)
              eq_refl H) as (_ & _ & _ & _ & _ & Hgate).
  refine (Hgate eq_refl after_first [] 7%nat 1010 _ _ _).
  - vm_compute. reflexivity.
  - vm_compute. congruence.
  - vm_compute. reflexivity.
Defined.

(** ** The scenarios of the specification, run on the token-gated server *)

Module Scenario.
Import Gated.

Definition step := Gated.step Token.dev_secret Sha256.hmac Json.parse.
Definition run := Gated.run Token.dev_secret Sha256.hmac Json.parse.
Definition reachable := Gated.reachable Token.dev_secret Sha256.hmac Json.parse.

Definition token_p1 : string := Token.sign Token.scenario_payload.
Definition token_p2 : string :=
  Token.sign {| Token.roomId := "r1"; Token.peerId := "p2"; Token.sessionId := None;
                Token.jti := "j2"; Token.iat := 1000; Token.exp := 1060 |}.

(** The engine's answers: the ids it gives to what it creates. *)
Definition engine (transport producer consumer : string) : Oracle :=
  {| o_rid := "0";
     o_createRouter := Ok {| router_id := "R"; rtpCapabilities := Some (JObj []) |};
     o_createAudioLevelObserver := Ok "O";
     o_createWebRtcTransport :=
       Ok {| transport_id := transport; iceParameters := Some (JObj []);
             iceCandidates := Some (JArr []); dtlsParameters := Some (JObj []) |};
     o_connect := Ok tt;
     o_produce := Ok producer;
     o_canConsume := true;
     o_consume := Ok (consumer, Some (JObj []));
     o_pause := Ok tt;
     o_resume := Ok tt |}.

Definition request (ws : nat) (type : string) (requestId : Z)
    (payload : list (string * json)) (o : Oracle) : Event :=
  Message ws (Some (JStr type)) (Some (JNum requestId)) (Some (JObj payload)) o.

(** Scenarios 1 and 2: p1 and p2 join r1. *)
Definition two_join : list Event :=
  [Connect (Some token_p1) 1005;
   request 0 "join" 1 [("roomId", JStr "r1"); ("sessionId", JStr "s1")] (engine "" "" "");
   Connect (Some token_p2) 1005;
   request 1 "join" 1 [("roomId", JStr "r1"); ("sessionId", JStr "s2")] (engine "" "" "")].

Definition send_transport (t : string) : Event :=
  request 0 "createTransport" 2 [("sessionId", JStr "s1"); ("direction", JStr "send")]
    (engine t "" "").

Definition produce_audio : Event :=
  request 0 "produce" 3
    [("sessionId", JStr "s1"); ("kind", JStr "audio"); ("rtpParameters", JObj [])]
    (engine "" "P" "").

Definition consume_own : Event :=
  request 0 "consume" 4
    [("sessionId", JStr "s1"); ("producerId", JStr "P"); ("rtpCapabilities", JObj [])]
    (engine "" "" "C").

Definition joined : State := Eval vm_compute in default init (run init two_join).
Definition with_send : State :=
  Eval vm_compute in default init (run joined [send_transport "T1"]).
Definition produced : State :=
  Eval vm_compute in default init (run with_send [produce_audio]).

Lemma run_app s es es' : run s (es ++ es') = x ← run s es; run x es'.
Proof.
  revert s. induction es as [|e es IH]; intros s; cbn; [done|].
  unfold run in *. cbn. destruct (Gated.step _ _ _ s e) as [[s' out]|]; cbn; [apply IH|done].
Qed.

Lemma run_reachable s es s' : reachable s → run s es = Some s' → reachable s'.
Proof.
  revert s. induction es as [|e es IH]; intros s Hs; cbn.
  - by intros [= <-].
  - unfold run. cbn. destruct (Gated.step _ _ _ s e) as [[s1 out]|] eqn:E; cbn; [|done].
    apply IH. by eapply reachable_step.
Qed.

Lemma joined_run : run init two_join = Some joined.
Proof. vm_compute. reflexivity. Qed.

Lemma with_send_run : run joined [send_transport "T1"] = Some with_send.
Proof. vm_compute. reflexivity. Qed.

Lemma produced_run : run with_send [produce_audio] = Some produced.
Proof. vm_compute. reflexivity. Qed.

Lemma produced_reachable : reachable produced.
Proof.
  eapply run_reachable; [|apply produced_run].
  eapply run_reachable; [|apply with_send_run].
  eapply run_reachable; [|apply joined_run]. constructor.
Qed.

End Scenario.

(** Run a handler of the server. *)
Ltac gred :=
  cbv beta iota zeta delta
    [Gated.ok Gated.fail Legacy.ok open_transport close_transport
     bind gets lift modify ret throw try_ when of_res emit peer room set_peer
     set_room send_ fst snd negb andb orb].

(** ** What a broadcast does *)

Lemma forM_send_run (l : list nat) (msg : json) (w : World) :
  forM l (λ ws, try_ (send_ ws msg)) w
  = (Ok tt, (w.1, w.2 ++ map (λ ws, Send ws msg) l)).
Proof.
  revert w. induction l as [|x l IH]; intros [s out]; cbn.
  - by rewrite app_nil_r.
  - mred. rewrite IH. cbn. by rewrite <- app_assoc.
Qed.

(** A broadcast sends [msg] to the recipients, changes no state and
    never throws. *)
Lemma broadcastRoom_run roomId msg excludePeerId s out :
  broadcastRoom roomId msg excludePeerId (s, out)
  = (Ok tt,
     (s, out ++ map (λ ws, Send ws msg)
                    (from_option (λ r, recipients s r excludePeerId) []
                                 (JsMap.get (rooms s) roomId)))).
Proof.
  unfold broadcastRoom. cbv beta iota zeta delta [bind gets lift room fst snd].
  destruct (JsMap.get (rooms s) roomId) as [r|]; cbn [from_option].
  - by rewrite forM_send_run.
  - cbn. by rewrite app_nil_r.
Qed.

(** ** produce, createTransport and consume *)

Module Media.
Import Gated Scenario.

(** The state and the outputs after a handler has run on [s]. *)
Definition after (m : M unit) (s : State) : State * list Output := (m (s, [])).2.

Definition p1_socket : Ws :=
  {| ws_id := 0; _tokenRoomId := "r1"; _tokenPeerId := "p1"; _tokenSessionId := "" |}.

Definition produce_payload : jsval :=
  Some (JObj [("sessionId", JStr "s1"); ("kind", JStr "audio"); ("rtpParameters", JObj [])]).

Definition observed_in (s : State) (roomId : string) : list string :=
  from_option Room.observed [] (JsMap.get (rooms s) roomId).

Definition index_of (s : State) (roomId : string) : list string :=
  from_option (λ r, JsMap.keys (Room.producers r)) [] (JsMap.get (rooms s) roomId).

Definition new_producer : json :=
  obj [("type", Some (JStr "newProducer")); ("producerId", Some (JStr "P"));
       ("peerId", Some (JStr "p1")); ("kind", Some (JStr "audio"))].

(** C1, where the code departs from it: p1 and p2 are in r1 and p1 has
    its send transport. On p1's [produce] of an audio track the
    token-gated handler puts the producer in the room's index, but it
    sends nothing to p2, leaves the observer without the producer, and
    answers with [{id}]; the handler of the server without the token gate,
    on the same state and request, answers [{producerId}], sends
    [newProducer] to p2 and puts the producer under the observer. *)
Theorem produce_gated_vs_legacy :
  reachable with_send ∧
  (let '(s, out) := after (onMessage p1_socket (Some (JStr "produce")) (Some (JNum 3))
                             produce_payload (engine "" "P" "")) with_send in
   index_of s "r1" = ["P"] ∧ observed_in s "r1" = [] ∧
   out = [Send 0 (response (Some (JNum 3)) true (Some (obj [("id", Some (JStr "P"))])))]) ∧
  (let '(s, out) := after (Legacy.produce p1_socket (Some (JNum 3)) produce_payload
                             (engine "" "P" "") 0%nat) with_send in
   index_of s "r1" = ["P"] ∧ observed_in s "r1" = ["P"] ∧
   out = [Send 0 (response (Some (JNum 3)) true
                    (Some (obj [("producerId", Some (JStr "P"))])));
          Send 1 new_producer]).
Proof.
  split; [|split].
  - eapply run_reachable; [|apply with_send_run].
    eapply run_reachable; [|apply joined_run]. constructor.
  - vm_compute. done.
  - vm_compute. done.
Qed.

Definition send_payload : jsval :=
  Some (JObj [("sessionId", JStr "s1"); ("direction", JStr "send")]).

Definition send_of (s : State) (a : Addr) : option string := Client.send (deref s a).

(** C7, where the code departs from it: p1 holds the send transport T1
    and asks for a send transport again. The token-gated handler installs
    T2 and leaves T1 open; the handler of the server without the token
    gate closes T1 first. *)
Theorem createTransport_gated_vs_legacy :
  reachable with_send ∧ send_of with_send 0%nat = Some "T1" ∧
  open_transports with_send = ["T1"] ∧
  (let '(s, out) := after (onMessage p1_socket (Some (JStr "createTransport"))
                             (Some (JNum 2)) send_payload (engine "T2" "" "")) with_send in
   send_of s 0%nat = Some "T2" ∧ open_transports s = ["T1"; "T2"]) ∧
  (let '(s, out) := after (Legacy.createTransport p1_socket (Some (JNum 2)) send_payload
                             (engine "T2" "" "") 0%nat) with_send in
   send_of s 0%nat = Some "T2" ∧ open_transports s = ["T2"]).
Proof.
  split; [|conj_split; vm_compute; done].
  eapply run_reachable; [|apply with_send_run].
  eapply run_reachable; [|apply joined_run]. constructor.
Qed.

(** Every successful [produce] of the token-gated handler is the single
    reply [{id}]: nothing is sent to the room and no observer changes. *)
Lemma gated_produce_reply ws requestId payload o a s out t pid :
  field payload "kind" = "audio" ∨ field payload "kind" = "video" →
  Client.send (deref s a) = Some t →
  truthy (prop payload "rtpParameters") = true →
  o_produce o = Ok pid →
  ∃ s', produce ws requestId payload o a (s, out)
        = (Ok tt, (s', out ++ [Send (ws_id ws)
                     (response requestId true (Some (obj [("id", Some (JStr pid))])))]))
        ∧ ∀ roomId, observed_in s' roomId = observed_in s roomId.
Proof.
  intros Hk Hsend Hrtp Hp. unfold produce.
  assert (negb (field payload "kind" =? "audio")%string
          && negb (field payload "kind" =? "video")%string = false) as ->.
  { destruct Hk as [-> | ->]; done. }
  gred. rewrite Hsend, Hrtp, Hp. gred.
  destruct (nonempty (Client.roomId _)) as [roomId|]; gred;
    [|eexists; split; [reflexivity|intros; reflexivity]].
  eexists. split; [done|]. intros k. unfold observed_in. cbn.
  destruct (JsMap.get (rooms s) roomId) as [r|] eqn:Hr; cbn; [|done].
  rewrite JsMap.get_set. destruct (String.eqb_spec k roomId) as [->|]; [|done].
  by rewrite Hr.
Qed.

(** Every successful [createTransport] of the token-gated handler leaves
    open whatever was open. *)
Lemma gated_createTransport_keeps ws requestId payload o a s out roomId r tr :
  field payload "direction" = "send" ∨ field payload "direction" = "recv" →
  nonempty (Client.roomId (deref s a)) = Some roomId →
  JsMap.get (rooms s) roomId = Some r →
  o_createWebRtcTransport o = Ok tr →
  open_transports (createTransport ws requestId payload o a (s, out)).2.1
  = open_transports s ++ [transport_id tr].
Proof.
  intros Hd Hroom Hr Ht. unfold createTransport.
  assert (negb (field payload "direction" =? "send")%string
          && negb (field payload "direction" =? "recv")%string = false) as ->.
  { destruct Hd as [-> | ->]; done. }
  gred. rewrite Hroom. gred. rewrite Hr, Ht. unfold open_transport. gred.
  by destruct (_ =? _)%string.
Qed.

(** The handler of the server without the token gate closes the
    transport it replaces. *)
Lemma legacy_createTransport_closes ws requestId payload o a s out roomId r tr old :
  prop payload "direction" = Some (JStr "send") →
  Client.roomId (deref s a) = Some roomId →
  JsMap.get (rooms s) roomId = Some r →
  Client.send (deref s a) = Some old →
  o_createWebRtcTransport o = Ok tr →
  open_transports (Legacy.createTransport ws requestId payload o a (s, out)).2.1
  = JsSet.delete (open_transports s) old ++ [transport_id tr].
Proof.
  intros Hd Hroom Hr Hold Ht. unfold Legacy.createTransport, Legacy.mkTransport.
  gred. rewrite Hroom. cbn [from_option]. gred. rewrite Hr.
  unfold prop_strict. destruct payload as [[]|]; try done. rewrite Hd. gred.
  cbn [is_str String.eqb Ascii.eqb Bool.eqb]. rewrite Hold. gred.
  by rewrite Ht.
Qed.

(** Every successful [produce] of the server without the token gate does
    what the specification asks: the producer is kept under the peer and
    indexed under the room with its owner, an audio producer is put under
    the level observer, [newProducer] goes to the other members of the
    room, and the requester is answered with [{producerId}]. *)
Lemma legacy_produce_spec ws requestId payload o a s out roomId r t kind pid :
  Client.roomId (deref s a) = Some roomId →
  JsMap.get (rooms s) roomId = Some r → Room.id r = roomId →
  Client.send (deref s a) = Some t →
  prop payload "kind" = Some (JStr kind) → kind = "audio" ∨ kind = "video" →
  o_produce o = Ok pid →
  let producer := {| producer_id := pid; producer_kind := kind |} in
  let peerId := Client.peerId (deref s a) in
  ∃ s' r',
    Legacy.produce ws requestId payload o a (s, out)
    = (Ok tt,
       (s', out ++ Send (ws_id ws)
                     (response requestId true (Some (obj [("producerId", Some (JStr pid))])))
                :: map (λ w, Send w (obj [("type", Some (JStr "newProducer"));
                                          ("producerId", Some (JStr pid));
                                          ("peerId", Some (JStr peerId));
                                          ("kind", Some (JStr kind))]))
                       (recipients s' r' (Some peerId)))) ∧
    JsMap.get (rooms s') roomId = Some r' ∧
    JsMap.get (Room.producers r') pid
    = Some {| Room.peerId := peerId; Room.producer := producer |} ∧
    (kind = "audio" → pid ∈ Room.observed r') ∧
    ((a < length (heap s))%nat →
     JsMap.get (Client.producers (deref s' a)) pid = Some producer).
Proof.
  intros Hroom Hr Hid Hsend Hkind Hk Hp producer peerId.
  unfold Legacy.produce, Legacy.engine_produce. gred. rewrite Hroom. cbn [from_option]. gred.
  rewrite Hr, Hsend. unfold prop_strict.
  destruct payload as [[]|]; try done. rewrite Hkind. gred.
  assert (∀ c, JsMap.get (Client.producers
            (Client.with_producers (JsMap.set (Client.producers c) pid producer) c)) pid
          = Some producer) as Hown.
  { intros c. cbn [Client.producers Client.with_producers].
    by rewrite JsMap.get_set, String.eqb_refl. }
  assert (∀ (s0 : State) (h : Client.t → Client.t) (x : list Client.t),
            x = alter h a (heap s) → (a < length (heap s))%nat →
            (∀ c, JsMap.get (Client.producers (h c)) pid = Some producer) →
            JsMap.get (Client.producers (default Client.dummy (x !! a))) pid = Some producer)
    as Hheap.
  { intros _ h x -> Ha Hh. rewrite list_lookup_alter_eq.
    destruct (lookup_lt_is_Some_2 _ _ Ha) as [c Hc]. rewrite Hc. apply Hh. }
  destruct Hk as [-> | ->]; cbn [is_str String.eqb Ascii.eqb Bool.eqb];
    rewrite Hp; gred; rewrite Hid; cbn [Token.str_of producer_kind producer_id];
    cbn [rooms with_rooms with_heap]; rewrite Hr; cbn [rooms with_rooms];
    cbn [String.eqb Ascii.eqb Bool.eqb]; gred; cbn [rooms with_rooms].
  - rewrite JsMap.get_set, String.eqb_refl. gred. rewrite broadcastRoom_run.
    cbn [rooms with_rooms]. rewrite JsMap.set_set, JsMap.get_set, String.eqb_refl.
    cbn [from_option]. eexists _, _.
    split; [rewrite <- app_assoc; reflexivity|].
    split; [cbn [rooms with_rooms]; by rewrite JsMap.get_set, String.eqb_refl|].
    cbn [Room.producers Room.observed Room.with_observed Room.with_producers].
    split; [by rewrite JsMap.get_set, String.eqb_refl|].
    split; [intros _; apply JsSet.elem_of_add; by left|].
    intros Ha. unfold deref. cbn [heap with_heap with_rooms].
    eapply (Hheap s); [reflexivity|done|apply Hown].
  - rewrite broadcastRoom_run.
    cbn [rooms with_rooms]. rewrite JsMap.get_set, String.eqb_refl.
    cbn [from_option]. eexists _, _.
    split; [rewrite <- app_assoc; reflexivity|].
    split; [cbn [rooms with_rooms]; by rewrite JsMap.get_set, String.eqb_refl|].
    cbn [Room.producers Room.observed Room.with_observed Room.with_producers].
    split; [by rewrite JsMap.get_set, String.eqb_refl|].
    split; [done|].
    intros Ha. unfold deref. cbn [heap with_heap with_rooms].
    eapply (Hheap s); [reflexivity|done|apply Hown].
Qed.

(** *** consume *)

Lemma requireRoomIdMatch_ok ws r w :
  trim (_tokenRoomId ws) ≠ "" →
  trim r = trim (_tokenRoomId ws) →
  requireRoomIdMatch ws r w = (Ok (trim r), w).
Proof.
  intros H1%Token.eqb_empty H2. unfold requireRoomIdMatch.
  by rewrite H1, H2, H1, String.eqb_refl.
Qed.

(** The error a peer gets when it asks for its own producer. *)
Definition self_consume_error (p : Client.t) (payload : jsval) : string :=
  match Client.recv p with
  | None => "recv transport not ready"
  | Some _ =>
      if truthy (prop payload "rtpCapabilities") then "cannot consume self"
      else "missing rtpCapabilities"
  end.

Lemma consume_self_fails ws requestId payload o a s out roomId r rec :
  field payload "sessionId" ≠ "" →
  JsMap.get (sessions s) (field payload "sessionId") = Some a →
  nonempty (Client.roomId (deref s a)) = Some roomId →
  trim (_tokenRoomId ws) ≠ "" → trim roomId = trim (_tokenRoomId ws) →
  JsMap.get (rooms s) roomId = Some r →
  field payload "producerId" ≠ "" →
  JsMap.get (Room.producers r) (field payload "producerId") = Some rec →
  Room.peerId rec = Client.peerId (deref s a) →
  onMessage ws (Some (JStr "consume")) requestId payload o (s, out)
  = (Ok tt,
     (s, out ++ [Send (ws_id ws)
                   (response requestId false
                      (Some (obj [("error",
                                   Some (JStr (self_consume_error (deref s a) payload)))])))])).
Proof.
  intros Hs%Token.eqb_empty Ha Hroom Hw Hm Hr Hp%Token.eqb_empty Hrec Hown.
  unfold onMessage, handler. cbn [is_str String.eqb Ascii.eqb Bool.eqb orb].
  unfold locate. gred. rewrite Hs, Ha. gred. rewrite Hroom. gred.
  rewrite requireRoomIdMatch_ok by done. gred.
  unfold consume, self_consume_error. rewrite Hp. gred.
  destruct (Client.recv (deref s a)); [|done].
  rewrite Hroom. gred. rewrite Hr.
  destruct (truthy (prop payload "rtpCapabilities")); gred; [|done].
  by rewrite Hrec, Hown, String.eqb_refl.
Qed.

(** C8 (as amended): a [consume] that names a producer of the room's
    index owned by the requesting peer itself, sent for a peer that has
    its recv transport and with [rtpCapabilities] in the payload, is
    answered with the failure [cannot consume self] and changes nothing,
    whatever the engine would answer to [canConsume]. *)
Theorem consume_self_refused ws requestId payload o a s out roomId r rec t :
  field payload "sessionId" ≠ "" →
  JsMap.get (sessions s) (field payload "sessionId") = Some a →
  nonempty (Client.roomId (deref s a)) = Some roomId →
  trim (_tokenRoomId ws) ≠ "" → trim roomId = trim (_tokenRoomId ws) →
  JsMap.get (rooms s) roomId = Some r →
  field payload "producerId" ≠ "" →
  JsMap.get (Room.producers r) (field payload "producerId") = Some rec →
  Room.peerId rec = Client.peerId (deref s a) →
  Client.recv (deref s a) = Some t →
  truthy (prop payload "rtpCapabilities") = true →
  onMessage ws (Some (JStr "consume")) requestId payload o (s, out)
  = (Ok tt,
     (s, out ++ [Send (ws_id ws)
                   (response requestId false
                      (Some (obj [("error", Some (JStr "cannot consume self"))])))])).
Proof.
  intros Hs Ha Hroom Hw Hm Hr Hp Hrec Hown Hrecv Hcaps.
  erewrite consume_self_fails by done.
  unfold self_consume_error. by rewrite Hrecv, Hcaps.
Qed.

Definition consume_payload : jsval :=
  Some (JObj [("sessionId", JStr "s1"); ("producerId", JStr "P");
              ("rtpCapabilities", JObj [])]).

Definition consume_error (e : string) : list Output :=
  [Send 0 (response (Some (JNum 4)) false (Some (obj [("error", Some (JStr e))])))].

(** C8 as stated fails: p1 has produced P and holds no recv transport;
    its [consume] of P, owned by p1 itself, is answered
    [recv transport not ready]. *)
Lemma consume_self_without_recv :
  reachable produced ∧
  (Room.peerId <$> (JsMap.get (rooms produced) "r1" ≫= λ r, JsMap.get (Room.producers r) "P"))
    = Some (Client.peerId (deref produced 0%nat)) ∧
  JsMap.get (sessions produced) "s1" = Some 0%nat ∧
  after (onMessage p1_socket (Some (JStr "consume")) (Some (JNum 4)) consume_payload
           (engine "" "" "C")) produced
  = (produced, consume_error "recv transport not ready").
Proof.
  split; [apply produced_reachable|]. conj_split; vm_compute; reflexivity.
Qed.

(** With a recv transport in place the same request is refused as the
    claim says. *)
Definition with_recv : State :=
  Eval vm_compute in
    default init
      (run produced
         [request 0 "createTransport" 5
            [("sessionId", JStr "s1"); ("direction", JStr "recv")] (engine "T3" "" "")]).

Lemma consume_self_refused_witness :
  onMessage p1_socket (Some (JStr "consume")) (Some (JNum 4)) consume_payload
    (engine "" "" "C") (with_recv, [])
  = (Ok tt,
     (with_recv,
      [] ++ [Send (ws_id p1_socket)
               (response (Some (JNum 4)) false
                  (Some (obj [("error", Some (JStr "cannot consume self"))])))])).
Proof.
  refine (consume_self_refused p1_socket (Some (JNum 4)) consume_payload
            (engine "" "" "C") 0%nat with_recv [] "r1"
            (default {| Room.id := ""; Room.router := {| router_id := ""; rtpCapabilities := None |};
                        Room.peers := []; Room.producers := []; Room.audioLevelObserver := "";
                        Room.speaking := []; Room.observed := [] |}
                     (JsMap.get (rooms with_recv) "r1"))
            {| Room.peerId := "p1";
               Room.producer := {| producer_id := "P"; producer_kind := "audio" |} |}
            "T3" _ _ _ _ _ _ _ _ _ _ _);
    vm_compute; congruence.
Defined.

End Media.

(** ** Invariants of the rooms *)

Module Invariants.
Import Gated.

(** *** The speaking set and the producer index *)

Definition room_ok (r : Room.t) : Prop :=
  ∀ pid, pid ∈ Room.speaking r → pid ∈ JsMap.keys (Room.producers r).

Definition rooms_ok (m : JsMap.t Room.t) : Prop := Forall (λ kv, room_ok kv.2) m.

Definition speaking_indexed (s : State) : Prop := rooms_ok (rooms s).

Lemma rooms_ok_get m k r : rooms_ok m → JsMap.get m k = Some r → room_ok r.
Proof.
  unfold JsMap.get. induction m as [|[x y] m IH]; cbn; [done|].
  intros [Hy Hm]%Forall_cons. destruct (String.eqb k x); [by intros [= <-]|auto].
Qed.

Lemma rooms_ok_set m k r : rooms_ok m → room_ok r → rooms_ok (JsMap.set m k r).
Proof.
  intros Hm Hr. induction m as [|[x y] m IH]; cbn.
  - by repeat constructor.
  - apply Forall_cons in Hm as [Hy Hm].
    destruct (String.eqb k x); constructor; [done|done|done|by apply IH].
Qed.

Lemma rooms_ok_delete m k : rooms_ok m → rooms_ok (JsMap.delete m k).
Proof.
  intros Hm. induction m as [|[x y] m IH]; cbn; [done|].
  apply Forall_cons in Hm as [Hy Hm].
  destruct (String.eqb k x); [by apply IH|constructor; [done|by apply IH]].
Qed.

Lemma rooms_ok_close m pid :
  rooms_ok m →
  rooms_ok (map (λ kv, (kv.1, Room.with_observed
                                (JsSet.delete (Room.observed kv.2) pid) kv.2)) m).
Proof.
  intros Hm. unfold rooms_ok. rewrite Forall_map. eapply Forall_impl; [done|].
  by intros [x y].
Qed.

(** A write to a room that keeps [room_ok]. *)
Lemma set_room_ok s k (f : Room.t → Room.t) :
  (∀ r, room_ok r → room_ok (f r)) →
  speaking_indexed s →
  speaking_indexed (match JsMap.get (rooms s) k with
                    | Some r => with_rooms (JsMap.set (rooms s) k (f r)) s
                    | None => s
                    end).
Proof.
  intros Hf Hs. destruct (JsMap.get (rooms s) k) as [r|] eqn:Hr; [|done].
  apply rooms_ok_set; [done|]. apply Hf. by eapply rooms_ok_get.
Qed.

Lemma room_ok_unspeak r pid :
  room_ok r → room_ok (Room.with_speaking (JsSet.delete (Room.speaking r) pid) r).
Proof. intros Hr x. cbn. rewrite JsSet.elem_of_delete. intros [? _]. by apply Hr. Qed.

Lemma room_ok_peers r x : room_ok r → room_ok (Room.with_peers x r).
Proof. done. Qed.

Lemma room_ok_observed r x : room_ok r → room_ok (Room.with_observed x r).
Proof. done. Qed.

Lemma room_ok_register r pid info :
  room_ok r → room_ok (Room.with_producers (JsMap.set (Room.producers r) pid info) r).
Proof. intros Hr x Hx. cbn. rewrite JsMap.keys_set. right. by apply Hr. Qed.

(** The obligations of the state writes. *)
Ltac indexed :=
  first
    [ apply set_room_ok;
      [intros; first [ by apply room_ok_unspeak | by apply room_ok_peers
                     | by apply room_ok_observed | by apply room_ok_register ]
      | assumption ]
    | unfold speaking_indexed in *;
      cbn [rooms with_rooms with_sessions with_heap with_usedJti with_timers
           with_sockets with_transports snd];
      first
        [ assumption
        | by apply rooms_ok_delete
        | apply rooms_ok_set; [assumption|by intros ? ?%elem_of_nil]
        | by apply rooms_ok_close
        | repeat case_match; cbn; assumption ] ].

(** Taking a producer out of the index and out of the speaking set
    (lines 190-200 and 268-278), a step that mends what its first half
    breaks. *)
Lemma drop_producer roomId pid peerId (k : M unit) :
  preserves speaking_indexed k →
  preserves speaking_indexed
    (set_room roomId (λ r, Room.with_producers (JsMap.delete (Room.producers r) pid) r) ;;;
     unspeak roomId pid peerId ;;; k).
Proof.
  intros Hk [s out] Hs. unfold unspeak. mred. cbn [fst] in Hs.
  destruct (JsMap.get (rooms s) roomId) as [r|] eqn:Hr.
  2:{ rewrite Hr. cbn. by apply Hk. }
  cbn [rooms with_rooms]. rewrite JsMap.get_set, String.eqb_refl. cbn [from_option].
  pose proof (rooms_ok_get _ _ _ Hs Hr) as Hok.
  unfold JsSet.has. case_bool_decide as Hin; mred.
  - cbn [rooms with_rooms]. rewrite JsMap.get_set, String.eqb_refl. mred.
    rewrite broadcastRoom_run.
    apply Hk. cbn [fst rooms with_rooms]. rewrite JsMap.set_set.
    apply rooms_ok_set; [done|].
    intros x. cbn [Room.speaking Room.producers Room.with_speaking Room.with_producers].
    rewrite JsSet.elem_of_delete, JsMap.keys_delete.
    intros [Hx ?]. split; [by apply Hok|done].
  - apply Hk. cbn [fst rooms with_rooms]. apply rooms_ok_set; [done|].
    intros x Hx. cbn [Room.speaking Room.producers Room.with_producers] in *.
    rewrite JsMap.keys_delete. split; [by apply Hok|].
    by intros ->.
Qed.

Ltac mpres_indexed :=
  repeat first
    [ lazymatch goal with
      | |- preserves _ (bind (set_room _ (λ r, Room.with_producers (JsMap.delete _ _) r)) _) =>
          apply drop_producer
      end
    | mpres_step
    | lazymatch goal with
      | |- preserves _ (modify _) => apply preserves_modify; intros ? ?; indexed
      | |- preserves _ (lift _) => apply preserves_lift; intros ? ?; indexed
      | |- preserves _ ?m => let h := head_of m in progress unfold h
      end ].

Lemma onMessage_indexed ws type rid payload o :
  preserves speaking_indexed (onMessage ws type rid payload o).
Proof.
  intros w Hw. unfold onMessage.
  assert (H : preserves speaking_indexed (handler ws type rid payload o)).
  { mpres_indexed. }
  specialize (H w Hw). destruct (handler _ _ _ _ _ w) as [[] w']; [done|].
  by apply (preserves_emit speaking_indexed).
Qed.

Lemma room_ok_speak r pid :
  pid ∈ JsMap.keys (Room.producers r) → room_ok r →
  room_ok (Room.with_speaking (JsSet.add (Room.speaking r) pid) r).
Proof.
  intros Hp Hr x. cbn [Room.speaking Room.producers Room.with_speaking].
  rewrite JsSet.elem_of_add. intros [->|Hx]; [done|by apply Hr].
Qed.

(** The [volumes] listener keeps the invariant when what it is told of
    is in the room's index. *)
Lemma on_volumes_indexed roomId volumes s out r :
  JsMap.get (rooms s) roomId = Some r →
  Forall (λ v, producer_id v.1 ∈ JsMap.keys (Room.producers r)) volumes →
  speaking_indexed s →
  speaking_indexed (on_volumes roomId volumes (s, out)).2.1.
Proof.
  intros Hr Hv Hs.
  set (I := λ s, speaking_indexed s ∧
                 ∃ r, JsMap.get (rooms s) roomId = Some r ∧
                      Forall (λ v, producer_id v.1 ∈ JsMap.keys (Room.producers r)) volumes).
  assert (Hset : ∀ f : Room.t → Room.t,
            (∀ r, Room.producers (f r) = Room.producers r) →
            (∀ r, Forall (λ v, producer_id v.1 ∈ JsMap.keys (Room.producers r)) volumes →
                  room_ok r → room_ok (f r)) →
            preserves I (set_room roomId f)).
  { intros f Hf Hok. unfold set_room. apply preserves_modify.
    intros s0 [Hs0 (r0 & Hr0 & Hv0)]. rewrite Hr0. split.
    - apply rooms_ok_set; [done|]. apply Hok; [done|]. by eapply rooms_ok_get.
    - exists (f r0). cbn [rooms with_rooms]. rewrite JsMap.get_set, String.eqb_refl.
      by rewrite Hf. }
  assert (HI : preserves I (on_volumes roomId volumes)).
  { unfold on_volumes.
    apply preserves_bind; [|intros _; apply preserves_bind; [apply preserves_gets|]].
    - apply preserves_forM. intros v _. apply preserves_bind; [apply preserves_gets|].
      intros r0 [s0 out0] H0. by rewrite broadcastRoom_run.
    - intros r0. apply preserves_bind.
      + apply preserves_forM. intros pid _. apply preserves_when.
        apply preserves_bind; [|intros _; apply preserves_bind; [apply preserves_gets|]].
        * apply Hset; [done|]. intros. by apply room_ok_unspeak.
        * intros r1 [s0 out0] H0. by rewrite broadcastRoom_run.
      + intros _. apply preserves_forM. intros pid Hpid. apply Hset; [done|].
        intros r1 Hv1 Hok1. apply room_ok_speak; [|done].
        apply list_elem_of_fmap in Hpid as (v & -> & Hin).
        by apply (proj1 (Forall_forall _ _) Hv1). }
  apply (HI (s, out)). split; [done|]. by exists r.
Qed.

Section steps.
Context (SECRET : string) (hmac : list ascii → list ascii → Base64.Buffer)
        (parse : string → Res json).

Lemma onConnection_indexed ws token clock :
  preserves speaking_indexed (onConnection SECRET hmac parse ws token clock).
Proof. mpres_indexed. Qed.

Lemma step_indexed s ev s' out :
  speaking_indexed s → step SECRET hmac parse s ev = Some (s', out) →
  speaking_indexed s'.
Proof.
  intros Hs. unfold step. destruct (action _ _ _ s ev) as [m|] eqn:Ha; [|done].
  cbn. intros [= Hrun].
  assert (speaking_indexed (m (s, [])).2.1) as Hm; [|by rewrite Hrun in Hm].
  destruct ev; cbn in Ha; simplify_option_eq; repeat case_match; simplify_eq;
    first
      [ by apply onMessage_indexed
      | match goal with
        | H : bool_decide _ = true |- _ =>
            apply bool_decide_eq_true in H; by eapply on_volumes_indexed
        end
      | lazymatch goal with
        | |- speaking_indexed (?m (s, [])).2.1 =>
            let H' := fresh in
            assert (preserves speaking_indexed m) as H' by mpres_indexed;
            by apply H'
        end
      | unfold speaking_indexed in *; cbn [rooms with_rooms with_heap with_transports];
        first [ assumption | by apply rooms_ok_close ] ].
Qed.

(** C2: in every reachable state of the token-gated server (requests,
    socket closes, grace expiry, the observer's [volumes] and [silence],
    the engine's close events) the speaking set of every room is a subset
    of the keys of the room's producer index. *)
Theorem speaking_subset_index s roomId r :
  reachable SECRET hmac parse s →
  JsMap.get (rooms s) roomId = Some r →
  Room.speaking r ⊆ JsMap.keys (Room.producers r).
Proof.
  intros Hreach Hr.
  assert (speaking_indexed s) as Hs.
  { clear Hr. induction Hreach as [|s e s' out _ IH Hstep]; [by apply Forall_nil|].
    by eapply step_indexed. }
  intros pid. by apply (rooms_ok_get _ _ _ Hs Hr).
Qed.

End steps.

(** *** The producer index and the peers *)

(** C3 as the specification has it: every entry of a room's producer
    index names a peer of the room's peer map that holds the producer in
    its own map. *)
Definition index_owned (s : State) : Prop :=
  ∀ roomId r pid info,
    JsMap.get (rooms s) roomId = Some r →
    JsMap.get (Room.producers r) pid = Some info →
    ∃ a, JsMap.get (Room.peers r) (Room.peerId info) = Some a ∧
         is_Some (JsMap.get (Client.producers (deref s a)) pid).

(** The [volumes] listener has heard P. *)
Definition hear_P : list Event :=
  [Volumes "r1" [({| producer_id := "P"; producer_kind := "audio" |}, -40)]].

Definition spoken : State :=
  Eval vm_compute in default init (Scenario.run Scenario.produced hear_P).

(** The send transport of p1 has closed under its producer P. *)
Definition stale : State :=
  Eval vm_compute in
    default init (Scenario.run Scenario.produced [ProducerTransportClose 0%nat "P"]).

Definition no_room : Room.t :=
  {| Room.id := ""; Room.router := {| router_id := ""; rtpCapabilities := None |};
     Room.peers := []; Room.producers := []; Room.audioLevelObserver := "";
     Room.speaking := []; Room.observed := [] |}.

Definition room_r1 (s : State) : Room.t := default no_room (JsMap.get (rooms s) "r1").

Lemma spoken_reachable : Scenario.reachable spoken.
Proof.
  apply (Scenario.run_reachable Scenario.produced hear_P);
    [apply Scenario.produced_reachable|].
  vm_compute. reflexivity.
Qed.

Lemma speaking_subset_index_witness :
  Room.speaking (room_r1 spoken) = ["P"] ∧
  Room.speaking (room_r1 spoken) ⊆ JsMap.keys (Room.producers (room_r1 spoken)).
Proof.
  split; [reflexivity|].
  apply (speaking_subset_index Token.dev_secret Sha256.hmac Json.parse spoken "r1");
    [apply spoken_reachable|reflexivity].
Defined.

(** C3, where the code departs from it: p1 has produced P; when P's
    transport closes, the [transportclose] listener takes P out of p1's
    own map and closes it, and leaves P in the room's index. *)
Theorem index_stale_after_transportclose :
  Scenario.reachable Scenario.produced ∧ index_owned Scenario.produced ∧
  Scenario.step Scenario.produced (ProducerTransportClose 0%nat "P") = Some (stale, []) ∧
  Scenario.reachable stale ∧
  Room.peerId <$> JsMap.get (Room.producers (room_r1 stale)) "P" = Some "p1" ∧
  JsMap.get (Room.peers (room_r1 stale)) "p1" = Some 0%nat ∧
  JsMap.get (Client.producers (deref stale 0%nat)) "P" = None ∧
  ¬ index_owned stale.
Proof.
  assert (Hstep : Scenario.step Scenario.produced (ProducerTransportClose 0%nat "P")
                  = Some (stale, [])) by (vm_compute; reflexivity).
  split; [apply Scenario.produced_reachable|]. split.
  { intros roomId r pid info Hr Hi. unfold JsMap.get in Hr, Hi.
    cbn in Hr. destruct (String.eqb roomId "r1"); [|done]. injection Hr as <-.
    cbn in Hi. destruct (String.eqb_spec pid "P") as [->|]; [|done]. injection Hi as <-.
    exists 0%nat. split; [reflexivity|]. by eexists. }
  split; [done|]. split.
  { eapply reachable_step; [apply Scenario.produced_reachable|apply Hstep]. }
  split; [reflexivity|]. split; [reflexivity|]. split; [reflexivity|].
  intros H.
  destruct (H "r1" (room_r1 stale) "P"
              {| Room.peerId := "p1";
                 Room.producer := {| producer_id := "P"; producer_kind := "audio" |} |}
              eq_refl eq_refl) as (a & Ha & Hp).
  cbv in Ha. injection Ha as <-. by destruct Hp.
Qed.

End Invariants.

(** ** The dispatcher *)

Module Dispatch.
Import Gated.

(** *** What a handler sends *)

(** Every output of [m] satisfies [P]. *)
Definition emits (P : Output → Prop) {A} (m : M A) : Prop :=
  ∀ s out, ∃ evs, (m (s, out)).2.2 = out ++ evs ∧ Forall P evs.

(** [m] does not throw. *)
Definition total {A} (m : M A) : Prop := ∀ w, ∃ a, (m w).1 = Ok a.

Section emits.
Context (P : Output → Prop).

Lemma emits_ret {A} (a : A) : emits P (ret a).
Proof. intros s out. exists []. by rewrite app_nil_r. Qed.

Lemma emits_throw {A} e : emits P (@throw A e).
Proof. intros s out. exists []. by rewrite app_nil_r. Qed.

Lemma emits_of_res {A} (r : Res A) : emits P (of_res r).
Proof. intros s out. exists []. by rewrite app_nil_r. Qed.

Lemma emits_lift {A} (f : State → Res A * State) : emits P (lift f).
Proof.
  intros s out. exists []. unfold lift. cbn. destruct (f s). cbn. by rewrite app_nil_r.
Qed.

Lemma emits_emit o : P o → emits P (emit o).
Proof. intros Ho s out. exists [o]. split; [done|by constructor]. Qed.

Lemma emits_bind {A B} (m : M A) (f : A → M B) :
  emits P m → (∀ a, emits P (f a)) → emits P (bind m f).
Proof.
  intros Hm Hf s out. unfold bind. destruct (Hm s out) as (evs & He & HP).
  destruct (m (s, out)) as [[a|e] [s' out']]; cbn in *; subst out'.
  - destruct (Hf a s' (out ++ evs)) as (evs' & He' & HP').
    exists (evs ++ evs'). rewrite He', app_assoc. split; [done|by apply Forall_app].
  - by exists evs.
Qed.

Lemma emits_try m : emits P m → emits P (try_ m).
Proof.
  intros Hm s out. unfold try_. destruct (Hm s out) as (evs & He & HP).
  destruct (m (s, out)) as [[a|e] [s' out']]; cbn in *; by exists evs.
Qed.

Lemma emits_when b m : (b = true → emits P m) → emits P (when b m).
Proof. destruct b; [auto|]. intros _. apply emits_ret. Qed.

Lemma emits_forM {A} (l : list A) f : (∀ x, emits P (f x)) → emits P (forM l f).
Proof.
  intros Hf. induction l; cbn; [apply emits_ret|].
  apply emits_bind; auto.
Qed.

End emits.

Lemma total_ret {A} (a : A) : total (ret a).
Proof. intros w. by exists a. Qed.

Lemma total_lift {A} (f : State → A * State) : total (lift (λ s, (Ok (f s).1, (f s).2))).
Proof. intros w. by eexists. Qed.

Lemma total_emit o : total (emit o).
Proof. intros w. by exists tt. Qed.

Lemma total_bind {A B} (m : M A) (f : A → M B) :
  total m → (∀ a, total (f a)) → total (bind m f).
Proof.
  intros Hm Hf w. unfold bind. destruct (Hm w) as (a & Ha).
  destruct (m w) as [[a'|e] w']; cbn in Ha; [|done]. apply Hf.
Qed.

Lemma total_broadcast roomId msg ex : total (broadcastRoom roomId msg ex).
Proof. intros [s out]. rewrite broadcastRoom_run. by eexists. Qed.
















(** *** Closes with 1008 *)





Section handshake.
Context (SECRET : string) (hmac : list ascii → list ascii → Base64.Buffer)
        (parse : string → Res json).




End handshake.

(** *** Requests below the handshake ones do not look at who asks *)


Section alike.
Context (ws1 ws2 : nat).







End alike.



End Dispatch.



(** * Further properties *)

(** ** Concrete runs of the token-gated server *)

Module Cases.
Import Gated.

(** The socket p1 is admitted on. *)
Definition p1 : Ws :=
  {| ws_id := 0; _tokenRoomId := "r1"; _tokenPeerId := "p1"; _tokenSessionId := "" |}.

(** p1 is connected and has not joined. *)
Definition connect_p1 : list Event := [Connect (Some Scenario.token_p1) 1005].

Definition admitted : State := Eval vm_compute in default init (Scenario.run init connect_p1).

Lemma admitted_reachable : Scenario.reachable admitted.
Proof.
  apply (Scenario.run_reachable init connect_p1); [constructor|].
  vm_compute. reflexivity.
Qed.

(** p1 and p2 are in r1, p1 produces, and the socket of p1 has closed. *)
Definition close_p1 : list Event := [SocketClosed 0 2000].

Definition closed : State :=
  Eval vm_compute in default init (Scenario.run Scenario.produced close_p1).

Lemma closed_reachable : Scenario.reachable closed.
Proof.
  apply (Scenario.run_reachable Scenario.produced close_p1);
    [apply Scenario.produced_reachable|].
  vm_compute. reflexivity.
Qed.

(** The grace timer of p1 has fired. *)
Definition expired : State * list Output :=
  Eval vm_compute in default (init, []) (Scenario.step closed (GraceExpired 0)).

(** The room r1 once p1 produces. *)
Definition no_room : Room.t :=
  {| Room.id := ""; Room.router := {| router_id := ""; rtpCapabilities := None |};
     Room.peers := []; Room.producers := []; Room.audioLevelObserver := "";
     Room.speaking := []; Room.observed := [] |}.

Definition r1 : Room.t :=
  Eval vm_compute in default no_room (JsMap.get (rooms Scenario.produced) "r1").


Definition nothing : Oracle := Scenario.engine "" "" "".

End Cases.

(** ** token.ts: the codec and the jti table *)

Module Codec.
Import Base64 Token.

(** The characters of the URL-safe alphabet. *)
Definition url_safe (c : ascii) : bool :=
  let n := nat_of_ascii c in
  ((65 <=? n) && (n <=? 90) || (97 <=? n) && (n <=? 122) || (48 <=? n) && (n <=? 57)
   || (n =? 45) || (n =? 95))%nat.

Lemma url_char_safe s : url_safe (url_char s) = true.
Proof. by destruct s as [[] [] [] [] [] []]. Qed.

Lemma url_text_length buf : length (url_text buf) = ((4 * length buf + 2) / 3)%nat.
Proof.
  induction buf as [|a|a b|a b c l IH] using list_ind3; try done.
  cbn [url_text length]. rewrite IH.
  replace (4 * S (S (S (length l))) + 2)%nat with (4 * 3 + (4 * length l + 2))%nat by lia.
  rewrite Nat.div_add_l by done. lia.
Qed.

(** X1: [base64urlDecodeToBuffer] undoes [base64urlEncode] on every
    buffer. *)
Theorem base64url_decode_encode (buf : Buffer) :
  base64urlDecodeToBuffer (base64urlEncode buf) = buf.
Proof. apply base64url_roundtrip. Qed.

(** X2: the text [base64urlEncode] gives holds only letters, digits, [-]
    and [_] (no padding, no [+], [/] or [.]), and its length is that of
    unpadded base64. *)
Theorem base64urlEncode_url_safe (buf : Buffer) :
  forallb url_safe (base64urlEncode buf) = true ∧
  length (base64urlEncode buf) = ((4 * length buf + 2) / 3)%nat.
Proof.
  rewrite base64urlEncode_text. split.
  - apply forallb_forall. intros c Hc%in_map_iff. destruct Hc as (s & <- & _).
    apply url_char_safe.
  - rewrite length_map. apply url_text_length.
Qed.

Lemma split_length c s : length (split c s) = S (count_occ ascii_dec s c).
Proof.
  induction s as [|x s IH]; [done|]. cbn [split count_occ].
  destruct (Ascii.eqb_spec x c) as [->|Hne].
  - destruct (ascii_dec c c); [|done]. cbn. by rewrite IH.
  - destruct (ascii_dec x c); [done|]. destruct (split c s); [done|]. exact IH.
Qed.

Lemma split_nonempty c s : split c s ≠ [].
Proof. destruct s as [|x s]; [done|]. cbn. destruct (Ascii.eqb x c); [done|by destruct (split c s)]. Qed.

Lemma split_one c s b : split c s = [b] → s = b ∧ c ∉ b.
Proof.
  revert b. induction s as [|x s IH]; intros b; cbn [split].
  - intros [= <-]. split; [done|by intros ?%elem_of_nil].
  - destruct (Ascii.eqb_spec x c) as [->|Hne].
    + intros [= _ H]. by destruct (split_nonempty c s).
    + destruct (split c s) as [|h [|? ?]] eqn:Hs;
        [by destruct (split_nonempty c s)| |done].
      intros [= <-]. destruct (IH h eq_refl) as [-> Hh]. split; [done|].
      intros [?|?]%elem_of_cons; [by subst|done].
Qed.

Lemma split_two c s a b : split c s = [a; b] → s = a ++ (c :: b) ∧ (c ∉ a) ∧ (c ∉ b).
Proof.
  revert a. induction s as [|x s IH]; intros a; cbn [split]; [done|].
  destruct (Ascii.eqb_spec x c) as [->|Hne].
  - intros [= <- Hs]. apply split_one in Hs as [-> Hb].
    split; [done|]. split; [by intros ?%elem_of_nil|done].
  - destruct (split c s) as [|h [|b' [|? ?]]] eqn:Hs; try done.
    intros [= <- <-]. destruct (IH h eq_refl) as (-> & Ha & Hb).
    split; [done|]. split; [|done]. intros [?|?]%elem_of_cons; [by subst|done].
Qed.

Lemma cleanup_Some now used j e :
  cleanupUsedJti now used !! j = Some e ↔ used !! j = Some e ∧ now < e.
Proof.
  unfold cleanupUsedJti. rewrite map_lookup_filter_Some. cbn.
  split; (intros [? ?]; split; [done|lia]).
Qed.

Lemma cleanup_idemp now used : cleanupUsedJti now (cleanupUsedJti now used) = cleanupUsedJti now used.
Proof.
  apply map_eq. intros j. apply option_eq. intros e.
  unfold cleanupUsedJti. rewrite !map_lookup_filter_Some. tauto.
Qed.

Section codec.

Variable SECRET : string.
Variable createHmac_sha256 : list ascii → list ascii → Buffer.
Variable JSON_parse : string → Res json.

Abbreviation validate := (Token.validate SECRET createHmac_sha256 JSON_parse).
Abbreviation verifyToken := (Token.verifyToken SECRET createHmac_sha256 JSON_parse).

(** What passes [validate] has passed the checks on the payload. *)
Lemma validate_checks token opts clock v :
  validate token opts clock = Ok v → payload_checks v opts clock = Ok v.
Proof.
  unfold Token.validate. intros Hv.
  destruct (split "." (list_ascii_of_string token)) as [|a [|b [|c l]]]; try done.
  destruct (negb (_ =? _)%nat); [done|]. destruct (negb (bool_decide _)); [done|].
  destruct (JSON_parse _) as [parsed|]; [|done].
  assert (Hc : payload_checks parsed opts clock = Ok v) by by destruct parsed.
  unfold payload_checks in Hc |- *. cbv zeta in *.
  repeat (match type of Hc with
          | (if ?b then _ else _) = _ => destruct b eqn:?; [discriminate|]
          end).
  injection Hc as <-.
  repeat match goal with E : ?b = false |- context [?b] => rewrite E end.
  done.
Qed.

(** X3: a token that does not hold exactly one dot is refused with
    [bad_format], and the jti table stays as it was. *)
Theorem verifyToken_bad_format token opts clock used :
  count_occ ascii_dec (list_ascii_of_string token) "."%char ≠ 1%nat →
  verifyToken token opts clock used = (Throw "bad_format", used).
Proof.
  intros Hn. unfold Token.verifyToken, Token.validate.
  pose proof (split_length "." (list_ascii_of_string token)) as Hl.
  destruct (split "." (list_ascii_of_string token)) as [|a [|b [|c l]]]; try done.
  cbn in Hl. lia.
Qed.

(** X4: an accepted token is two dot-free parts joined by a dot, the
    second decodes to the HMAC of the first under the secret, and what is
    returned is what [JSON.parse] reads in the decoded first part, with
    [roomId], [peerId] and [jti] non-empty strings and [iat] and [exp]
    non-zero numbers. *)
Theorem accepted_is_signed token opts clock used v used' :
  verifyToken token opts clock used = (Ok v, used') →
  ∃ payloadB64 sigB64,
    list_ascii_of_string token = payloadB64 ++ ("."%char :: sigB64) ∧
    count_occ ascii_dec (list_ascii_of_string token) "."%char = 1%nat ∧
    base64urlDecodeToBuffer sigB64
    = createHmac_sha256 (list_ascii_of_string SECRET) payloadB64 ∧
    JSON_parse (string_of_list_ascii (base64urlDecodeToBuffer payloadB64)) = Ok v ∧
    (∃ r p j, prop (Some v) "roomId" = Some (JStr r) ∧ r ≠ "" ∧
              prop (Some v) "peerId" = Some (JStr p) ∧ p ≠ "" ∧
              prop (Some v) "jti" = Some (JStr j) ∧ j ≠ "") ∧
    (∃ i e, prop (Some v) "iat" = Some (JNum i) ∧ i ≠ 0 ∧
            prop (Some v) "exp" = Some (JNum e) ∧ e ≠ 0).
Proof.
  intros Hv%verifyToken_Ok. unfold Token.validate in Hv.
  pose proof (split_length "." (list_ascii_of_string token)) as Hl.
  destruct (split "." (list_ascii_of_string token)) as [|a [|b [|c l]]] eqn:Hs; try done.
  apply split_two in Hs as (Htok & _ & _).
  destruct (negb (_ =? _)%nat); [done|].
  case_bool_decide as Hsig; [|done]. cbn [negb] in Hv.
  destruct (JSON_parse _) as [parsed|] eqn:Hp; [|done].
  exists a, b. split; [done|]. split; [cbn in Hl; lia|]. split; [done|].
  assert (Hc : payload_checks parsed opts clock = Ok v) by by destruct parsed.
  unfold payload_checks in Hc. cbv zeta in Hc.
  repeat (match type of Hc with
          | (if ?b then _ else _) = _ => destruct b eqn:?; [discriminate|]
          end).
  injection Hc as <-. split; [done|].
  repeat match goal with
         | E : _ || _ = false |- _ => apply orb_false_elim in E as [? ?]
         | E : negb _ = false |- _ => apply negb_false_iff in E
         end.
  split.
  - destruct (prop (Some parsed) "roomId") as [[]|]; try done.
    destruct (prop (Some parsed) "peerId") as [[]|]; try done.
    destruct (prop (Some parsed) "jti") as [[]|]; try done.
    eexists _, _, _. cbn in *.
    repeat match goal with
           | E : negb (_ =? _)%string = true |- _ =>
               apply negb_true_iff, String.eqb_neq in E
           end.
    done.
  - destruct (prop (Some parsed) "iat") as [[]|]; try done.
    destruct (prop (Some parsed) "exp") as [[]|]; try done.
    eexists _, _. cbn in *.
    repeat match goal with
           | E : negb (_ =? _) = true |- _ => apply negb_true_iff, Z.eqb_neq in E
           end.
    done.
Qed.

(** X5: a refused token records nothing: the table after the refusal
    holds only records it held before, and it is the very same table
    unless the refusal is [replayed]. *)
Theorem refused_records_nothing token opts clock used e used' :
  verifyToken token opts clock used = (Throw e, used') →
  (∀ j x, used' !! j = Some x → used !! j = Some x) ∧
  (e = "replayed" ∨ used' = used).
Proof.
  unfold Token.verifyToken. destruct (validate token opts clock) as [v|e0].
  - destruct (consumeJti opts); [|done]. case_bool_decide; [|done].
    intros [= <- <-]. split; [|by left].
    intros j x Hj. by apply cleanup_Some in Hj as [? _].
  - intros [= <- <-]. split; [done|by right].
Qed.

(** X6: after a token is accepted at time [now], every record of the jti
    table expires after [now]. *)
Theorem accepted_table_future token opts clock used v used' :
  verifyToken token opts clock used = (Ok v, used') →
  map_Forall (λ _ x, now_of opts clock < x) used'.
Proof.
  intros Hv j x Hj. pose proof (verifyToken_Ok _ _ _ _ _ _ _ _ _ Hv) as Hval.
  apply validate_Ok in Hval as (Hexp & _).
  unfold Token.verifyToken in Hv. destruct (validate token opts clock) as [v0|]; [|done].
  destruct (consumeJti opts).
  - case_bool_decide; [done|]. injection Hv as <- <-.
    apply lookup_insert_Some in Hj as [[_ <-]|[_ Hj]]; [done|].
    by apply cleanup_Some in Hj as [_ ?].
  - injection Hv as <- <-. by apply cleanup_Some in Hj as [_ ?].
Qed.

(** X7: the bindings a caller asks for hold of what is accepted: with a
    non-empty [expectedRoomId], [expectedPeerId] or [expectedSessionId]
    the accepted payload carries that very string as its [roomId],
    [peerId] or [sessionId]. *)
Theorem accepted_is_bound token opts clock used v used' :
  verifyToken token opts clock used = (Ok v, used') →
  (∀ r, expectedRoomId opts = Some r → r ≠ "" → prop (Some v) "roomId" = Some (JStr r)) ∧
  (∀ p, expectedPeerId opts = Some p → p ≠ "" → prop (Some v) "peerId" = Some (JStr p)) ∧
  (∀ x, expectedSessionId opts = Some x → x ≠ "" →
        prop (Some v) "sessionId" = Some (JStr x)).
Proof.
  intros Hc%verifyToken_Ok%validate_checks.
  unfold payload_checks in Hc. cbv zeta in Hc.
  set (room := prop (Some v) "roomId") in *. set (peer := prop (Some v) "peerId") in *.
  set (session := prop (Some v) "sessionId") in *.
  repeat (match type of Hc with
          | (if ?b then _ else _) = _ => destruct b eqn:?; [discriminate|]
          end).
  clear Hc.
  repeat match goal with
         | E : _ || _ = false |- _ => apply orb_false_elim in E as [? ?]
         end.
  split; [|split].
  - intros r Hr Hne.
    lazymatch goal with E : given (expectedRoomId opts) && _ = false |- _ => rename E into Hb end.
    rewrite Hr in Hb. cbn [given default from_option id] in Hb.
    rewrite (eqb_empty _ Hne) in Hb. cbn [negb andb] in Hb.
    apply negb_false_iff, String.eqb_eq in Hb.
    lazymatch goal with E : negb (is_string room) = false |- _ => rename E into Hs end.
    destruct room as [[]|]; try done. cbn in Hb. by subst.
  - intros p Hp Hne.
    lazymatch goal with E : given (expectedPeerId opts) && _ = false |- _ => rename E into Hb end.
    rewrite Hp in Hb. cbn [given default from_option id] in Hb.
    rewrite (eqb_empty _ Hne) in Hb. cbn [negb andb] in Hb.
    apply negb_false_iff, String.eqb_eq in Hb.
    lazymatch goal with E : negb (is_string peer) = false |- _ => rename E into Hs end.
    destruct peer as [[]|]; try done. cbn in Hb. by subst.
  - intros x Hx Hne.
    lazymatch goal with E : given (expectedSessionId opts) && _ = false |- _ => rename E into Hb end.
    rewrite Hx in Hb. cbn [given default from_option id] in Hb.
    rewrite (eqb_empty _ Hne) in Hb. cbn [negb andb] in Hb.
    apply negb_false_iff in Hb. unfold or_else in Hb.
    destruct session as [[| | |s| |]|]; cbn [truthy is_str] in Hb;
      repeat match type of Hb with
             | context [if ?b then _ else _] => destruct b eqn:?; cbn [is_str] in Hb
             end; try done;
      apply String.eqb_eq in Hb; by subst.
Qed.

(** X8: a jti whose record has expired can be consumed again: the token
    is accepted and the jti is recorded anew with the token's [exp]. *)
Theorem expired_jti_reusable token opts clock used v e :
  consumeJti opts = true →
  validate token opts clock = Ok v →
  used !! str_of (prop (Some v) "jti") = Some e → e ≤ now_of opts clock →
  verifyToken token opts clock used
  = (Ok v, <[str_of (prop (Some v) "jti") := num_of (prop (Some v) "exp")]>
             (cleanupUsedJti (now_of opts clock) used)).
Proof.
  intros Hc Hv Hj He. unfold Token.verifyToken. rewrite Hv, Hc.
  rewrite bool_decide_eq_false_2; [done|].
  intros [x Hx]. apply cleanup_Some in Hx as [Hx ?]. rewrite Hj in Hx.
  injection Hx as <-. lia.
Qed.

(** X9: without [consumeJti] a verification neither reads nor records a
    jti: its answer is the same whatever the table holds, and verifying
    again at the same time gives the same answer and the same table. *)
Theorem verify_without_consume token opts clock used used0 :
  consumeJti opts = false →
  (verifyToken token opts clock used).1 = (verifyToken token opts clock used0).1 ∧
  verifyToken token opts clock (verifyToken token opts clock used).2
  = verifyToken token opts clock used.
Proof.
  intros Hc. unfold Token.verifyToken. rewrite Hc.
  destruct (validate token opts clock); cbn; [|done].
  by rewrite cleanup_idemp.
Qed.

End codec.

(** The codec on the libraries modelled above, with the secret the server
    falls back to. *)
Definition bound_payload : TokenPayload :=
  {| roomId := "r1"; peerId := "p1"; sessionId := Some "s1"; jti := "j7";
     iat := 1000; exp := 1060 |}.

Definition bound_opts : Opts :=
  {| consumeJti := false; expectedRoomId := Some "r1"; expectedPeerId := Some "p1";
     expectedSessionId := Some "s1"; nowSec := Some 1005 |}.

Lemma verifyToken_bad_format_witness :
  verify "abc" no_opts 0 ∅ = (Throw "bad_format", ∅) ∧
  verify "a.b.c" no_opts 0 ∅ = (Throw "bad_format", ∅).
Proof.
  split; apply (verifyToken_bad_format dev_secret Sha256.hmac Json.parse); by vm_compute.
Defined.

Lemma accepted_is_signed_witness :
  ∃ payloadB64 sigB64,
    list_ascii_of_string (sign scenario_payload) = payloadB64 ++ ("."%char :: sigB64) ∧
    count_occ ascii_dec (list_ascii_of_string (sign scenario_payload)) "."%char = 1%nat ∧
    base64urlDecodeToBuffer sigB64
    = Sha256.hmac (list_ascii_of_string dev_secret) payloadB64 ∧
    Json.parse (string_of_list_ascii (base64urlDecodeToBuffer payloadB64))
    = Ok (payload_json scenario_payload) ∧
    (∃ r p j, prop (Some (payload_json scenario_payload)) "roomId" = Some (JStr r) ∧ r ≠ "" ∧
              prop (Some (payload_json scenario_payload)) "peerId" = Some (JStr p) ∧ p ≠ "" ∧
              prop (Some (payload_json scenario_payload)) "jti" = Some (JStr j) ∧ j ≠ "") ∧
    (∃ i e, prop (Some (payload_json scenario_payload)) "iat" = Some (JNum i) ∧ i ≠ 0 ∧
            prop (Some (payload_json scenario_payload)) "exp" = Some (JNum e) ∧ e ≠ 0).
Proof.
  refine (accepted_is_signed dev_secret Sha256.hmac Json.parse (sign scenario_payload)
            (at_time 1005 true) 0 ∅ (payload_json scenario_payload) {["j1" := 1060]} _).
  vm_compute. reflexivity.
Defined.

Lemma refused_records_nothing_witness :
  ((∀ j x, ({["j9" := 5000]} : gmap string Z) !! j = Some x
           → ({["j9" := 5000]} : gmap string Z) !! j = Some x) ∧
   ("expired" = "replayed" ∨ ({["j9" := 5000]} : gmap string Z) = {["j9" := 5000]})) ∧
  ((∀ j x, cleanupUsedJti 1005 {["j1" := 1060; "j0" := 1001]} !! j = Some x
           → ({["j1" := 1060; "j0" := 1001]} : gmap string Z) !! j = Some x) ∧
   ("replayed" = "replayed"
    ∨ cleanupUsedJti 1005 {["j1" := 1060; "j0" := 1001]} = {["j1" := 1060; "j0" := 1001]})).
Proof.
  split.
  - refine (refused_records_nothing dev_secret Sha256.hmac Json.parse (sign scenario_payload)
              (at_time 2000 true) 0 {["j9" := 5000]} "expired" {["j9" := 5000]} _).
    vm_compute. reflexivity.
  - refine (refused_records_nothing dev_secret Sha256.hmac Json.parse (sign scenario_payload)
              (at_time 1005 true) 0 {["j1" := 1060; "j0" := 1001]} "replayed"
              (cleanupUsedJti 1005 {["j1" := 1060; "j0" := 1001]}) _).
    vm_compute. reflexivity.
Defined.

Lemma accepted_table_future_witness :
  map_Forall (λ _ x, 1005 < x) (<["j1" := 1060]> (cleanupUsedJti 1005 {["j0" := 1001; "j9" := 5000]})).
Proof.
  refine (accepted_table_future dev_secret Sha256.hmac Json.parse (sign scenario_payload)
            (at_time 1005 true) 0 {["j0" := 1001; "j9" := 5000]}
            (payload_json scenario_payload) _ _).
  vm_compute. reflexivity.
Defined.

Lemma accepted_is_bound_witness :
  (∀ r, Some "r1" = Some r → r ≠ "" →
        prop (Some (payload_json bound_payload)) "roomId" = Some (JStr r)) ∧
  (∀ p, Some "p1" = Some p → p ≠ "" →
        prop (Some (payload_json bound_payload)) "peerId" = Some (JStr p)) ∧
  (∀ x, Some "s1" = Some x → x ≠ "" →
        prop (Some (payload_json bound_payload)) "sessionId" = Some (JStr x)).
Proof.
  refine (accepted_is_bound dev_secret Sha256.hmac Json.parse (sign bound_payload)
            bound_opts 0 ∅ (payload_json bound_payload) ∅ _).
  vm_compute. reflexivity.
Defined.

Lemma expired_jti_reusable_witness :
  verify (sign scenario_payload) (at_time 1005 true) 0 {["j1" := 1001]}
  = (Ok (payload_json scenario_payload),
     <["j1" := 1060]> (cleanupUsedJti 1005 {["j1" := 1001]})).
Proof.
  refine (expired_jti_reusable dev_secret Sha256.hmac Json.parse (sign scenario_payload)
            (at_time 1005 true) 0 {["j1" := 1001]} (payload_json scenario_payload) 1001
            eq_refl _ _ _).
  - vm_compute. reflexivity.
  - vm_compute. reflexivity.
  - vm_compute. congruence.
Defined.

Lemma verify_without_consume_witness :
  (verify (sign scenario_payload) (at_time 1005 false) 0 {["j1" := 1060]}).1
  = (verify (sign scenario_payload) (at_time 1005 false) 0 ∅).1 ∧
  verify (sign scenario_payload) (at_time 1005 false) 0
    (verify (sign scenario_payload) (at_time 1005 false) 0 {["j1" := 1060]}).2
  = verify (sign scenario_payload) (at_time 1005 false) 0 {["j1" := 1060]}.
Proof.
  exact (verify_without_consume dev_secret Sha256.hmac Json.parse (sign scenario_payload)
           (at_time 1005 false) 0 {["j1" := 1060]} ∅ eq_refl).
Defined.

End Codec.

(** ** mkToken.cjs against token.ts *)

Module MkTokenSpec.
Import Base64 Token MkToken.

Section script.

Variable SECRET : string.
Variable createHmac_sha256 : list ascii → list ascii → Buffer.
Variable JSON_stringify : json → string.
Variable JSON_parse : string → Res json.

(** X10: the token that mkToken.cjs prints is refused by [verifyToken]
    with [no_peerId] even under the very secret it was signed with, at
    any time and with any options: its payload carries [roomId] and [exp]
    alone. The jti table stays as it was. *)
Theorem script_token_refused (clock_ms : Z) (opts : Opts) (clock : Z) (used : gmap string Z) :
  JSON_parse (JSON_stringify (payload clock_ms)) = Ok (payload clock_ms) →
  verifyToken SECRET createHmac_sha256 JSON_parse
    (token SECRET createHmac_sha256 JSON_stringify clock_ms) opts clock used
  = (Throw "no_peerId", used).
Proof.
  intros Hlaw. unfold verifyToken, validate, token.
  change b64u with base64urlEncode.
  rewrite list_ascii_of_string_of_list_ascii.
  rewrite (split_sep SECRET createHmac_sha256 JSON_parse) by apply base64urlEncode_no_dot.
  rewrite !base64url_roundtrip, Nat.eqb_refl, bool_decide_eq_true_2 by done.
  cbn [negb]. rewrite string_of_list_ascii_of_string. by rewrite Hlaw.
Qed.

End script.

Lemma script_token_refused_witness :
  verifyToken default_secret Sha256.hmac Json.parse
    (token default_secret Sha256.hmac Json.stringify 1700000000123)
    (at_time 1700000001 true) 0 ∅
  = (Throw "no_peerId", ∅).
Proof.
  refine (script_token_refused default_secret Sha256.hmac Json.stringify Json.parse
            1700000000123 (at_time 1700000001 true) 0 ∅ _).
  vm_compute. reflexivity.
Defined.

End MkTokenSpec.

(** ** Weakest preconditions of handlers

    [wp m Q E s]: run from the state [s], [m] only adds to what was sent;
    when it returns [a] in the state [s'] having sent [evs], [Q a s' evs]
    holds, and when it throws [e], [E e s' evs] holds. *)

Module Wp.

Definition wp {A} (m : M A) (Q : A → State → list Output → Prop)
    (E : string → State → list Output → Prop) (s : State) : Prop :=
  ∀ out, ∃ evs,
    (m (s, out)).2.2 = out ++ evs ∧
    match (m (s, out)).1 with
    | Ok a => Q a (m (s, out)).2.1 evs
    | Throw e => E e (m (s, out)).2.1 evs
    end.

Section rules.
Context {A : Type} (Q : A → State → list Output → Prop)
        (E : string → State → list Output → Prop) (s : State).

Lemma wp_ret a : Q a s [] → wp (ret a) Q E s.
Proof. intros H out. exists []. by rewrite app_nil_r. Qed.

Lemma wp_throw e : E e s [] → wp (@throw A e) Q E s.
Proof. intros H out. exists []. by rewrite app_nil_r. Qed.

Lemma wp_of_res (r : Res A) :
  match r with Ok a => Q a s [] | Throw e => E e s [] end → wp (of_res r) Q E s.
Proof. intros H out. exists []. rewrite app_nil_r. by destruct r. Qed.

Lemma wp_lift (f : State → Res A * State) :
  match f s with (Ok a, s') => Q a s' [] | (Throw e, s') => E e s' [] end →
  wp (lift f) Q E s.
Proof.
  intros H out. exists []. unfold lift. cbn. rewrite app_nil_r.
  by destruct (f s) as [[] ?].
Qed.

Lemma wp_gets (f : State → A) : Q (f s) s [] → wp (gets f) Q E s.
Proof. intros H. by apply wp_lift. Qed.

Lemma wp_bind {B} (m : M B) (f : B → M A) :
  wp m (λ b s' evs, wp (f b) (λ a s'' evs', Q a s'' (evs ++ evs'))
                             (λ e s'' evs', E e s'' (evs ++ evs')) s')
       E s →
  wp (bind m f) Q E s.
Proof.
  intros H out. unfold bind. destruct (H out) as (evs & He & Hm).
  destruct (m (s, out)) as [[b|e] [s' out']]; cbn in *; subst out'.
  - destruct (Hm (out ++ evs)) as (evs' & He' & Hf).
    exists (evs ++ evs'). by rewrite He', app_assoc.
  - by exists evs.
Qed.

Lemma wp_mono (m : M A) (Q' : A → State → list Output → Prop)
    (E' : string → State → list Output → Prop) :
  wp m Q' E' s →
  (∀ a s' evs, Q' a s' evs → Q a s' evs) →
  (∀ e s' evs, E' e s' evs → E e s' evs) →
  wp m Q E s.
Proof.
  intros H HQ HE out. destruct (H out) as (evs & He & Hm). exists evs.
  split; [done|]. destruct (m (s, out)).1; auto.
Qed.

End rules.

Section unit_rules.
Context (Q : unit → State → list Output → Prop)
        (E : string → State → list Output → Prop) (s : State).

Lemma wp_modify (f : State → State) : Q tt (f s) [] → wp (modify f) Q E s.
Proof. intros H. by apply wp_lift. Qed.

Lemma wp_emit o : Q tt s [o] → wp (emit o) Q E s.
Proof. intros H out. by exists [o]. Qed.

Lemma wp_try (m : M unit) :
  wp m (λ _ s' evs, Q tt s' evs) (λ _ s' evs, Q tt s' evs) s → wp (try_ m) Q E s.
Proof.
  intros H out. unfold try_. destruct (H out) as (evs & He & Hm).
  exists evs. by destruct (m (s, out)) as [[[]|e] [s' out']].
Qed.

Lemma wp_when (b : bool) (m : M unit) :
  (if b then wp m Q E s else Q tt s []) → wp (when b m) Q E s.
Proof. destruct b; [done|]. apply wp_ret. Qed.

Lemma wp_broadcastRoom roomId msg excludePeerId :
  Q tt s (map (λ ws, Send ws msg)
              (from_option (λ r, recipients s r excludePeerId) []
                           (JsMap.get (rooms s) roomId))) →
  wp (broadcastRoom roomId msg excludePeerId) Q E s.
Proof. intros H out. rewrite broadcastRoom_run. by eexists. Qed.

End unit_rules.

(** A loop, with what holds before each of its rounds: [I l s evs] when
    [l] is still to do, the state is [s] and [evs] was sent so far. *)
Section loop.
Context {A : Type} (I : list A → State → list Output → Prop) (f : A → M unit)
        (Q : unit → State → list Output → Prop)
        (E : string → State → list Output → Prop).
Hypothesis round : ∀ x l' s0 evs0, I (x :: l') s0 evs0 →
  wp (f x) (λ _ s1 evs1, I l' s1 (evs0 ++ evs1)) (λ e s1 evs1, E e s1 (evs0 ++ evs1)) s0.
Hypothesis finish : ∀ s' evs, I [] s' evs → Q tt s' evs.

Lemma wp_forM_from l s evs0 :
  I l s evs0 →
  wp (forM l f) (λ _ s' evs, Q tt s' (evs0 ++ evs)) (λ e s' evs, E e s' (evs0 ++ evs)) s.
Proof.
  revert s evs0. induction l as [|x l IH]; intros s evs0 HI; cbn [forM].
  - apply wp_ret. rewrite app_nil_r. by apply finish.
  - apply wp_bind. eapply wp_mono; [by apply round| |].
    + intros [] s1 evs1 H1. cbn beta. eapply wp_mono; [by apply IH| |];
        intros; cbn beta in *; by rewrite app_assoc.
    + done.
Qed.

Lemma wp_forM l s : I l s [] → wp (forM l f) Q E s.
Proof. intros HI. eapply wp_mono; [by apply (wp_forM_from l s [])|by intros []|done]. Qed.

End loop.

(** What [m] gives on a run. *)
Lemma wp_run {A} (m : M A) Q E s out :
  wp m Q E s →
  ∃ evs, (m (s, out)).2.2 = out ++ evs ∧
         match (m (s, out)).1 with
         | Ok a => Q a (m (s, out)).2.1 evs
         | Throw e => E e (m (s, out)).2.1 evs
         end.
Proof. intros H. apply H. Qed.

(** Projections of an updated state. *)
Ltac wp_simpl :=
  cbv beta;
  cbn [rooms sessions heap usedJti timers next_timer sockets next_ws open_transports
       with_rooms with_sessions with_heap with_usedJti with_timers with_sockets
       with_transports fst snd from_option app].

(** One step along the handler. *)
Ltac wp_step :=
  lazymatch goal with
  | |- wp (bind _ _) _ _ _ => apply wp_bind
  | |- wp (ret _) _ _ _ => apply wp_ret
  | |- wp (throw _) _ _ _ => apply wp_throw
  | |- wp (of_res _) _ _ _ => apply wp_of_res
  | |- wp (gets _) _ _ _ => apply wp_gets
  | |- wp (modify _) _ _ _ => apply wp_modify
  | |- wp (lift _) _ _ _ => apply wp_lift
  | |- wp (emit _) _ _ _ => apply wp_emit
  | |- wp (try_ _) _ _ _ => apply wp_try
  | |- wp (when _ _) _ _ _ => apply wp_when
  | |- wp (broadcastRoom _ _ _) _ _ _ => apply wp_broadcastRoom
  | |- wp (broadcastPeerJoined _ _) _ _ _ => unfold broadcastPeerJoined; apply wp_broadcastRoom
  | |- wp (broadcastPeerLeft _ _) _ _ _ => unfold broadcastPeerLeft; apply wp_broadcastRoom
  | |- wp (peer _) _ _ _ => unfold peer; apply wp_gets
  | |- wp (room _) _ _ _ => unfold room; apply wp_gets
  | |- wp (set_peer _ _) _ _ _ => unfold set_peer; apply wp_modify
  | |- wp (set_room _ _) _ _ _ => unfold set_room; apply wp_modify
  | |- wp (alloc _) _ _ _ => unfold alloc; apply wp_lift
  | |- wp (send_ _ _) _ _ _ => unfold send_; apply wp_emit
  | |- wp (Gated.ok _ _ _) _ _ _ => unfold Gated.ok, send_; apply wp_emit
  | |- wp (Gated.fail _ _ _) _ _ _ => unfold Gated.fail, send_; apply wp_emit
  end; wp_simpl.

Ltac wp_steps := repeat wp_step.

End Wp.

(** ** The token-gated server: requests *)

Module Requests.
Import Gated Dispatch.

(** *** Requests that name no live session *)

Definition refusal (ws : Ws) (requestId : jsval) (e : string) : Output :=
  Send (ws_id ws) (response requestId false (Some (obj [("error", Some (JStr e))]))).

(** X11: a request of a type other than [join], [resumeSession],
    [listProducers] and [getRoomProducers] (a type the server does not
    know included) whose [payload.sessionId] is missing, blank or names no
    session is answered with the failure
    [invalid sessionId (peer not found)] and changes nothing. *)
Theorem unknown_session_refused ws type requestId payload o s out :
  is_str type "resumeSession" = false → is_str type "join" = false →
  is_str type "listProducers" = false → is_str type "getRoomProducers" = false →
  field payload "sessionId" = "" ∨ JsMap.get (sessions s) (field payload "sessionId") = None →
  onMessage ws type requestId payload o (s, out)
  = (Ok tt, (s, out ++ [refusal ws requestId "invalid sessionId (peer not found)"])).
Proof.
  intros H1 H2 H3 H4 Hs. unfold onMessage, handler. rewrite H1, H2, H3, H4. cbn [orb].
  unfold locate. gred.
  destruct Hs as [-> | Hs]; [done|].
  rewrite Hs. by destruct (_ =? _)%string.
Qed.

(** *** Requests that only read *)

Definition reads_only : list string :=
  ["listProducers"; "getRoomProducers"; "connectTransport"; "pauseProducer";
   "resumeProducer"; "pauseConsumer"; "resumeConsumer"].

Lemma onMessage_preserves (I : State → Prop) ws type requestId payload o :
  preserves I (handler ws type requestId payload o) →
  preserves I (onMessage ws type requestId payload o).
Proof.
  intros H w Hw. unfold onMessage. specialize (H w Hw).
  destruct (handler _ _ _ _ _ w) as [[] w']; [done|].
  by apply (preserves_emit I).
Qed.

(** X12: [listProducers], [getRoomProducers], [connectTransport],
    [pauseProducer], [resumeProducer], [pauseConsumer] and
    [resumeConsumer] leave the server's state as it is, whether they are
    answered with success or with a failure. *)
Theorem reading_requests_change_nothing ws type requestId payload o s out :
  type ∈ (λ t, Some (JStr t)) <$> reads_only →
  (onMessage ws type requestId payload o (s, out)).2.1 = s.
Proof.
  intros Ht.
  assert (preserves (λ s', s' = s) (onMessage ws type requestId payload o)) as H.
  { apply onMessage_preserves. unfold reads_only in Ht.
    repeat (apply elem_of_cons in Ht as [->|Ht]); [..|by apply elem_of_nil in Ht];
      unfold handler; cbn [is_str String.eqb Ascii.eqb Bool.eqb orb];
      mpres ltac:(cbn; done). }
  by apply (H (s, out)).
Qed.

Lemma unknown_session_refused_witness :
  onMessage Cases.p1 (Some (JStr "produce")) (Some (JNum 1)) None Cases.nothing
    (Cases.admitted, [])
  = (Ok tt, (Cases.admitted,
             [] ++ [refusal Cases.p1 (Some (JNum 1)) "invalid sessionId (peer not found)"])).
Proof. apply unknown_session_refused; try reflexivity. left. reflexivity. Defined.

Lemma reading_requests_change_nothing_witness :
  (onMessage Cases.p1 (Some (JStr "pauseProducer")) (Some (JNum 1))
     (Some (JObj [("sessionId", JStr "s1"); ("producerId", JStr "P")])) Cases.nothing
     (Scenario.produced, [])).2.1
  = Scenario.produced.
Proof.
  apply reading_requests_change_nothing. cbn.
  do 3 (apply elem_of_cons; right). apply elem_of_cons. left. reflexivity.
Defined.

End Requests.

(** ** What the token-gated server sends *)

Module Never.
Import Gated Dispatch.

(** *** What the token-gated server never sends *)

Definition message_type (o : Output) : option string :=
  match o with
  | Send _ msg => match prop (Some msg) "type" with Some (JStr t) => Some t | _ => None end
  | Close _ _ _ => None
  end.

(** The types of the messages the token-gated server sends. *)
Definition sent_types : list string :=
  ["welcome"; "response"; "peerJoined"; "peerLeft"; "producerSpeaking"; "producerClosed"].

Definition known (o : Output) : Prop :=
  match o with
  | Send _ _ => ∃ t, message_type o = Some t ∧ t ∈ sent_types
  | Close _ _ _ => True
  end.

Ltac known_tac :=
  first [ exact I
        | eexists; split; [reflexivity|]; unfold sent_types;
          repeat first [ by (apply elem_of_cons; left) | (apply elem_of_cons; right) ] ].

Ltac mknown :=
  repeat first
    [ lazymatch goal with
      | |- emits _ (bind _ _) => apply emits_bind; [|intros]
      | |- emits _ (ret _) => apply emits_ret
      | |- emits _ (throw _) => apply emits_throw
      | |- emits _ (of_res _) => apply emits_of_res
      | |- emits _ (lift _) => apply emits_lift
      | |- emits _ (emit _) => apply emits_emit; known_tac
      | |- emits _ (try_ _) => apply emits_try
      | |- emits _ (when _ _) => apply emits_when; intros ?
      | |- emits _ (forM _ _) => apply emits_forM; intros
      | |- emits _ (from_option _ _ ?o) => destruct o; cbn [from_option]
      | |- emits _ (match ?x with _ => _ end) => destruct x eqn:?
      | |- emits _ ?m => let h := head_of m in progress unfold h
      end ].

Lemma onMessage_emits (P : Output → Prop) ws type requestId payload o :
  emits P (handler ws type requestId payload o) →
  (∀ e, P (Requests.refusal ws requestId e)) →
  emits P (onMessage ws type requestId payload o).
Proof.
  intros H Hf s out. unfold onMessage. destruct (H s out) as (evs & He & HP).
  destruct (handler _ _ _ _ _ (s, out)) as [[[]|e] [s' out']]; cbn in He; subst out'.
  - by exists evs.
  - exists (evs ++ [Requests.refusal ws requestId e]). unfold fail, send_, emit. cbn.
    split; [by rewrite app_assoc|]. apply Forall_app. split; [done|]. by repeat constructor.
Qed.

Section steps.
Context (SECRET : string) (hmac : list ascii → list ascii → Base64.Buffer)
        (parse : string → Res json).

Lemma action_known s ev m : action SECRET hmac parse s ev = Some m → emits known m.
Proof.
  intros Ha. destruct ev; cbn in Ha; simplify_option_eq; repeat case_match; simplify_eq;
    first [ apply onMessage_emits; [|intros; unfold Requests.refusal; known_tac] | idtac ];
    mknown.
Qed.

(** X13: whatever happens, the token-gated server sends only messages of
    the types [welcome], [response], [peerJoined], [peerLeft],
    [producerSpeaking] and [producerClosed]: in particular it never sends
    [newProducer]. *)
Theorem sends_known_types s ev s' evs ws msg :
  step SECRET hmac parse s ev = Some (s', evs) → Send ws msg ∈ evs →
  ∃ t, prop (Some msg) "type" = Some (JStr t) ∧ t ∈ sent_types ∧ t ≠ "newProducer".
Proof.
  unfold step. intros Hstep Hin.
  destruct (action _ _ _ s ev) as [m|] eqn:Ha; [|done]. cbn in Hstep. injection Hstep as Hrun.
  destruct (action_known _ _ _ Ha s []) as (evs' & He & HP).
  rewrite Hrun in He. cbn in He. subst evs'.
  destruct (proj1 (Forall_forall _ _) HP _ Hin) as (t & Ht & Hs).
  exists t. unfold message_type in Ht.
  destruct (prop (Some msg) "type") as [[| | |t'| |]|]; try discriminate.
  injection Ht as ->. split; [done|]. split; [done|].
  intros ->. unfold sent_types in Hs.
  repeat (apply elem_of_cons in Hs as [Hs|Hs]; [done|]). by apply elem_of_nil in Hs.
Qed.

End steps.
Lemma sends_known_types_witness :
  ∃ t, prop (Some (response (Some (JNum 1)) false
                     (Some (obj [("error", Some (JStr "invalid sessionId (peer not found)"))]))))
            "type" = Some (JStr t) ∧
       t ∈ sent_types ∧ t ≠ "newProducer".
Proof.
  apply (sends_known_types Token.dev_secret Sha256.hmac Json.parse Cases.admitted
           (Scenario.request 0 "nope" 1 [] Cases.nothing) Cases.admitted
           [Send 0 (response (Some (JNum 1)) false
                      (Some (obj [("error",
                                   Some (JStr "invalid sessionId (peer not found)"))])))] 0).
  - vm_compute. reflexivity.
  - apply elem_of_cons. left. reflexivity.
Defined.

End Never.

(** ** What the token-gated server asks of the engine *)

Module Engine.
Import Gated.

Lemma get_map {V W} (f : V → W) (m : JsMap.t V) k :
  JsMap.get (map (λ kv, (kv.1, f kv.2)) m) k = f <$> JsMap.get m k.
Proof.
  unfold JsMap.get. induction m as [|[x y] m IH]; cbn; [done|].
  by destruct (String.eqb k x).
Qed.

(** *** The audio level observer *)

(** No room has a producer under its observer. *)
Definition unfed (s : State) : Prop :=
  ∀ k r, JsMap.get (rooms s) k = Some r → Room.observed r = [].

Lemma unfed_set_room s k (f : Room.t → Room.t) :
  (∀ r, Room.observed (f r) = Room.observed r) →
  unfed s →
  unfed (match JsMap.get (rooms s) k with
         | Some r => with_rooms (JsMap.set (rooms s) k (f r)) s
         | None => s
         end).
Proof.
  intros Hf Hs. destruct (JsMap.get (rooms s) k) as [r|] eqn:Hr; [|done].
  intros k' r'. cbn [rooms with_rooms]. rewrite JsMap.get_set.
  destruct (String.eqb k' k); [|by apply Hs].
  intros [= <-]. rewrite Hf. by eapply Hs.
Qed.

Lemma unfed_close s pid :
  unfed s →
  unfed (with_rooms
           (map (λ kv, (kv.1, Room.with_observed
                                 (JsSet.delete (Room.observed kv.2) pid) kv.2))
                (rooms s)) s).
Proof.
  intros Hs k r. cbn [rooms with_rooms].
  rewrite (get_map (λ r, Room.with_observed (JsSet.delete (Room.observed r) pid) r)).
  intros (r0 & Hr & ->)%fmap_Some. cbn. by rewrite (Hs _ _ Hr).
Qed.

Ltac unfed_tac :=
  first
    [ apply unfed_set_room; [by intros|assumption]
    | by apply unfed_close
    | let k := fresh in let r := fresh in
      let H := fresh in
      unfold unfed in *; intros k r;
      cbn [rooms with_rooms with_sessions with_heap with_usedJti with_timers
           with_sockets with_transports snd fst];
      first
        [ by eauto
        | rewrite JsMap.get_set; destruct (String.eqb k _); [by intros [= <-]|by eauto]
        | rewrite JsMap.get_delete; destruct (String.eqb k _); [done|by eauto]
        | repeat case_match; cbn; by eauto ] ].

Section steps.
Context (SECRET : string) (hmac : list ascii → list ascii → Base64.Buffer)
        (parse : string → Res json).

Lemma action_unfed s ev m :
  action SECRET hmac parse s ev = Some m → preserves unfed m.
Proof.
  intros Ha. destruct ev; cbn in Ha; simplify_option_eq; repeat case_match; simplify_eq;
    first [ apply Requests.onMessage_preserves | idtac ];
    mpres unfed_tac.
Qed.

(** X14: the token-gated server never puts a producer under a room's
    audio level observer: in every reachable state the observer of every
    room has no producer to report on. *)
Theorem observer_never_fed s roomId r :
  reachable SECRET hmac parse s →
  JsMap.get (rooms s) roomId = Some r →
  Room.observed r = [].
Proof.
  intros Hreach. revert roomId r. change (unfed s).
  induction Hreach as [|s e s' out _ IH Hstep]; [done|].
  unfold step in Hstep. destruct (action _ _ _ s e) as [m|] eqn:Ha; [|done].
  cbn in Hstep. injection Hstep as Hrun.
  pose proof (action_unfed _ _ _ Ha (s, []) IH) as H. by rewrite Hrun in H.
Qed.

End steps.

(** *** Transports *)

(** X15: a [createTransport] request of the token-gated server closes no
    transport: whatever was open before it is open after it, the
    transport it replaces included. *)
Theorem createTransport_closes_nothing ws requestId payload o s out t :
  t ∈ open_transports s →
  t ∈ open_transports
        (onMessage ws (Some (JStr "createTransport")) requestId payload o (s, out)).2.1.
Proof.
  intros Ht.
  assert (preserves (λ s', t ∈ open_transports s')
            (onMessage ws (Some (JStr "createTransport")) requestId payload o)) as H.
  { apply Requests.onMessage_preserves.
    unfold handler; cbn [is_str String.eqb Ascii.eqb Bool.eqb orb].
    mpres ltac:(cbn; rewrite ?elem_of_app; by auto). }
  by apply (H (s, out)).
Qed.

Lemma observer_never_fed_witness : Room.observed Cases.r1 = [].
Proof.
  apply (observer_never_fed Token.dev_secret Sha256.hmac Json.parse Scenario.produced "r1").
  - apply Scenario.produced_reachable.
  - reflexivity.
Defined.

Lemma createTransport_closes_nothing_witness :
  "T1" ∈ open_transports
           (onMessage Cases.p1 (Some (JStr "createTransport")) (Some (JNum 5))
              (Some (JObj [("sessionId", JStr "s1"); ("direction", JStr "send")]))
              (Scenario.engine "T2" "" "") (Scenario.produced, [])).2.1.
Proof. apply createTransport_closes_nothing. apply elem_of_cons. left. reflexivity. Defined.

End Engine.

(** ** The silence listener *)

Module Speaking.
Import Gated Wp.

(** The room under [roomId] holds [r'], and nothing else differs from
    [s]. *)
Definition room_becomes (s : State) (roomId : string) (r' : Room.t) (s' : State) : Prop :=
  ∃ m, s' = with_rooms m s ∧ JsMap.get m roomId = Some r' ∧
       ∀ k, k ≠ roomId → JsMap.get m k = JsMap.get (rooms s) k.

Lemma room_becomes_refl s roomId r :
  JsMap.get (rooms s) roomId = Some r → room_becomes s roomId r s.
Proof. intros Hr. exists (rooms s). by destruct s. Qed.

Lemma room_becomes_set s roomId r s' r' :
  room_becomes s roomId r s' →
  room_becomes s roomId r' (with_rooms (JsMap.set (rooms s') roomId r') s').
Proof.
  intros (m & -> & Hm & Hk). exists (JsMap.set m roomId r'). cbn. split; [done|].
  rewrite JsMap.get_set, String.eqb_refl. split; [done|].
  intros k Hne. rewrite JsMap.get_set, (proj2 (String.eqb_neq _ _) Hne). by apply Hk.
Qed.

Lemma room_becomes_get s roomId r s' :
  room_becomes s roomId r s' → JsMap.get (rooms s') roomId = Some r.
Proof. by intros (m & -> & Hm & _). Qed.

Lemma room_becomes_recipients s roomId r s' r' ex :
  room_becomes s roomId r s' → Room.peers r' = Room.peers r →
  recipients s' r' ex = recipients s r ex.
Proof. intros (m & -> & _) Hp. unfold recipients, deref. cbn. by rewrite Hp. Qed.

(** What [silence] sends for the producer [pid]. *)
Definition quiet (s : State) (r : Room.t) (pid : string) : list Output :=
  map (λ ws, Send ws (producerSpeaking pid (owner_of (Some r) pid) false None))
      (recipients s r None).



End Speaking.

(** ** The volumes listener *)

Module Volumes.
Import Gated Wp Speaking.

(** What [volumes] sends for one entry of its report. *)
Definition loud (s : State) (r : Room.t) (v : Producer * Z) : list Output :=
  map (λ ws, Send ws (producerSpeaking (producer_id v.1) (owner_of (Some r) (producer_id v.1))
                        true (Some v.2)))
      (recipients s r None).

Definition reported (volumes : list (Producer * Z)) : list string :=
  map (λ v, producer_id v.1) volumes.

(** X17: after a [volumes] report the room's speaking set holds exactly
    the producers the report names, and nothing else changes in the
    state. Each member of the room is sent [producerSpeaking] with
    [speaking: true] and the volume for every entry of the report, and
    then [producerSpeaking] with [speaking: false] for every producer
    that was speaking and is not in the report. *)
Theorem volumes_sets_speaking roomId volumes s out r :
  JsMap.get (rooms s) roomId = Some r →
  ∃ s' sp,
    on_volumes roomId volumes (s, out)
    = (Ok tt,
       (s', out ++ concat (map (loud s r) volumes)
                ++ concat (map (quiet s r)
                             (List.filter (λ pid, negb (bool_decide (pid ∈ reported volumes)))
                                          (Room.speaking r))))) ∧
    room_becomes s roomId (Room.with_speaking sp r) s' ∧
    ∀ pid, pid ∈ sp ↔ pid ∈ reported volumes.
Proof.
  intros Hr. set (active := reported volumes).
  set (gone := List.filter (λ pid, negb (bool_decide (pid ∈ active)))).
  assert (wp (on_volumes roomId volumes)
            (λ _ s' evs,
               evs = concat (map (loud s r) volumes)
                     ++ concat (map (quiet s r) (gone (Room.speaking r))) ∧
               ∃ sp, room_becomes s roomId (Room.with_speaking sp r) s' ∧
                     ∀ pid, pid ∈ sp ↔ pid ∈ active)
            (λ _ _ _, False) s) as H.
  { unfold on_volumes. fold (reported volumes). fold active. wp_step.
    apply (wp_forM (λ l s' evs,
             ∃ done, volumes = done ++ l ∧ evs = concat (map (loud s r) done) ∧ s' = s));
      cycle 2.
    { by exists []. }
    { intros v l' s0 evs0 (done & Hv & -> & ->). wp_steps. rewrite Hr. wp_simpl.
      exists (done ++ [v]). split; [by rewrite <- app_assoc|]. split; [|done].
      rewrite map_app, concat_app. cbn [map concat]. by rewrite app_nil_r. }
    intros s' evs (done & Hv & -> & ->). rewrite app_nil_r in Hv. subst done.
    wp_steps. rewrite Hr. wp_simpl.
    apply (wp_forM (λ l s' evs,
             ∃ sp done, Room.speaking r = done ++ l ∧
               evs = concat (map (quiet s r) (gone done)) ∧
               (∀ x, x ∈ sp → x ∈ Room.speaking r ∧ (x ∈ active ∨ x ∈ l)) ∧
               (∀ x, x ∈ Room.speaking r → x ∈ active → x ∈ sp) ∧
               room_becomes s roomId (Room.with_speaking sp r) s')); cycle 2.
    { exists (Room.speaking r), []. split; [done|]. split; [done|].
      split; [by auto|]. split; [done|]. destruct r. by apply room_becomes_refl. }
    { intros pid l' s0 evs0 (sp & done & Hsp & -> & Hin & Hact & Hs0).
      pose proof (room_becomes_get _ _ _ _ Hs0) as Hget.
      wp_step.
      case_bool_decide as Hpid; cbn [negb]; wp_simpl.
      - exists sp, (done ++ [pid]). unfold gone. rewrite List.filter_app. cbn [List.filter].
        rewrite bool_decide_eq_true_2 by done. cbn [negb].
        rewrite !app_nil_r. split; [by rewrite <- app_assoc|]. split; [done|].
        split; [|done]. intros x Hx. destruct (Hin x Hx) as [? [?|[->|?]%elem_of_cons]]; auto.
      - wp_steps. rewrite Hget. wp_simpl. wp_steps.
        rewrite JsMap.get_set, String.eqb_refl. wp_simpl.
        cbn [Room.speaking Room.with_speaking].
        pose proof (room_becomes_set _ _ _ _ (Room.with_speaking (JsSet.delete sp pid) r) Hs0)
          as Hs1.
        replace (Room.with_speaking (JsSet.delete sp pid) (Room.with_speaking sp r))
          with (Room.with_speaking (JsSet.delete sp pid) r) by done.
        rewrite (room_becomes_recipients _ _ _ _ _ None Hs1) by done.
        exists (JsSet.delete sp pid), (done ++ [pid]).
        split; [by rewrite <- app_assoc|]. split.
        { unfold gone. rewrite List.filter_app. cbn [List.filter].
          rewrite bool_decide_eq_false_2 by done. cbn [negb].
          rewrite map_app, concat_app. cbn [map concat]. by rewrite !app_nil_r. }
        split.
        { intros x [Hx Hne]%JsSet.elem_of_delete.
          destruct (Hin x Hx) as [? [?|[->|?]%elem_of_cons]]; auto. done. }
        split; [|done].
        intros x Hx Ha. apply JsSet.elem_of_delete. split; [by apply Hact|].
        by intros ->. }
    intros s' evs (sp & done & Hsp & -> & Hin & Hact & Hs'). rewrite app_nil_r in Hsp.
    subst done.
    apply (wp_forM (λ l s'' evs,
             ∃ sp' done, active = done ++ l ∧ evs = [] ∧
               (∀ x, x ∈ sp' ↔ x ∈ sp ∨ x ∈ done) ∧
               room_becomes s roomId (Room.with_speaking sp' r) s'')); cycle 2.
    { exists sp, []. split; [done|]. split; [done|]. split; [|done].
      intros x. split; [by left|]. intros [?|?%elem_of_nil]; done. }
    { intros pid l' s0 evs0 (sp' & done & Hdone & -> & Hsp' & Hs0).
      pose proof (room_becomes_get _ _ _ _ Hs0) as Hget.
      wp_steps. rewrite Hget. wp_simpl. cbn [Room.speaking Room.with_speaking].
      replace (Room.with_speaking (JsSet.add sp' pid) (Room.with_speaking sp' r))
        with (Room.with_speaking (JsSet.add sp' pid) r) by done.
      exists (JsSet.add sp' pid), (done ++ [pid]).
      split; [by rewrite <- app_assoc|]. split; [done|]. split.
      - intros x. rewrite JsSet.elem_of_add, Hsp', elem_of_app, list_elem_of_singleton. tauto.
      - by apply (room_becomes_set _ _ _ _ _ Hs0). }
    intros s'' evs' (sp' & done & Hdone & -> & Hsp' & Hs''). rewrite app_nil_r in Hdone.
    subst done. rewrite !app_nil_r. split; [done|]. exists sp'. split; [done|].
    intros x. rewrite Hsp'. split; [|by right].
    intros [Hx|?]; [|done]. destruct (Hin x Hx) as [_ [?|?%elem_of_nil]]; done. }
  destruct (wp_run _ _ _ s out H) as (evs & He & Hm).
  destruct (on_volumes roomId volumes (s, out)) as [[[]|e] [s' out']]; cbn in *; [|done].
  destruct Hm as [-> (sp & Hs' & Hsp)]. exists s', sp. subst out'.
  by rewrite app_assoc.
Qed.

Lemma volumes_sets_speaking_witness :
  ∃ s' sp,
    on_volumes "r1" [({| producer_id := "P"; producer_kind := "audio" |}, -40)]
      (Scenario.produced, [])
    = (Ok tt,
       (s', [] ++ concat (map (loud Scenario.produced Cases.r1)
                            [({| producer_id := "P"; producer_kind := "audio" |}, -40)])
               ++ concat (map (Speaking.quiet Scenario.produced Cases.r1)
                            (List.filter
                               (λ pid, negb (bool_decide
                                  (pid ∈ reported
                                     [({| producer_id := "P"; producer_kind := "audio" |},
                                       -40)])))
                               (Room.speaking Cases.r1))))) ∧
    Speaking.room_becomes Scenario.produced "r1" (Room.with_speaking sp Cases.r1) s' ∧
    ∀ pid, pid ∈ sp ↔ pid ∈ reported [({| producer_id := "P"; producer_kind := "audio" |}, -40)].
Proof. apply volumes_sets_speaking. reflexivity. Defined.

End Volumes.

(** ** The shape of the state: who is where *)

Module Shape.
Import Gated Wp.

(** *** [trim] *)

Definition tidy (l : list ascii) : Prop :=
  match l with [] => True | c :: _ => is_space c = false end.

Lemma trim_start_tidy l : tidy (trim_start l).
Proof.
  induction l as [|c l IH]; [done|]. cbn [trim_start].
  by destruct (is_space c) eqn:E.
Qed.

Lemma trim_start_id l : tidy l → trim_start l = l.
Proof. destruct l as [|c l]; [done|]. cbn. by intros ->. Qed.

Lemma trim_start_suffix l : ∃ pre, l = pre ++ trim_start l.
Proof.
  induction l as [|c l [pre IH]]; [by exists []|]. cbn [trim_start].
  destruct (is_space c); [|by exists []].
  exists (c :: pre). cbn. by rewrite <- IH.
Qed.

Lemma trim_idemp s : trim (trim s) = trim s.
Proof.
  unfold trim. rewrite list_ascii_of_string_of_list_ascii.
  set (l1 := trim_start (list_ascii_of_string s)).
  set (l2 := trim_start (rev l1)).
  assert (tidy (rev l2)) as Hr.
  { destruct (trim_start_suffix (rev l1)) as [pre Hp]. fold l2 in Hp.
    assert (l1 = rev l2 ++ rev pre) as Hl.
    { by rewrite <- rev_app_distr, <- Hp, rev_involutive. }
    pose proof (trim_start_tidy (list_ascii_of_string s)) as H1. fold l1 in H1.
    rewrite Hl in H1. by destruct (rev l2). }
  rewrite (trim_start_id _ Hr), rev_involutive.
  by rewrite (trim_start_id l2) by apply trim_start_tidy.
Qed.

(** *** Maps as lists of entries *)

Lemma get_elem {V} (m : JsMap.t V) k v : JsMap.get m k = Some v → (k, v) ∈ m.
Proof.
  unfold JsMap.get. induction m as [|[x y] m IH]; cbn; [done|].
  destruct (String.eqb_spec k x) as [->|]; [intros [= ->]; by left|].
  intros H. right. by apply IH.
Qed.

Lemma elem_set {V} (m : JsMap.t V) k v kv :
  kv ∈ JsMap.set m k v → kv = (k, v) ∨ kv ∈ m.
Proof.
  induction m as [|[x y] m IH]; cbn.
  - intros ?%list_elem_of_singleton. by left.
  - destruct (String.eqb k x).
    + intros [->|?]%elem_of_cons; [by left|right; by right].
    + intros [->|?]%elem_of_cons; [right; by left|].
      destruct IH as [?|?]; [done|by left|right; by right].
Qed.

Lemma elem_delete {V} (m : JsMap.t V) k kv : kv ∈ JsMap.delete m k → kv ∈ m ∧ kv.1 ≠ k.
Proof.
  induction m as [|[x y] m IH]; cbn; [by intros ?%elem_of_nil|].
  destruct (String.eqb_spec k x) as [->|Hne].
  - intros [? ?]%IH. split; [by right|done].
  - intros [->|[? ?]%IH]%elem_of_cons; [split; [by left|by cbn]|split; [by right|done]].
Qed.

Lemma elem_values {V} (m : JsMap.t V) v : v ∈ JsMap.values m → ∃ k, (k, v) ∈ m.
Proof.
  unfold JsMap.values. intros ([k v'] & -> & H)%list_elem_of_fmap. by exists k.
Qed.

Lemma get_None_elem {V} (m : JsMap.t V) k v : JsMap.get m k = None → (k, v) ∉ m.
Proof.
  unfold JsMap.get. induction m as [|[x y] m IH]; cbn; [by intros _ ?%elem_of_nil|].
  destruct (String.eqb_spec k x) as [->|Hne]; [done|].
  intros H [[= -> ->]|?]%elem_of_cons; [done|]. by apply IH.
Qed.

(** *** What the control of the server reads *)

Definition shape (c : Client.t) :=
  (Client.sessionId c, Client.peerId c, Client.ws c, Client.roomId c, Client.cleanupTimer c).

Definition room_shape (r : Room.t) := (Room.id r, Room.peers r).

Record same_shape (s s' : State) : Prop := {
  sh_sessions : sessions s' = sessions s;
  sh_timers : timers s' = timers s;
  sh_sockets : sockets s' = sockets s;
  sh_next_ws : next_ws s' = next_ws s;
  sh_heap : shape <$> heap s' = shape <$> heap s;
  sh_rooms : ∀ k, room_shape <$> JsMap.get (rooms s') k = room_shape <$> JsMap.get (rooms s) k;
}.

Lemma same_shape_refl s : same_shape s s.
Proof. by constructor. Qed.

Lemma same_shape_trans s1 s2 s3 : same_shape s1 s2 → same_shape s2 s3 → same_shape s1 s3.
Proof.
  intros [] []. constructor; congruence.
Qed.

Lemma shape_length s s' : same_shape s s' → length (heap s') = length (heap s).
Proof. intros H. by rewrite <- (length_fmap shape), (sh_heap _ _ H), length_fmap. Qed.

Lemma shape_deref s s' a : same_shape s s' → shape (deref s' a) = shape (deref s a).
Proof.
  intros H. unfold deref.
  assert (shape <$> (heap s' !! a) = shape <$> (heap s !! a)) as E.
  { rewrite <- !list_lookup_fmap. by rewrite (sh_heap _ _ H). }
  destruct (heap s' !! a) as [c|], (heap s !! a) as [c'|]; simpl in E;
    [|discriminate|discriminate|reflexivity].
  injection E as ? ? ? ? ?. cbn. unfold shape. congruence.
Qed.

Lemma shape_heap s a (f : Client.t → Client.t) :
  (∀ c, shape (f c) = shape c) → same_shape s (with_heap (alter f a (heap s)) s).
Proof.
  intros Hf. constructor; try done. cbn.
  apply list_eq. intros i. rewrite !list_lookup_fmap.
  destruct (decide (i = a)) as [->|Hne].
  - rewrite list_lookup_alter_eq. destruct (heap s !! a); cbn; [|done]. by rewrite Hf.
  - by rewrite list_lookup_alter_ne.
Qed.

Lemma shape_room s k (f : Room.t → Room.t) :
  (∀ r, room_shape (f r) = room_shape r) →
  same_shape s (match JsMap.get (rooms s) k with
                | Some r => with_rooms (JsMap.set (rooms s) k (f r)) s
                | None => s
                end).
Proof.
  intros Hf. destruct (JsMap.get (rooms s) k) as [r|] eqn:Hr; [|apply same_shape_refl].
  constructor; try done. intros k'. cbn. rewrite JsMap.get_set.
  destruct (String.eqb_spec k' k) as [->|]; [|done]. rewrite Hr. cbn. by rewrite Hf.
Qed.

Lemma shape_close s pid :
  same_shape s (with_rooms
                  (map (λ kv, (kv.1, Room.with_observed
                                        (JsSet.delete (Room.observed kv.2) pid) kv.2))
                       (rooms s)) s).
Proof.
  constructor; try done. intros k. cbn.
  rewrite (Engine.get_map (λ r, Room.with_observed (JsSet.delete (Room.observed r) pid) r)).
  by destruct (JsMap.get (rooms s) k).
Qed.

(** The obligations of the writes that leave the shape alone. *)
Ltac shape_tac :=
  eapply same_shape_trans; [eassumption|];
  first
    [ apply shape_heap; by intros []
    | apply shape_room; by intros []
    | apply shape_close
    | by constructor ].

End Shape.

(** ** What holds of the maps between two events *)

Module Wf.
Import Gated Wp Shape.

Lemma shape_fields s s' a :
  same_shape s s' →
  Client.sessionId (deref s' a) = Client.sessionId (deref s a) ∧
  Client.peerId (deref s' a) = Client.peerId (deref s a) ∧
  Client.ws (deref s' a) = Client.ws (deref s a) ∧
  Client.roomId (deref s' a) = Client.roomId (deref s a) ∧
  Client.cleanupTimer (deref s' a) = Client.cleanupTimer (deref s a).
Proof. intros H. pose proof (shape_deref _ _ a H) as E. by injection E. Qed.

Lemma shape_room_get s s' k r' :
  same_shape s s' → JsMap.get (rooms s') k = Some r' →
  ∃ r, JsMap.get (rooms s) k = Some r ∧ Room.id r = Room.id r' ∧ Room.peers r = Room.peers r'.
Proof.
  intros H Hr. pose proof (sh_rooms _ _ H k) as E. rewrite Hr in E.
  destruct (JsMap.get (rooms s) k) as [r|]; [|done].
  exists r. split; [done|]. by injection E.
Qed.

(** A socket that the handshake admitted. *)
Definition authed (w : Ws) : Prop :=
  trim (_tokenRoomId w) ≠ "" ∧ trim (_tokenPeerId w) ≠ "".

(** No pending timer is for the peer at [a]. *)
Definition no_timer (s : State) (a : Addr) : Prop := ∀ t, (t, a) ∉ timers s.

(** The peer at [a] is in no room's peer map. *)
Definition not_member (s : State) (a : Addr) : Prop :=
  ∀ k r pk, JsMap.get (rooms s) k = Some r → JsMap.get (Room.peers r) pk ≠ Some a.

(** What holds of the maps between the handlers. *)
Record wf0 (s : State) : Prop := {
  wf_sessions : ∀ sid a, (sid, a) ∈ sessions s →
    (a < length (heap s))%nat ∧ Client.sessionId (deref s a) = sid;
  wf_sessions_inj : ∀ sid a a', (sid, a) ∈ sessions s → (sid, a') ∈ sessions s → a = a';
  wf_rooms : ∀ k r, JsMap.get (rooms s) k = Some r → Room.id r = k ∧ k ≠ "";
  wf_members : ∀ k r pk a,
    JsMap.get (rooms s) k = Some r → JsMap.get (Room.peers r) pk = Some a →
    (a < length (heap s))%nat ∧ Client.peerId (deref s a) = pk ∧
    Client.roomId (deref s a) = Some k;
  wf_timers : ∀ t a, (t, a) ∈ timers s →
    Client.cleanupTimer (deref s a) = Some t ∧
    (Client.sessionId (deref s a), a) ∈ sessions s ∧
    Client.ws (deref s a) ∉ ws_id <$> sockets s;
  wf_sockets : ∀ w, w ∈ sockets s → (ws_id w < next_ws s)%nat ∧ authed w;
  wf_ws : ∀ a, (a < length (heap s))%nat → (Client.ws (deref s a) < next_ws s)%nat;
}.

(** Every room but [but] has a member. *)
Definition full (but : option string) (s : State) : Prop :=
  ∀ k r, JsMap.get (rooms s) k = Some r → Some k ≠ but → Room.peers r ≠ [].

Definition wf (s : State) : Prop := wf0 s ∧ full None s.

Lemma wf0_shape s s' : same_shape s s' → wf0 s → wf0 s'.
Proof.
  intros H [H1 H2 H3 H4 H5 H6 H7].
  pose proof (shape_length _ _ H) as Hl.
  destruct H as [Es Et Ek En Eh Er].
  assert (H : same_shape s s') by by constructor.
  constructor.
  - intros sid a. rewrite Es, Hl. destruct (shape_fields _ _ a H) as (-> & _). apply H1.
  - rewrite Es. apply H2.
  - intros k r' Hr'. destruct (shape_room_get _ _ _ _ H Hr') as (r & Hr & <- & _). eauto.
  - intros k r' pk a Hr'. destruct (shape_room_get _ _ _ _ H Hr') as (r & Hr & _ & <-).
    rewrite Hl. destruct (shape_fields _ _ a H) as (_ & -> & _ & -> & _). eauto.
  - intros t a. rewrite Et, Es, Ek.
    destruct (shape_fields _ _ a H) as (-> & _ & -> & _ & ->). apply H5.
  - intros w. rewrite Ek, En. apply H6.
  - intros a. rewrite Hl, En. destruct (shape_fields _ _ a H) as (_ & _ & -> & _). apply H7.
Qed.

Lemma full_shape but s s' : same_shape s s' → full but s → full but s'.
Proof.
  intros H Hf k r' Hr'. destruct (shape_room_get _ _ _ _ H Hr') as (r & Hr & _ & <-). eauto.
Qed.

Lemma no_timer_shape s s' a : same_shape s s' → no_timer s a → no_timer s' a.
Proof. intros H Hn t. rewrite (sh_timers _ _ H). apply Hn. Qed.

Lemma not_member_shape s s' a : same_shape s s' → not_member s a → not_member s' a.
Proof.
  intros H Hn k r' pk Hr'. destruct (shape_room_get _ _ _ _ H Hr') as (r & Hr & _ & <-). eauto.
Qed.

End Wf.

(** ** The writes that keep it *)

Module Updates.
Import Gated Wp Shape Wf.

(** *** Reading a peer after a write to the heap *)

Lemma deref_alter_ne s a a' f :
  a' ≠ a → deref (with_heap (alter f a (heap s)) s) a' = deref s a'.
Proof. intros Hne. unfold deref. cbn. by rewrite list_lookup_alter_ne. Qed.

Lemma deref_alter_eq s a f :
  (a < length (heap s))%nat → deref (with_heap (alter f a (heap s)) s) a = f (deref s a).
Proof.
  intros Ha. unfold deref, Addr in *. cbn. rewrite list_lookup_alter_eq.
  destruct (lookup_lt_is_Some_2 _ _ Ha) as [c ->]. done.
Qed.

(** A field that [f] leaves alone reads the same at every address. *)
Lemma deref_alter_field {B} (π : Client.t → B) s a a' f :
  (∀ c, π (f c) = π c) → π (deref (with_heap (alter f a (heap s)) s) a') = π (deref s a').
Proof.
  intros Hf. unfold deref, Addr in *. cbn. destruct (decide (a' = a)) as [->|Hne].
  - rewrite list_lookup_alter_eq. destruct (heap s !! a); cbn; [apply Hf|done].
  - by rewrite list_lookup_alter_ne.
Qed.

Lemma length_alter_heap s a f : length (heap (with_heap (alter f a (heap s)) s)) = length (heap s).
Proof. cbn. apply length_alter. Qed.

Lemma deref_alloc_old s c a :
  (a < length (heap s))%nat → deref (with_heap (heap s ++ [c]) s) a = deref s a.
Proof. intros Ha. unfold deref. cbn. by rewrite lookup_app_l. Qed.

Lemma deref_alloc_new s c : deref (with_heap (heap s ++ [c]) s) (length (heap s)) = c.
Proof. unfold deref. cbn. by rewrite list_lookup_middle. Qed.

(** *** Timers *)

Lemma timer_in_heap s t a : wf0 s → (t, a) ∈ timers s → (a < length (heap s))%nat.
Proof.
  intros Hs Ht. destruct (wf_timers _ Hs _ _ Ht) as (_ & Hsess & _).
  by destruct (wf_sessions _ Hs _ _ Hsess).
Qed.

Lemma no_timer_none s a : wf0 s → Client.cleanupTimer (deref s a) = None → no_timer s a.
Proof. intros Hs Hn t Ht. destruct (wf_timers _ Hs _ _ Ht) as (E & _). congruence. Qed.

Lemma no_timer_fresh s a : wf0 s → ¬ (a < length (heap s))%nat → no_timer s a.
Proof. intros Hs Ha t Ht. by apply Ha, (timer_in_heap _ t). Qed.

Definition cleared (t : nat) (s : State) : State :=
  with_timers (List.filter (λ x, negb (x.1 =? t)%nat) (timers s)) (next_timer s) s.

Lemma wf0_cleared s t : wf0 s → wf0 (cleared t s).
Proof.
  intros [H1 H2 H3 H4 H5 H6 H7]. constructor; try done.
  intros t' a [Hin _]%list_elem_of_In%filter_In. cbn [sessions sockets cleared with_timers].
  by apply H5, list_elem_of_In.
Qed.

Lemma no_timer_cleared s t a :
  wf0 s → Client.cleanupTimer (deref s a) = Some t → no_timer (cleared t s) a.
Proof.
  intros Hs Ht t' [Hin Hne]%list_elem_of_In%filter_In.
  apply list_elem_of_In in Hin. destruct (wf_timers _ Hs _ _ Hin) as (E & _).
  rewrite Ht in E. injection E as <-. cbn in Hne. by rewrite Nat.eqb_refl in Hne.
Qed.

Lemma no_timer_cleared_other s t a : no_timer s a → no_timer (cleared t s) a.
Proof. intros Hn t' [Hin _]%list_elem_of_In%filter_In. by apply (Hn t'), list_elem_of_In. Qed.

(** *** Writes to a peer *)

Lemma wf0_with_timer s a x d :
  wf0 s → no_timer s a → wf0 (with_heap (alter (Client.with_timer x d) a (heap s)) s).
Proof.
  intros [H1 H2 H3 H4 H5 H6 H7] Hn. constructor; try done.
  - intros sid a'. rewrite length_alter_heap, (deref_alter_field Client.sessionId) by done.
    apply H1.
  - intros k r pk a'. rewrite length_alter_heap, (deref_alter_field Client.peerId),
      (deref_alter_field Client.roomId) by done. apply H4.
  - intros t a' Ht. cbn [timers with_heap] in Ht.
    assert (a' ≠ a) as Hne by (intros ->; by apply (Hn t)).
    rewrite !deref_alter_ne by done. by apply H5.
  - intros a'. rewrite length_alter_heap, (deref_alter_field Client.ws) by done. apply H7.
Qed.

Lemma wf0_with_ws s a w :
  wf0 s → no_timer s a → (w < next_ws s)%nat →
  wf0 (with_heap (alter (Client.with_ws w) a (heap s)) s).
Proof.
  intros [H1 H2 H3 H4 H5 H6 H7] Hn Hw. constructor; try done.
  - intros sid a'. rewrite length_alter_heap, (deref_alter_field Client.sessionId) by done.
    apply H1.
  - intros k r pk a'. rewrite length_alter_heap, (deref_alter_field Client.peerId),
      (deref_alter_field Client.roomId) by done. apply H4.
  - intros t a' Ht. cbn [timers with_heap] in Ht.
    assert (a' ≠ a) as Hne by (intros ->; by apply (Hn t)).
    rewrite !deref_alter_ne by done. by apply H5.
  - intros a'. rewrite length_alter_heap. intros Ha'.
    destruct (decide (a' = a)) as [->|Hne].
    + by rewrite deref_alter_eq.
    + rewrite deref_alter_ne by done. by apply H7.
Qed.

(** The peer at [a] is in no room's peer map but, perhaps, that of the
    room [k]. *)
Definition only_in (s : State) (a : Addr) (x : option string) : Prop :=
  ∀ k r pk, JsMap.get (rooms s) k = Some r → JsMap.get (Room.peers r) pk = Some a →
            x = Some k.

Lemma wf0_with_roomId s a x :
  wf0 s → only_in s a x →
  wf0 (with_heap (alter (Client.with_roomId x) a (heap s)) s).
Proof.
  intros [H1 H2 H3 H4 H5 H6 H7] Ho. constructor; try done.
  - intros sid a'. rewrite length_alter_heap, (deref_alter_field Client.sessionId) by done.
    apply H1.
  - intros k r pk a' Hr Hp. cbn [rooms with_heap] in Hr.
    rewrite length_alter_heap, (deref_alter_field Client.peerId) by done.
    destruct (H4 _ _ _ _ Hr Hp) as (Ha' & Hpk & Hroom). split; [done|]. split; [done|].
    destruct (decide (a' = a)) as [->|Hne].
    + rewrite deref_alter_eq by done. cbn. by apply (Ho k r pk).
    + by rewrite deref_alter_ne.
  - intros t a'. rewrite (deref_alter_field Client.cleanupTimer),
      (deref_alter_field Client.sessionId), (deref_alter_field Client.ws) by done. apply H5.
  - intros a'. rewrite length_alter_heap, (deref_alter_field Client.ws) by done. apply H7.
Qed.

Lemma only_in_own s a :
  wf0 s → only_in s a (Client.roomId (deref s a)).
Proof. intros Hs k r pk Hr Hp. by destruct (wf_members _ Hs _ _ _ _ Hr Hp) as (_ & _ & ->). Qed.

(** *** A new peer *)

Lemma wf0_alloc s c :
  wf0 s → (Client.ws c < next_ws s)%nat → wf0 (with_heap (heap s ++ [c]) s).
Proof.
  intros Hs Hw. pose proof Hs as [H1 H2 H3 H4 H5 H6 H7]. constructor; try done.
  - intros sid a Hin. cbn [sessions with_heap] in Hin. destruct (H1 _ _ Hin) as [Ha <-].
    rewrite deref_alloc_old by done. cbn. rewrite length_app. split; [lia|done].
  - intros k r pk a Hr Hp. cbn [rooms with_heap] in Hr.
    destruct (H4 _ _ _ _ Hr Hp) as (Ha & ? & ?).
    rewrite deref_alloc_old by done. cbn. rewrite length_app. split; [lia|done].
  - intros t a Ht. cbn [timers sessions sockets with_heap] in *.
    rewrite deref_alloc_old by by eapply timer_in_heap. by apply H5.
  - intros a. cbn [heap next_ws with_heap]. rewrite length_app. cbn. intros Ha.
    destruct (decide (a = length (heap s))) as [->|Hne].
    + by rewrite deref_alloc_new.
    + rewrite deref_alloc_old by lia. apply H7. lia.
Qed.

(** *** Sessions *)

Lemma elem_set_old {V} (m : JsMap.t V) k v kv : kv ∈ m → kv.1 ≠ k → kv ∈ JsMap.set m k v.
Proof.
  intros Hin Hne. induction m as [|[x y] m IH]; cbn; [by apply elem_of_nil in Hin|].
  destruct (String.eqb_spec k x) as [->|Hx].
  - apply elem_of_cons in Hin as [->|?]; [done|by right].
  - apply elem_of_cons in Hin as [->|?]; [by left|right; by apply IH].
Qed.

Lemma elem_set_new {V} (m : JsMap.t V) k v : (k, v) ∈ JsMap.set m k v.
Proof.
  induction m as [|[x y] m IH]; cbn; [by left|].
  destruct (String.eqb k x); [by left|by right].
Qed.

Lemma elem_delete_other {V} (m : JsMap.t V) k kv : kv ∈ m → kv.1 ≠ k → kv ∈ JsMap.delete m k.
Proof.
  intros Hin Hne. induction m as [|[x y] m IH]; cbn; [done|].
  destruct (String.eqb_spec k x) as [->|Hx].
  - apply elem_of_cons in Hin as [->|?]; [done|by apply IH].
  - apply elem_of_cons in Hin as [->|?]; [by left|right; by apply IH].
Qed.

Lemma wf0_sessions_set s sid a :
  wf0 s → JsMap.get (sessions s) sid = None →
  (a < length (heap s))%nat → Client.sessionId (deref s a) = sid →
  wf0 (with_sessions (JsMap.set (sessions s) sid a) s).
Proof.
  intros [H1 H2 H3 H4 H5 H6 H7] Hnone Ha Hsid. constructor; try done.
  - intros sid' a' [[= -> ->]|Hin]%elem_set; [done|by apply H1].
  - intros sid' x y [Ex|Hx]%elem_set [Ey|Hy]%elem_set; simplify_eq; try done.
    + by destruct (get_None_elem _ _ y Hnone).
    + by destruct (get_None_elem _ _ x Hnone).
    + by eapply H2.
  - intros t a' Ht. destruct (H5 _ _ Ht) as (? & Hin & ?). split; [done|]. split; [|done].
    apply elem_set_old; [done|]. intros E. change (Client.sessionId (deref s a') = sid) in E.
    rewrite E in Hin.
    by destruct (get_None_elem _ _ a' Hnone).
Qed.

Lemma wf0_sessions_delete s sid :
  wf0 s → (∀ t a, (t, a) ∈ timers s → Client.sessionId (deref s a) ≠ sid) →
  wf0 (with_sessions (JsMap.delete (sessions s) sid) s).
Proof.
  intros [H1 H2 H3 H4 H5 H6 H7] Hn. constructor; try done.
  - intros sid' a' [Hin _]%elem_delete. by apply H1.
  - intros sid' x y [Hx _]%elem_delete [Hy _]%elem_delete. by eapply H2.
  - intros t a' Ht. destruct (H5 _ _ Ht) as (? & Hin & ?). split; [done|]. split; [|done].
    apply elem_delete_other; [done|]. by apply (Hn t).
Qed.

(** The session of a peer without a timer can go. *)
Lemma wf0_forget s a :
  wf0 s → no_timer s a → (Client.sessionId (deref s a), a) ∈ sessions s →
  wf0 (with_sessions (JsMap.delete (sessions s) (Client.sessionId (deref s a))) s).
Proof.
  intros Hs Hn Hin. apply wf0_sessions_delete; [done|].
  intros t a' Ht E. destruct (wf_timers _ Hs _ _ Ht) as (_ & Hin' & _).
  rewrite E in Hin'. rewrite (wf_sessions_inj _ Hs _ _ _ Hin Hin') in Hn. by apply (Hn t).
Qed.

(** *** Rooms *)

Lemma wf0_new_room s id r :
  wf0 s → id ≠ "" → Room.id r = id → Room.peers r = [] →
  wf0 (with_rooms (JsMap.set (rooms s) id r) s).
Proof.
  intros [H1 H2 H3 H4 H5 H6 H7] Hid Hr Hp. constructor; try done.
  - intros k r'. cbn [rooms with_rooms]. rewrite JsMap.get_set.
    destruct (String.eqb_spec k id) as [->|]; [by intros [= <-]|apply H3].
  - intros k r' pk a. cbn [rooms with_rooms]. rewrite JsMap.get_set.
    destruct (String.eqb_spec k id) as [->|]; [|apply H4].
    intros [= <-]. by rewrite Hp.
Qed.

Lemma full_new_room s id r :
  full None s → full (Some id) (with_rooms (JsMap.set (rooms s) id r) s).
Proof.
  intros Hf k r'. cbn [rooms with_rooms]. rewrite JsMap.get_set.
  destruct (String.eqb_spec k id) as [->|]; [done|]. intros Hr _. by eapply Hf.
Qed.

Lemma wf0_enter s k r a :
  wf0 s → JsMap.get (rooms s) k = Some r →
  (a < length (heap s))%nat → Client.roomId (deref s a) = Some k →
  wf0 (with_rooms
         (JsMap.set (rooms s) k
            (Room.with_peers (JsMap.set (Room.peers r) (Client.peerId (deref s a)) a) r)) s).
Proof.
  intros [H1 H2 H3 H4 H5 H6 H7] Hr Ha Hroom. constructor; try done.
  - intros k' r'. cbn [rooms with_rooms]. rewrite JsMap.get_set.
    destruct (String.eqb_spec k' k) as [->|]; [|apply H3].
    intros [= <-]. cbn. by apply H3.
  - intros k' r' pk a'. cbn [rooms with_rooms heap]. rewrite JsMap.get_set.
    destruct (String.eqb_spec k' k) as [->|]; [|apply H4].
    intros [= <-]. cbn [Room.peers Room.with_peers]. rewrite JsMap.get_set.
    destruct (String.eqb_spec pk (Client.peerId (deref s a))) as [->|]; [|by apply H4].
    by intros [= <-].
Qed.

Lemma full_enter s k r pk a but :
  full but s →
  full None (with_rooms (JsMap.set (rooms s) k
                           (Room.with_peers (JsMap.set (Room.peers r) pk a) r)) s)
  ∨ but ≠ Some k ∧ but ≠ None.
Proof.
  intros Hf. destruct (decide (but = Some k ∨ but = None)) as [Hb|Hb]; [left|right; tauto].
  intros k' r'. cbn [rooms with_rooms]. rewrite JsMap.get_set.
  destruct (String.eqb_spec k' k) as [->|Hne].
  - intros [= <-] _. cbn. by destruct (Room.peers r) as [|[] ?]; cbn; repeat case_match.
  - intros Hr _. eapply Hf; [done|]. destruct Hb as [->| ->]; congruence.
Qed.

Lemma wf0_leave s k r pk :
  wf0 s → JsMap.get (rooms s) k = Some r →
  wf0 (with_rooms
         (JsMap.set (rooms s) k (Room.with_peers (JsMap.delete (Room.peers r) pk) r)) s).
Proof.
  intros [H1 H2 H3 H4 H5 H6 H7] Hr. constructor; try done.
  - intros k' r'. cbn [rooms with_rooms]. rewrite JsMap.get_set.
    destruct (String.eqb_spec k' k) as [->|]; [|apply H3].
    intros [= <-]. cbn. by apply H3.
  - intros k' r' pk' a'. cbn [rooms with_rooms heap]. rewrite JsMap.get_set.
    destruct (String.eqb_spec k' k) as [->|]; [|apply H4].
    intros [= <-]. cbn [Room.peers Room.with_peers]. rewrite JsMap.get_delete.
    destruct (String.eqb pk' pk); [done|by apply H4].
Qed.

Lemma full_leave s k r' :
  full None s → full (Some k) (with_rooms (JsMap.set (rooms s) k r') s).
Proof.
  intros Hf k' r. cbn [rooms with_rooms]. rewrite JsMap.get_set.
  destruct (String.eqb_spec k' k) as [->|]; [done|]. intros Hr _. by eapply Hf.
Qed.

Lemma not_member_leave s k r a :
  wf0 s → JsMap.get (rooms s) k = Some r → Client.roomId (deref s a) = Some k →
  not_member
    (with_rooms
       (JsMap.set (rooms s) k
          (Room.with_peers (JsMap.delete (Room.peers r) (Client.peerId (deref s a))) r)) s) a.
Proof.
  intros Hs Hr Hroom k' r' pk. cbn [rooms with_rooms]. rewrite JsMap.get_set.
  destruct (String.eqb_spec k' k) as [->|Hne].
  - intros [= <-]. cbn [Room.peers Room.with_peers]. rewrite JsMap.get_delete.
    destruct (String.eqb_spec pk (Client.peerId (deref s a))) as [->|Hpk]; [done|].
    intros Hp. by destruct (wf_members _ Hs _ _ _ _ Hr Hp) as (_ & ? & _).
  - intros Hr' Hp. destruct (wf_members _ Hs _ _ _ _ Hr' Hp) as (_ & _ & E). congruence.
Qed.

Lemma wf0_delete_room s k : wf0 s → wf0 (with_rooms (JsMap.delete (rooms s) k) s).
Proof.
  intros [H1 H2 H3 H4 H5 H6 H7]. constructor; try done.
  - intros k' r'. cbn [rooms with_rooms]. rewrite JsMap.get_delete.
    destruct (String.eqb k' k); [done|apply H3].
  - intros k' r' pk a. cbn [rooms with_rooms heap]. rewrite JsMap.get_delete.
    destruct (String.eqb k' k); [done|apply H4].
Qed.

Lemma full_delete_room s k :
  full (Some k) s → full None (with_rooms (JsMap.delete (rooms s) k) s).
Proof.
  intros Hf k' r. cbn [rooms with_rooms]. rewrite JsMap.get_delete.
  destruct (String.eqb_spec k' k) as [->|Hne]; [done|]. intros Hr _. eapply Hf; [done|congruence].
Qed.

Lemma full_settled s k r :
  full (Some k) s → JsMap.get (rooms s) k = Some r → Room.peers r ≠ [] → full None s.
Proof.
  intros Hf Hr Hp k' r' Hr' _. destruct (decide (k' = k)) as [->|Hne].
  - congruence.
  - eapply Hf; [done|congruence].
Qed.

(** *** Sockets *)

Lemma wf0_connect s (w : option Ws) :
  wf0 s →
  from_option (λ w, ws_id w = next_ws s ∧ authed w) True w →
  wf0 (with_sockets (from_option (λ w, sockets s ++ [w]) (sockets s) w) (S (next_ws s)) s).
Proof.
  intros Hs Hw. pose proof Hs as [H1 H2 H3 H4 H5 H6 H7]. constructor; try done.
  - intros t a Ht. destruct (H5 _ _ Ht) as (? & ? & Hns). split; [done|]. split; [done|].
    cbn [sockets with_sockets]. destruct w as [w|]; cbn [from_option] in *; [|done].
    rewrite fmap_app, elem_of_app. intros [?|Hin%list_elem_of_singleton]; [done|].
    destruct Hw as [Hw _]. pose proof (H7 a (timer_in_heap _ _ _ Hs Ht)).
    cbn [fmap list_fmap] in Hin. unfold deref in *. cbn [heap with_sockets] in *. lia.
  - intros w'. cbn [sockets next_ws with_sockets].
    destruct w as [w|]; cbn [from_option] in *.
    + intros [Hin|Hin%list_elem_of_singleton]%elem_of_app.
      * destruct (H6 _ Hin). split; [lia|done].
      * subst w'. destruct Hw as [-> ?]. split; [lia|done].
    + intros Hin. destruct (H6 _ Hin). split; [lia|done].
  - intros a Ha. cbn [next_ws with_sockets]. pose proof (H7 a Ha).
    unfold deref in *. cbn [heap with_sockets] in *. lia.
Qed.

Lemma wf0_disconnect s ws :
  wf0 s →
  wf0 (with_sockets (List.filter (λ w, negb (ws_id w =? ws)%nat) (sockets s)) (next_ws s) s).
Proof.
  intros [H1 H2 H3 H4 H5 H6 H7]. constructor; try done.
  - intros t a Ht. destruct (H5 _ _ Ht) as (? & ? & Hns). split; [done|]. split; [done|].
    cbn [sockets with_sockets]. intros (w & E & [Hin _]%list_elem_of_In%filter_In)%list_elem_of_fmap.
    apply Hns, list_elem_of_fmap. exists w. split; [done|by apply list_elem_of_In].
  - intros w [Hin _]%list_elem_of_In%filter_In. by apply H6, list_elem_of_In.
Qed.

(** The timer that [scheduleGraceCleanup] sets. *)
Lemma wf0_schedule s a t d n :
  wf0 s → no_timer s a → (Client.sessionId (deref s a), a) ∈ sessions s →
  Client.ws (deref s a) ∉ ws_id <$> sockets s →
  wf0 (with_heap (alter (Client.with_timer (Some t) d) a (heap s))
         (with_timers (timers s ++ [(t, a)]) n s)).
Proof.
  intros Hs Hn Hin Hws. pose proof Hs as [H1 H2 H3 H4 H5 H6 H7].
  destruct (H1 _ _ Hin) as [Ha _].
  assert (∀ (π : Client.t → string) a',
            (∀ c, π (Client.with_timer (Some t) d c) = π c) →
            π (deref (with_heap (alter (Client.with_timer (Some t) d) a (heap s))
                        (with_timers (timers s ++ [(t, a)]) n s)) a') = π (deref s a')) as Hstr.
  { intros π a' Hπ. apply (deref_alter_field π (with_timers (timers s ++ [(t, a)]) n s)), Hπ. }
  constructor; try done.
  - intros sid a'. cbn [sessions heap with_heap with_timers]. rewrite length_alter.
    rewrite (Hstr Client.sessionId) by done. apply H1.
  - intros k r pk a'. cbn [rooms heap with_heap with_timers]. rewrite length_alter.
    rewrite (Hstr Client.peerId) by done. intros Hr Hp.
    destruct (H4 _ _ _ _ Hr Hp) as (? & ? & ?). split; [done|]. split; [done|].
    unfold deref, Addr in *. cbn [heap with_heap with_timers].
    destruct (decide (a' = a)) as [->|Hne].
    + rewrite list_lookup_alter_eq. by destruct (heap s !! a).
    + by rewrite list_lookup_alter_ne.
  - intros t' a'. cbn [timers sessions sockets with_heap with_timers].
    rewrite (Hstr Client.sessionId) by done.
    intros [Ht|[= -> ->]%list_elem_of_singleton]%elem_of_app.
    + assert (a' ≠ a) as Hne by (intros ->; by apply (Hn t')).
      unfold deref, Addr in *. cbn [heap with_heap with_timers].
      rewrite list_lookup_alter_ne by done. by apply H5.
    + unfold deref, Addr in *. cbn [heap with_heap with_timers]. rewrite list_lookup_alter_eq.
      destruct (lookup_lt_is_Some_2 _ _ Ha) as [c Hc]. rewrite Hc in *. done.
  - intros a'. cbn [heap next_ws with_heap with_timers]. rewrite length_alter. intros Ha'.
    pose proof (H7 a' Ha') as Hw. unfold deref, Addr in *. cbn [heap with_heap with_timers].
    destruct (decide (a' = a)) as [->|Hne].
    + rewrite list_lookup_alter_eq. by destruct (heap s !! a).
    + by rewrite list_lookup_alter_ne.
Qed.

End Updates.

(** ** Taking a session over and entering a room *)

Module Control.
Import Gated Dispatch Wp Shape Wf Updates.

(** *** Handlers that leave the shape alone *)

(** [m] keeps the shape of the state and only adds to what was sent. *)
Definition shaped {A} (m : M A) : Prop :=
  (∀ s0, preserves (same_shape s0) m) ∧ emits (λ _, True) m.

Lemma wp_shaped {A} (m : M A) Q E s :
  shaped m →
  (∀ a s' evs, same_shape s s' → Q a s' evs) →
  (∀ e s' evs, same_shape s s' → E e s' evs) →
  wp m Q E s.
Proof.
  intros [Hp He] HQ HE out. destruct (He s out) as (evs & Hout & _).
  pose proof (Hp s (s, out) (same_shape_refl s)) as Hs.
  exists evs. split; [done|]. destruct (m (s, out)) as [[a|e] [s' out']]; cbn in *; auto.
Qed.

Ltac mtrue :=
  repeat first
    [ lazymatch goal with
      | |- emits _ (bind _ _) => apply emits_bind; [|intros]
      | |- emits _ (ret _) => apply emits_ret
      | |- emits _ (throw _) => apply emits_throw
      | |- emits _ (of_res _) => apply emits_of_res
      | |- emits _ (lift _) => apply emits_lift
      | |- emits _ (emit _) => apply emits_emit; exact I
      | |- emits _ (try_ _) => apply emits_try
      | |- emits _ (when _ _) => apply emits_when; intros ?
      | |- emits _ (forM _ _) => apply emits_forM; intros
      | |- emits _ (from_option _ _ ?o) => destruct o; cbn [from_option]
      | |- emits _ (match ?x with _ => _ end) => destruct x eqn:?
      | |- emits _ ?m => let h := head_of m in progress unfold h
      end ].

Ltac mshaped := split; [intros ?; mpres shape_tac|mtrue].

Lemma resetPeerMedia_shaped a : shaped (resetPeerMedia a).
Proof. mshaped. Qed.

Lemma release_media_shaped a : shaped (release_media a).
Proof. mshaped. Qed.

(** *** [adopt] *)

(** What [adopt] keeps while it takes the peer at [a] over. *)
Record taking (s : State) (a : Addr) (s' : State) : Prop := {
  tk_wf : wf0 s';
  tk_full : full None s';
  tk_timer : no_timer s' a;
  tk_next : next_ws s' = next_ws s;
  tk_length : length (heap s') = length (heap s);
  tk_sessions : sessions s' = sessions s;
  tk_peerId : Client.peerId (deref s' a) = Client.peerId (deref s a);
}.

Lemma taking_shape s a s1 s2 : taking s a s1 → same_shape s1 s2 → taking s a s2.
Proof.
  intros [] H. constructor.
  - by eapply wf0_shape.
  - by eapply full_shape.
  - by eapply no_timer_shape.
  - by rewrite (sh_next_ws _ _ H).
  - by rewrite (shape_length _ _ H).
  - by rewrite (sh_sessions _ _ H).
  - by destruct (shape_fields _ _ a H) as (_ & -> & _).
Qed.

Lemma taking_write s a s1 (f : Client.t → Client.t) :
  taking s a s1 →
  (∀ c, Client.peerId (f c) = Client.peerId c) →
  wf0 (with_heap (alter f a (heap s1)) s1) →
  taking s a (with_heap (alter f a (heap s1)) s1).
Proof.
  intros [] Hf Hw. constructor; try done.
  - by rewrite length_alter_heap.
  - by rewrite (deref_alter_field Client.peerId).
Qed.

Lemma wp_adopt ws sid pid s :
  wf s → (ws_id ws < next_ws s)%nat →
  wp (adopt ws sid pid)
     (λ a s' _, wf s' ∧ next_ws s' = next_ws s ∧ (a < length (heap s'))%nat ∧
                no_timer s' a ∧ JsMap.get (sessions s') sid = Some a ∧
                Client.peerId (deref s' a) = pid ∧ Client.ws (deref s' a) = ws_id ws)
     (λ _ s' _, wf s' ∧ next_ws s' = next_ws s) s.
Proof.
  intros [Hs Hf] Hws. unfold adopt. wp_steps.
  destruct (JsMap.get (sessions s) sid) as [a|] eqn:Hsid.
  - pose proof (get_elem _ _ _ Hsid) as Hin.
    destruct (wf_sessions _ Hs _ _ Hin) as [Ha Hsa].
    wp_steps. destruct (negb _) eqn:Hpid; wp_steps; [done|].
    apply negb_false_iff, String.eqb_eq in Hpid.
    assert (wp (from_option clearTimeout (ret tt) (Client.cleanupTimer (deref s a)))
              (λ _ s1 _, taking s a s1) (λ _ _ _, False) s) as Hclear.
    { destruct (Client.cleanupTimer (deref s a)) as [t|] eqn:Ht; cbn [from_option].
      - unfold clearTimeout. wp_steps. fold (cleared t s). constructor; try done.
        + by apply wf0_cleared.
        + by apply no_timer_cleared.
      - wp_steps. constructor; try done. by apply no_timer_none. }
    eapply wp_mono; [exact Hclear| |done]. clear Hclear. cbn beta.
    intros _ s1 _ H1. wp_steps.
    assert (taking s a (with_heap (alter (Client.with_timer None None) a (heap s1)) s1)) as H2.
    { apply taking_write; [done|done|]. apply wf0_with_timer; by destruct H1. }
    revert H2. generalize (with_heap (alter (Client.with_timer None None) a (heap s1)) s1).
    clear s1 H1. intros s2 H2.
    apply wp_shaped; [apply resetPeerMedia_shaped| |];
      intros _ s3 _ H3%(taking_shape _ _ _ _ H2); [|by destruct H3]. clear s2 H2.
    wp_steps. destruct (negb _); wp_steps.
    all: assert (taking s a (with_heap (alter (Client.with_ws (ws_id ws)) a (heap s3)) s3))
           as H4
           by (apply taking_write; [done|done|];
               apply wf0_with_ws; destruct H3; [done|done|congruence]).
    all: destruct H4 as [? ? ? ? Hl Hsess Hp]; split; [done|]; split; [done|].
    all: cbn [heap sessions with_heap] in Hl, Hsess.
    all: rewrite Hl, Hsess, Hp; split; [done|]; split; [done|]; split; [done|]; split; [done|].
    all: rewrite deref_alter_eq; [done|]; destruct H3; congruence.
  - wp_steps. rewrite length_app, Nat.add_1_r.
    set (c := {| Client.sessionId := sid |}).
    assert (wf0 (with_heap (heap s ++ [c]) s)) as H1 by by apply wf0_alloc.
    assert (wf0 (with_sessions (JsMap.set (sessions s) sid (length (heap s)))
                   (with_heap (heap s ++ [c]) s))) as H2.
    { apply (wf0_sessions_set (with_heap (heap s ++ [c]) s));
        [done|done|cbn; rewrite length_app; cbn; lia|].
      by rewrite deref_alloc_new. }
    split; [split; [done|exact Hf]|]. split; [done|]. split; [lia|]. split.
    { apply (no_timer_fresh s (length (heap s))); [done|lia]. }
    rewrite JsMap.get_set, String.eqb_refl. split; [done|].
    change (deref (with_sessions ?x ?y) ?a) with (deref y a).
    by rewrite deref_alloc_new.
Qed.

(** *** Entering a room (lines 452-457 and 518-522) *)

(** The state once the peer at [a] carries the room's id. *)
Definition bound_to (roomId : string) (a : Addr) (s : State) : State :=
  with_heap (alter (Client.with_roomId (Some roomId)) a (heap s)) s.

(** The state once the peer at [a] is in the peer map of the room as
    well. *)
Definition entered (roomId : string) (a : Addr) (r : Room.t) (s : State) : State :=
  with_rooms
    (JsMap.set (rooms s) roomId
       (Room.with_peers (JsMap.set (Room.peers r) (Client.peerId (deref s a)) a) r)) s.

Lemma wf_bound_to s a roomId :
  wf s → only_in s a (Some roomId) → wf (bound_to roomId a s).
Proof. intros [Hs Hf] Ho. split; [by apply wf0_with_roomId|exact Hf]. Qed.

Lemma wf_entered s a roomId r but :
  wf0 s → full but s → but = None ∨ but = Some roomId →
  JsMap.get (rooms s) roomId = Some r →
  (a < length (heap s))%nat → Client.roomId (deref s a) = Some roomId →
  wf (entered roomId a r s).
Proof.
  intros Hs Hf Hb Hr Ha Hroom. split; [by apply wf0_enter|].
  destruct (full_enter s roomId r (Client.peerId (deref s a)) a but Hf) as [H|[H1 H2]];
    [done|by destruct Hb].
Qed.

Lemma wp_getRoom id o Q E s :
  (∀ r, JsMap.get (rooms s) id = Some r → Q r s []) →
  (JsMap.get (rooms s) id = None →
   ∀ router observer,
     let r := {| Room.id := id; Room.router := router; Room.peers := [];
                 Room.producers := []; Room.audioLevelObserver := observer;
                 Room.speaking := []; Room.observed := [] |} in
     Q r (with_rooms (JsMap.set (rooms s) id r) s) []) →
  (JsMap.get (rooms s) id = None → ∀ e, E e s []) →
  wp (getRoom id o) Q E s.
Proof.
  intros Hold Hnew Hfail. unfold getRoom. wp_steps.
  destruct (JsMap.get (rooms s) id) as [r|] eqn:Hr; wp_steps; [by apply Hold|].
  destruct (o_createRouter o) as [router|e]; wp_steps; [|by apply Hfail].
  destruct (o_createAudioLevelObserver o) as [observer|e]; wp_steps; [|by apply Hfail].
  by apply Hnew.
Qed.

(** What a socket has once it has joined. *)
Definition joined (ws : Ws) (s' : State) : Prop :=
  ∃ a r,
    JsMap.get (sessions s') (Client.sessionId (deref s' a)) = Some a ∧
    Client.ws (deref s' a) = ws_id ws ∧
    Client.peerId (deref s' a) = trim (_tokenPeerId ws) ∧
    Client.roomId (deref s' a) = Some (trim (_tokenRoomId ws)) ∧
    JsMap.get (rooms s') (trim (_tokenRoomId ws)) = Some r ∧
    JsMap.get (Room.peers r) (trim (_tokenPeerId ws)) = Some a ∧
    no_timer s' a.

Lemma wp_requireRoomIdMatch ws r Q E s :
  (trim r ≠ "" → trim r = trim (_tokenRoomId ws) → Q (trim r) s []) →
  (∀ e, E e s []) →
  wp (requireRoomIdMatch ws r) Q E s.
Proof.
  intros HQ HE. unfold requireRoomIdMatch.
  destruct (String.eqb_spec (trim (_tokenRoomId ws)) ""); wp_steps; [done|].
  destruct (String.eqb_spec (trim r) ""); wp_steps; [done|].
  destruct (String.eqb_spec (trim r) (trim (_tokenRoomId ws))); cbn [negb]; wp_steps; auto.
Qed.

Lemma wp_requireBoundIdentity ws sid o Q E s :
  (∀ sessionId, Q (trim (_tokenPeerId ws), sessionId) s []) →
  (∀ e, E e s []) →
  wp (requireBoundIdentity ws sid o) Q E s.
Proof.
  intros HQ HE. unfold requireBoundIdentity.
  repeat (case_match; wp_steps); auto.
Qed.

Lemma only_in_checked s a roomId :
  wf0 s →
  match nonempty (Client.roomId (deref s a)) with
  | Some r => negb (r =? roomId)%string
  | None => false
  end = false →
  only_in s a (Some roomId).
Proof.
  intros Hs Hc k r pk Hr Hp.
  destruct (wf_members _ Hs _ _ _ _ Hr Hp) as (_ & _ & E).
  destruct (wf_rooms _ Hs _ _ Hr) as [_ Hk].
  rewrite E in Hc. cbn in Hc. rewrite (proj2 (String.eqb_neq _ _) Hk) in Hc.
  apply negb_false_iff, String.eqb_eq in Hc. by subst.
Qed.

Lemma joined_entered ws s a r roomId sid :
  wf0 s → (a < length (heap s))%nat →
  roomId = trim (_tokenRoomId ws) →
  Client.peerId (deref s a) = trim (_tokenPeerId ws) →
  Client.ws (deref s a) = ws_id ws →
  Client.roomId (deref s a) = Some roomId →
  JsMap.get (sessions s) sid = Some a → no_timer s a →
  joined ws (entered roomId a r s).
Proof.
  intros Hs Ha -> Hp Hw Hr Hsid Ht.
  destruct (wf_sessions _ Hs _ _ (get_elem _ _ _ Hsid)) as [_ <-].
  exists a, (Room.with_peers (JsMap.set (Room.peers r) (Client.peerId (deref s a)) a) r).
  unfold entered. cbn [sessions rooms with_rooms].
  change (deref (with_rooms ?x ?y) ?a) with (deref y a).
  rewrite JsMap.get_set, String.eqb_refl. cbn [Room.peers Room.with_peers].
  rewrite <- Hp, JsMap.get_set, String.eqb_refl. done.
Qed.

(** The facts about the peer at [a] that entering a room relies on. *)
Record ready (ws : Ws) (sid : string) (a : Addr) (s : State) : Prop := {
  rd_wf : wf s;
  rd_heap : (a < length (heap s))%nat;
  rd_timer : no_timer s a;
  rd_session : JsMap.get (sessions s) sid = Some a;
  rd_peerId : Client.peerId (deref s a) = trim (_tokenPeerId ws);
  rd_ws : Client.ws (deref s a) = ws_id ws;
}.

Lemma ready_bound ws sid a s roomId :
  ready ws sid a s → only_in s a (Some roomId) →
  ready ws sid a (bound_to roomId a s) ∧
  Client.roomId (deref (bound_to roomId a s) a) = Some roomId.
Proof.
  intros [] Ho. unfold bound_to. split; [constructor|].
  - by apply wf_bound_to.
  - by rewrite length_alter_heap.
  - done.
  - done.
  - by rewrite (deref_alter_field Client.peerId).
  - by rewrite (deref_alter_field Client.ws).
  - by rewrite deref_alter_eq.
Qed.

(** Lines 520-522 and 453-455: the room is found or made, and the peer
    is put in its peer map. *)
Lemma wp_enter ws sid a roomId o pk (K : M unit) Q E E0 s :
  ready ws sid a s → Client.roomId (deref s a) = Some roomId →
  roomId = trim (_tokenRoomId ws) → roomId ≠ "" →
  pk = Client.peerId (deref s a) →
  (∀ s', wf s' → joined ws s' → wp K Q E s') →
  (∀ e, E0 e s []) →
  wp (getRoom roomId o)
     (λ _ s' _,
        wp (set_room roomId (λ r, Room.with_peers (JsMap.set (Room.peers r) pk a) r) ;;; K)
           Q E s')
     E0 s.
Proof.
  intros [[Hs Hf] Ha Ht Hsid Hp Hw] Hroom Etok Hne -> HK HE.
  apply wp_getRoom.
  - intros r Hr. wp_steps. rewrite Hr. wp_simpl. fold (entered roomId a r s).
    apply HK.
    + apply (wf_entered _ _ _ _ None); auto.
    + by eapply joined_entered.
  - intros Hnone router observer r. wp_steps.
    rewrite JsMap.get_set, String.eqb_refl. rewrite JsMap.set_set.
    set (s1 := with_rooms (JsMap.set (rooms s) roomId r) s).
    assert (wf0 s1) as Hs1 by by apply wf0_new_room.
    assert (full (Some roomId) s1) as Hf1 by by apply full_new_room.
    assert (JsMap.get (rooms s1) roomId = Some r) as Hr1.
    { unfold s1. cbn. by rewrite JsMap.get_set, String.eqb_refl. }
    assert (entered roomId a r s1
            = with_rooms
                (JsMap.set (rooms s) roomId
                   (Room.with_peers (JsMap.set (Room.peers r) (Client.peerId (deref s a)) a) r))
                s1) as <-.
    { unfold entered, s1. cbn [rooms with_rooms]. by rewrite JsMap.set_set. }
    apply HK.
    + apply (wf_entered _ _ _ _ (Some roomId)); auto.
    + by eapply joined_entered.
  - intros _ e. apply HE.
Qed.

Lemma wp_join ws requestId payload o s :
  wf s → (ws_id ws < next_ws s)%nat →
  wp (join ws requestId payload o)
     (λ _ s' _, wf s' ∧ joined ws s') (λ _ s' _, wf s') s.
Proof.
  intros Hwf Hws. unfold join. wp_step.
  apply wp_requireRoomIdMatch; [|done]. intros Hroom Etok. wp_simpl.
  set (roomId := trim _) in *. clearbody roomId. wp_step.
  apply wp_requireBoundIdentity; [|done]. intros sid. wp_simpl. wp_step.
  eapply wp_mono; [by apply wp_adopt| |by intros ? ? ? [? _]]. cbn beta.
  intros a s1 _ (Hwf1 & _ & Ha1 & Ht1 & Hsess1 & Hpid1 & Hws1). clear s Hwf Hws.
  wp_steps.
  destruct (match nonempty _ with Some _ => _ | None => _ end) eqn:Hc; wp_steps; [done|].
  assert (ready ws sid a s1) as Hrd by by constructor.
  destruct (ready_bound _ _ _ _ roomId Hrd) as [Hrd2 Hroom2];
    [apply only_in_checked; [by destruct Hwf1|done]|].
  fold (bound_to roomId a s1).
  replace (Client.peerId (deref s1 a)) with (Client.peerId (deref (bound_to roomId a s1) a))
    by (by apply (deref_alter_field Client.peerId)).
  apply (wp_enter ws sid); try done.
  - intros s' Hwf' Hj. wp_steps. done.
  - intros e. by destruct Hrd2.
Qed.

End Control.

(** ** Every event keeps the maps in order *)

Module Steps.
Import Gated Dispatch Wp Shape Wf Updates Control.

Lemma listProducers_shaped ws requestId payload : shaped (listProducers ws requestId payload).
Proof. mshaped. Qed.

Lemma locate_shaped ws payload : shaped (locate ws payload).
Proof. mshaped. Qed.

Lemma createTransport_shaped ws requestId payload o a :
  shaped (createTransport ws requestId payload o a).
Proof. mshaped. Qed.

Lemma connectTransport_shaped ws requestId payload o a :
  shaped (connectTransport ws requestId payload o a).
Proof. mshaped. Qed.

Lemma produce_shaped ws requestId payload o a : shaped (produce ws requestId payload o a).
Proof. mshaped. Qed.

Lemma pauseProducer_shaped ws requestId payload o a :
  shaped (pauseProducer ws requestId payload o a).
Proof. mshaped. Qed.

Lemma resumeProducer_shaped ws requestId payload o a :
  shaped (resumeProducer ws requestId payload o a).
Proof. mshaped. Qed.

Lemma consume_shaped ws requestId payload o a : shaped (consume ws requestId payload o a).
Proof. mshaped. Qed.

Lemma pauseConsumer_shaped ws requestId payload o a :
  shaped (pauseConsumer ws requestId payload o a).
Proof. mshaped. Qed.

Lemma resumeConsumer_shaped ws requestId payload o a :
  shaped (resumeConsumer ws requestId payload o a).
Proof. mshaped. Qed.

Lemma on_volumes_shaped roomId volumes : shaped (on_volumes roomId volumes).
Proof. mshaped. Qed.

Lemma on_silence_shaped roomId : shaped (on_silence roomId).
Proof. mshaped. Qed.


(** *** Commands that cannot throw *)

Lemma total_gets {A} (f : State → A) : total (gets f).
Proof. intros w. by eexists. Qed.

Lemma total_modify f : total (modify f).
Proof. intros w. by eexists. Qed.

Lemma total_try m : total (try_ m).
Proof. intros w. exists tt. unfold try_. by destruct (m w) as [[] ?]. Qed.

Lemma total_when b m : total m → total (when b m).
Proof. destruct b; [done|]. intros _. apply total_ret. Qed.

Lemma total_forM {A} (l : list A) f : (∀ x, total (f x)) → total (forM l f).
Proof.
  intros Hf. induction l as [|x l IH]; cbn [forM]; [apply total_ret|].
  apply total_bind; [apply Hf|done].
Qed.

Ltac mnothrow :=
  repeat first
    [ lazymatch goal with
      | |- total (bind _ _) => apply total_bind; [|intros]
      | |- total (ret _) => apply total_ret
      | |- total (emit _) => apply total_emit
      | |- total (send_ _ _) => apply total_emit
      | |- total (gets _) => apply total_gets
      | |- total (modify _) => apply total_modify
      | |- total (try_ _) => apply total_try
      | |- total (when _ _) => apply total_when
      | |- total (forM _ _) => apply total_forM; intros
      | |- total (broadcastRoom _ _ _) => apply total_broadcast
      | |- total (from_option _ _ ?o) => destruct o; cbn [from_option]
      | |- total (match ?x with _ => _ end) => destruct x eqn:?
      | |- total ?m => let h := head_of m in progress unfold h
      end ].

Lemma wp_quiet {A} (m : M A) Q E s :
  shaped m → total m →
  (∀ a s' evs, same_shape s s' → Q a s' evs) →
  wp m Q E s.
Proof.
  intros [Hp He] Ht HQ out. destruct (He s out) as (evs & Hout & _).
  pose proof (Hp s (s, out) (same_shape_refl s)) as Hs.
  destruct (Ht (s, out)) as [a Ha].
  exists evs. split; [done|]. rewrite Ha.
  destruct (m (s, out)) as [[a'|e] [s' out']]; cbn in *; [|done]. simplify_eq. auto.
Qed.

Lemma release_media_total a : total (release_media a).
Proof. mnothrow. Qed.

(** *** [resumeSession] *)

Lemma wp_resumeSession ws requestId payload o s :
  wf s → (ws_id ws < next_ws s)%nat →
  wp (resumeSession ws requestId payload o) (λ _ s' _, wf s') (λ _ s' _, wf s') s.
Proof.
  intros Hwf Hws. unfold resumeSession. wp_step.
  apply wp_requireRoomIdMatch; [|done]. intros Hroom Etok. wp_simpl.
  set (roomId := trim _) in *. clearbody roomId. wp_step.
  apply wp_requireBoundIdentity; [|done]. intros sid. wp_simpl. wp_step.
  eapply wp_mono; [by apply wp_adopt| |by intros ? ? ? [? _]]. cbn beta.
  intros a s1 _ (Hwf1 & _ & Ha1 & Ht1 & Hsess1 & Hpid1 & Hws1). clear s Hwf Hws.
  wp_steps.
  destruct (match nonempty _ with Some _ => _ | None => _ end) eqn:Hc; wp_steps; [done|].
  destruct (nonempty (Client.roomId (deref s1 a))) eqn:Hn.
  { wp_steps. done. }
  assert (ready ws sid a s1) as Hrd by by constructor.
  destruct (ready_bound _ _ _ _ roomId Hrd) as [Hrd2 Hroom2].
  { apply only_in_checked; [by destruct Hwf1|]. by rewrite Hn. }
  wp_steps. fold (bound_to roomId a s1).
  replace (Client.peerId (deref s1 a)) with (Client.peerId (deref (bound_to roomId a s1) a))
    by (by apply (deref_alter_field Client.peerId)).
  apply (wp_enter ws sid); try done.
  - intros s' Hwf' Hj. wp_steps. done.
  - intros e. by destruct Hrd2.
Qed.


(** *** [destroyPeer] *)

(** What holds of the peer at [a] while it is taken out: its session is
    [sid], its peer id [pid], and no timer is pending for it. *)
Record going (a : Addr) (sid pid : string) (but : option string) (s : State) : Prop := {
  go_wf : wf0 s;
  go_full : full but s;
  go_timer : no_timer s a;
  go_session : (sid, a) ∈ sessions s;
  go_sid : Client.sessionId (deref s a) = sid;
  go_pid : Client.peerId (deref s a) = pid;
}.

Lemma going_shape a sid pid but s s' :
  going a sid pid but s → same_shape s s' → going a sid pid but s'.
Proof.
  intros [] H. destruct (shape_fields _ _ a H) as (Es & Ep & _). constructor.
  - by eapply wf0_shape.
  - by eapply full_shape.
  - by eapply no_timer_shape.
  - by rewrite (sh_sessions _ _ H).
  - by rewrite Es.
  - by rewrite Ep.
Qed.

(** The peer at [a] is in no index once it is gone. *)
Definition gone (a : Addr) (s : State) : Prop :=
  not_member s a ∧ ∀ sid, (sid, a) ∉ sessions s.

Lemma going_forget a sid pid but s :
  going a sid pid but s → not_member s a →
  let s' := with_sessions (JsMap.delete (sessions s) sid) s in
  wf0 s' ∧ full but s' ∧ gone a s'.
Proof.
  intros [Hs Hf Ht Hin Hsid Hpid] Hm s'. split; [|split; [|split]].
  - subst s' sid. by apply wf0_forget.
  - exact Hf.
  - exact Hm.
  - intros sid' [Hin' Hne]%elem_delete.
    destruct (wf_sessions _ Hs _ _ Hin') as [_ E]. cbn in Hne. congruence.
Qed.

Lemma gone_delete_room a s k :
  gone a s → gone a (with_rooms (JsMap.delete (rooms s) k) s).
Proof.
  intros [Hm Hs]. split; [|exact Hs]. intros k' r pk Hr. cbn in Hr.
  rewrite JsMap.get_delete in Hr. destruct (k' =? k)%string; [done|]. by eapply Hm.
Qed.

Lemma forgotten a sid pid s :
  going a sid pid None s → not_member s a →
  let s' := with_sessions (JsMap.delete (sessions s) sid) s in
  wf s' ∧ gone a s'.
Proof. intros Hg Hm. by destruct (going_forget _ _ _ _ _ Hg Hm) as (? & ? & ?). Qed.

Lemma wp_destroyPeer a s :
  wf s → no_timer s a → (Client.sessionId (deref s a), a) ∈ sessions s →
  wp (destroyPeer a) (λ _ s' _, wf s' ∧ gone a s') (λ _ _ _, False) s.
Proof.
  intros [Hs Hf] Ht Hin. unfold destroyPeer, sessions_delete. wp_steps.
  assert (going a (Client.sessionId (deref s a)) (Client.peerId (deref s a)) None s) as Hg
    by by constructor.
  destruct (nonempty (Client.roomId (deref s a))) as [k|] eqn:Hk.
  2: { wp_steps. eapply forgotten; [done|].
       intros k r pk Hr Hp. destruct (wf_members _ Hs _ _ _ _ Hr Hp) as (_ & _ & E).
       destruct (wf_rooms _ Hs _ _ Hr) as [_ Hne]. rewrite E in Hk. cbn in Hk.
       by rewrite (proj2 (String.eqb_neq _ _) Hne) in Hk. }
  assert (Client.roomId (deref s a) = Some k) as Hroom.
  { destruct (Client.roomId (deref s a)) as [x|]; [|done]. cbn in Hk.
    by destruct (x =? "")%string; simplify_eq. }
  wp_steps. destruct (JsMap.get (rooms s) k) as [r|] eqn:Hr.
  2: { wp_steps. eapply forgotten; [done|].
       intros k' r' pk Hr' Hp. destruct (wf_members _ Hs _ _ _ _ Hr' Hp) as (_ & _ & E).
       congruence. }
  destruct (wf_rooms _ Hs _ _ Hr) as [Hid Hne].
  wp_step. apply wp_quiet; [mshaped|mnothrow|]. intros _ s1 _ H1. wp_simpl.
  apply (going_shape _ _ _ _ _ _ Hg) in H1 as Hg1.
  destruct (shape_fields _ _ a H1) as (_ & Hp1 & _ & Hroom1 & _). rewrite Hroom in Hroom1.
  assert (∃ r1, JsMap.get (rooms s1) k = Some r1) as [r1 Hr1].
  { pose proof (sh_rooms _ _ H1 k) as E. rewrite Hr in E.
    destruct (JsMap.get (rooms s1) k); [by eexists|done]. }
  clear Hs Hf Ht Hin Hg H1 Hk Hroom Hr.
  revert Hg1 Hp1. generalize (Client.sessionId (deref s a)) (Client.peerId (deref s a)).
  intros sid pid Hg1 Hp1. clear s.
  wp_steps. rewrite Hr1. wp_simpl.
  set (s2 := with_rooms _ s1).
  assert (going a sid pid (Some k) s2) as Hg2.
  { destruct Hg1. constructor; try done.
    - by apply wf0_leave.
    - by apply full_leave. }
  assert (not_member s2 a) as Hm2.
  { subst s2. rewrite <- Hp1. apply not_member_leave; [by destruct Hg1|done|done]. }
  clearbody s2. clear s1 Hg1 Hp1 Hroom1 Hr1 r1.
  apply wp_quiet; [apply release_media_shaped|apply release_media_total|].
  intros _ s3 _ H3.
  apply (going_shape _ _ _ _ _ _ Hg2) in H3 as Hg3.
  apply (not_member_shape _ _ a H3) in Hm2 as Hm3. clear s2 Hg2 Hm2 H3.
  do 2 wp_step.
  set (s4 := with_heap _ s3).
  assert (going a sid pid (Some k) s4) as Hg4.
  { destruct Hg3. constructor; try done.
    - apply wf0_with_roomId; [done|]. intros k' r' pk Hr' Hp'. by destruct (Hm3 _ _ pk Hr').
    - subst s4. by rewrite (deref_alter_field Client.sessionId).
    - subst s4. by rewrite (deref_alter_field Client.peerId). }
  assert (not_member s4 a) as Hm4 by exact Hm3.
  clearbody s4. clear s3 Hg3 Hm3.
  destruct (going_forget _ _ _ _ _ Hg4 Hm4) as (Hs5 & Hf5 & Hgone5). cbn zeta in *.
  do 2 wp_step.
  set (s5 := with_sessions _ s4) in *. clearbody s5. clear s4 Hg4 Hm4.
  wp_steps.
  destruct (JsMap.get (rooms s5) k) as [r5|] eqn:Hr5; cbn [from_option].
  - unfold close_observer, close_router.
    destruct (JsMap.size (Room.peers r5) =? 0)%nat eqn:Hsize; wp_steps.
    + rewrite Hid. split; [split|].
      * by apply wf0_delete_room.
      * by apply full_delete_room.
      * by apply gone_delete_room.
    + split; [split; [done|]|done]. eapply full_settled; [done|done|].
      intros E. rewrite E in Hsize. done.
  - split; [split; [done|]|done]. intros k' r' Hr' _. apply (Hf5 _ _ Hr'). congruence.
Qed.


(** *** The close of a socket *)

Lemma wp_scheduleGraceCleanup a clock_ms s :
  wf s → (Client.sessionId (deref s a), a) ∈ sessions s →
  Client.ws (deref s a) ∉ ws_id <$> sockets s →
  wp (scheduleGraceCleanup a clock_ms)
     (λ _ s' _, wf s' ∧ (next_timer s, a) ∈ timers s' ∧
                Client.cleanupTimer (deref s' a) = Some (next_timer s))
     (λ _ _ _, False) s.
Proof.
  intros [Hs Hf] Hin Hws. unfold scheduleGraceCleanup.
  destruct (wf_sessions _ Hs _ _ Hin) as [Ha _].
  assert (∀ s1, wf0 s1 → no_timer s1 a → sessions s1 = sessions s → heap s1 = heap s →
                sockets s1 = sockets s → rooms s1 = rooms s → next_timer s1 = next_timer s →
                wp (let* t := gets next_timer in
                    modify (λ s, with_timers (timers s ++ [(t, a)]) (S t) s) ;;;
                    set_peer a (Client.with_timer (Some t) (Some clock_ms)))
                   (λ _ s' _, wf s' ∧ (next_timer s, a) ∈ timers s' ∧
                              Client.cleanupTimer (deref s' a) = Some (next_timer s))
                   (λ _ _ _, False) s1) as Hrest.
  { intros s1 Hs1 Ht1 Es Eh Ek Er En. wp_steps. rewrite En. split; [split|split].
    - apply wf0_schedule; [done|done| |].
      + unfold deref. by rewrite Eh, Es.
      + unfold deref. by rewrite Eh, Ek.
    - intros k r Hr. cbn in Hr. rewrite Er in Hr. by apply Hf.
    - apply elem_of_app. right. by apply list_elem_of_singleton.
    - unfold deref. cbn [heap with_heap]. rewrite list_lookup_alter.
      rewrite decide_True by done.
      destruct (lookup_lt_is_Some_2 (heap s1) a) as [c Hc]; [by rewrite Eh|].
      unfold Addr in *. by rewrite Hc. }
  do 3 wp_step.
  destruct (Client.cleanupTimer (deref s a)) as [t|] eqn:Ht; cbn [from_option].
  - unfold clearTimeout. wp_step. fold (cleared t s). apply Hrest; try done.
    + by apply wf0_cleared.
    + by apply no_timer_cleared.
  - wp_step. apply Hrest; try done. by apply no_timer_none.
Qed.

Lemma wp_onClose ws clock_ms s :
  wf s → ws ∉ ws_id <$> sockets s →
  wp (onClose ws clock_ms) (λ _ s' _, wf s') (λ _ _ _, False) s.
Proof.
  intros Hwf Hws. unfold onClose. wp_steps.
  destruct (list_find _ _) as [[i a]|] eqn:Hfind; [|by wp_steps].
  apply list_find_Some in Hfind as (Hi & Ea & _).
  apply list_elem_of_lookup_2, elem_values in Hi as [sid Hin].
  destruct (wf_sessions _ (proj1 Hwf) _ _ Hin) as [_ Esid].
  eapply wp_mono; [apply wp_scheduleGraceCleanup| |done]; try done.
  - by rewrite Esid.
  - by rewrite Ea.
  - by intros _ s' _ [? _].
Qed.

(** *** A connection *)

Section handshake.
Variable SECRET : string.
Variable createHmac_sha256 : list ascii → list ascii → Base64.Buffer.
Variable JSON_parse : string → Res json.


Lemma wp_onConnection ws token clock s :
  wp (onConnection SECRET createHmac_sha256 JSON_parse ws token clock)
     (λ w s' _, same_shape s s' ∧ from_option (λ w, ws_id w = ws ∧ authed w) True w)
     (λ _ _ _, False) s.
Proof.
  assert (∀ used, same_shape s (with_usedJti used s)) as Hused by by constructor.
  unfold onConnection. destruct (nonempty token) as [tok|]; [|by wp_steps].
  wp_steps. destruct (Token.verifyToken _ _ _ _ _ _ _) as [r used'].
  wp_steps. destruct r as [payload|e]; [|by wp_steps].
  destruct (negb (truthy (prop (Some payload) "roomId"))); [by wp_steps|].
  destruct (negb (truthy (prop (Some payload) "peerId"))); [by wp_steps|].
  destruct (String.eqb_spec (trim (String_ (or_else (prop (Some payload) "roomId")
                                                    (Some (JStr ""))))) "") as [|Hr];
    [by wp_steps|].
  destruct (String.eqb_spec (trim (String_ (or_else (prop (Some payload) "peerId")
                                                    (Some (JStr ""))))) "") as [|Hp];
    [by wp_steps|].
  wp_steps. split; [done|]. split; [done|]. split; cbn [_tokenRoomId _tokenPeerId]; by rewrite trim_idemp.
Qed.

Lemma wf_shape s s' : wf s → same_shape s s' → wf s'.
Proof. intros [Hs Hf] H. split; [by eapply wf0_shape|by eapply full_shape]. Qed.

Lemma wp_state {A} (I : State → Prop) (m : M A) s out :
  wp m (λ _ s' _, I s') (λ _ s' _, I s') s → I (m (s, out)).2.1.
Proof.
  intros H. destruct (wp_run m _ _ s out H) as (evs & _ & Hm).
  by destruct (m (s, out)).1.
Qed.

Lemma wp_handler ws type requestId payload o s :
  wf s → (ws_id ws < next_ws s)%nat →
  wp (handler ws type requestId payload o) (λ _ s' _, wf s') (λ _ s' _, wf s') s.
Proof.
  intros Hwf Hws. unfold handler.
  destruct (is_str type "resumeSession"); [by apply wp_resumeSession|].
  destruct (is_str type "join").
  { eapply wp_mono; [by apply wp_join|by intros ? ? ? [? _]|done]. }
  apply wp_shaped; [mshaped| |]; intros; by eapply wf_shape.
Qed.

Lemma onMessage_wf ws type requestId payload o s out :
  wf s → (ws_id ws < next_ws s)%nat →
  wf (onMessage ws type requestId payload o (s, out)).2.1.
Proof.
  intros Hwf Hws.
  pose proof (wp_state wf _ s out (wp_handler ws type requestId payload o s Hwf Hws)) as H.
  unfold onMessage. by destruct (handler _ _ _ _ _ _) as [[|e] [s' out']].
Qed.

Lemma socket_elem s ws w : socket s ws = Some w → w ∈ sockets s ∧ ws_id w = ws.
Proof.
  unfold socket. destruct (list_find _ _) as [[i x]|] eqn:Hfind; [|done].
  intros [= <-]. apply list_find_Some in Hfind as (Hi & Hx & _).
  split; [by eapply list_elem_of_lookup_2|done].
Qed.

Lemma init_wf : wf init.
Proof.
  split; [constructor|]; cbn; intros; try done; try lia.
  all: match goal with H : _ ∈ [] |- _ => by apply not_elem_of_nil in H end.
Qed.

Lemma step_wf s e s' out :
  wf s → step SECRET createHmac_sha256 JSON_parse s e = Some (s', out) → wf s'.
Proof.
  intros Hwf Hstep. unfold Gated.step in Hstep.
  destruct (action _ _ _ s e) as [m|] eqn:Hact; [|done]. cbn in Hstep.
  injection Hstep as Hm. assert (s' = (m (s, [])).2.1) as -> by by rewrite Hm. clear Hm out.
  destruct e; cbn in Hact.
  - injection Hact as <-. apply (wp_state wf). wp_step.
    eapply wp_mono; [apply wp_onConnection| |done]. cbn beta.
    intros w s1 _ [H1 Hw]. wp_steps. destruct Hwf as [Hs Hf].
    split; [|exact (full_shape None s s1 H1 Hf)].
    rewrite <- (sh_next_ws _ _ H1) in *. apply wf0_connect; [by eapply wf0_shape|done].
  - destruct (socket s ws) as [w|] eqn:Hw; [|done]. injection Hact as <-.
    apply socket_elem in Hw as [Hw _].
    apply onMessage_wf; [done|]. by apply (wf_sockets _ (proj1 Hwf)).
  - destruct (socket s ws) as [w|] eqn:Hw; [|done]. injection Hact as <-.
    apply (wp_state wf). wp_steps. eapply wp_mono; [apply wp_onClose|done|done].
    + destruct Hwf as [Hs Hf]. split; [by apply wf0_disconnect|exact Hf].
    + cbn. intros (w' & -> & Hin)%list_elem_of_fmap. apply list_elem_of_In in Hin.
      apply filter_In in Hin as [_ Hne]. by rewrite Nat.eqb_refl in Hne.
  - destruct (list_find _ _) as [[i [t a]]|] eqn:Hfind; [|done]. injection Hact as <-.
    apply list_find_Some in Hfind as (Hi & Ht & _). cbn in Ht. subst t.
    apply list_elem_of_lookup_2 in Hi.
    destruct (wf_timers _ (proj1 Hwf) _ _ Hi) as (Hc & Hin & _).
    apply (wp_state wf). unfold clearTimeout. wp_steps. fold (cleared timer s).
    eapply wp_mono; [apply wp_destroyPeer| |done].
    + destruct Hwf as [Hs Hf]. split; [by apply wf0_cleared|exact Hf].
    + apply no_timer_cleared; [by destruct Hwf|done].
    + done.
    + by intros _ ? _ [? _].
  - destruct (JsMap.get (rooms s) roomId); [|done]. cbn in Hact.
    case_bool_decide; [|done]. injection Hact as <-. apply (wp_state wf).
    apply wp_shaped; [apply on_volumes_shaped| |]; intros; by eapply wf_shape.
  - destruct (JsMap.get (rooms s) roomId); [|done]. cbn in Hact.
    injection Hact as <-. apply (wp_state wf).
    apply wp_shaped; [apply on_silence_shaped| |]; intros; by eapply wf_shape.
  - destruct (JsMap.get _ _); [|done]. cbn in Hact. injection Hact as <-.
    apply (wp_state wf).
    apply wp_shaped; [mshaped| |]; intros; by eapply wf_shape.
  - destruct (JsMap.get _ _); [|done]. cbn in Hact. injection Hact as <-.
    apply (wp_state wf).
    apply wp_shaped; [mshaped| |]; intros; by eapply wf_shape.
  - destruct (JsMap.get _ _); [|done]. cbn in Hact. injection Hact as <-.
    apply (wp_state wf).
    apply wp_shaped; [mshaped| |]; intros; by eapply wf_shape.
  - case_bool_decide; [|done]. injection Hact as <-. apply (wp_state wf).
    apply wp_shaped; [mshaped| |]; intros; by eapply wf_shape.
Qed.

Lemma reachable_wf s : reachable SECRET createHmac_sha256 JSON_parse s → wf s.
Proof. induction 1; [apply init_wf|by eapply step_wf]. Qed.

End handshake.

End Steps.

(** ** In every state the token-gated server reaches *)

Module Reach.
Import Gated Dispatch Wp Shape Wf Updates Control Steps.

Lemma elem_get {V} (m : JsMap.t V) k v : (k, v) ∈ m → is_Some (JsMap.get m k).
Proof.
  unfold JsMap.get. induction m as [|[x y] m IH]; cbn.
  - by intros ?%not_elem_of_nil.
  - intros [E|Hin]%elem_of_cons.
    + injection E as -> ->. by rewrite String.eqb_refl.
    + destruct (String.eqb k x); [done|by apply IH].
Qed.

Section reach.
Variable SECRET : string.
Variable createHmac_sha256 : list ascii → list ascii → Base64.Buffer.
Variable JSON_parse : string → Res json.

(** X18: in every state the gated server reaches, the session index
    points at a peer object that carries the key as its [sessionId]. *)
Theorem sessions_point_to_their_peer s sid a :
  reachable SECRET createHmac_sha256 JSON_parse s →
  JsMap.get (sessions s) sid = Some a →
  is_Some (heap s !! a) ∧ Client.sessionId (deref s a) = sid.
Proof.
  intros Hs%reachable_wf Hget. destruct Hs as [Hs _].
  destruct (wf_sessions _ Hs _ _ (get_elem _ _ _ Hget)) as [Ha E].
  split; [by apply lookup_lt_is_Some_2|done].
Qed.

(** X19: in every state the gated server reaches, a room is published
    under its own id, and a peer in its peer map is listed under its own
    [peerId] and carries the room's id as its [roomId]. *)
Theorem members_are_bound s k r pk a :
  reachable SECRET createHmac_sha256 JSON_parse s →
  JsMap.get (rooms s) k = Some r → JsMap.get (Room.peers r) pk = Some a →
  Room.id r = k ∧ Client.peerId (deref s a) = pk ∧ Client.roomId (deref s a) = Some k.
Proof.
  intros Hs%reachable_wf Hr Hp. destruct Hs as [Hs _].
  destruct (wf_rooms _ Hs _ _ Hr) as [Hid _].
  by destruct (wf_members _ Hs _ _ _ _ Hr Hp) as (_ & ? & ?).
Qed.

(** X20: between two events no room of the gated server is empty: a
    room is made when its first peer enters and deleted when the last one
    is destroyed. Its key is never the empty string. *)
Theorem no_empty_room s k r :
  reachable SECRET createHmac_sha256 JSON_parse s →
  JsMap.get (rooms s) k = Some r → Room.peers r ≠ [] ∧ k ≠ "".
Proof.
  intros [Hs Hf]%reachable_wf Hr. split; [by apply (Hf k r)|].
  by destruct (wf_rooms _ Hs _ _ Hr).
Qed.

(** X21: a pending grace timer is the one its peer records in
    [cleanupTimer]; the peer still has its session and its socket is no
    longer open. *)
Theorem timers_wait_for_closed_peers s t a :
  reachable SECRET createHmac_sha256 JSON_parse s →
  (t, a) ∈ timers s →
  Client.cleanupTimer (deref s a) = Some t ∧
  JsMap.get (sessions s) (Client.sessionId (deref s a)) = Some a ∧
  socket s (Client.ws (deref s a)) = None.
Proof.
  intros Hs%reachable_wf Ht. destruct Hs as [Hs _].
  destruct (wf_timers _ Hs _ _ Ht) as (Hc & Hin & Hws). split; [done|]. split.
  - destruct (elem_get _ _ _ Hin) as [a' Ha']. rewrite Ha'. f_equal.
    by apply (wf_sessions_inj _ Hs (Client.sessionId (deref s a))); [apply get_elem|].
  - destruct (socket s _) as [w|] eqn:Hw; [|done]. apply socket_elem in Hw as [Hin' E].
    destruct Hws. apply list_elem_of_fmap. by exists w.
Qed.

(** X22: an admitted socket carries a room id and a peer id from its
    token, so [requireRoomIdMatch] and [requireBoundIdentity] never
    refuse it with [not_authed]. *)
Theorem admitted_sockets_authed s ws w r sid o st :
  reachable SECRET createHmac_sha256 JSON_parse s →
  socket s ws = Some w →
  (requireRoomIdMatch w r st).1 ≠ Throw "not_authed" ∧
  (requireBoundIdentity w sid o st).1 ≠ Throw "not_authed".
Proof.
  intros Hs%reachable_wf [Hin _]%socket_elem. destruct Hs as [Hs _].
  destruct (wf_sockets _ Hs _ Hin) as [_ [Hr Hp]].
  unfold requireRoomIdMatch, requireBoundIdentity.
  rewrite (proj2 (String.eqb_neq _ _) Hr), (proj2 (String.eqb_neq _ _) Hp).
  split; repeat case_match; done.
Qed.


(** X24: when the grace timer [t] fires, its peer is destroyed: it is
    left in no room's peer map and in no entry of the session index. *)
Theorem grace_expiry_removes_peer s t s' out :
  reachable SECRET createHmac_sha256 JSON_parse s →
  step SECRET createHmac_sha256 JSON_parse s (GraceExpired t) = Some (s', out) →
  ∃ a, (t, a) ∈ timers s ∧ gone a s'.
Proof.
  intros Hwf%reachable_wf Hstep. unfold Gated.step in Hstep. cbn in Hstep.
  destruct (list_find _ _) as [[i [t' a]]|] eqn:Hfind; [|done]. cbn in Hstep.
  injection Hstep as Hm. apply (f_equal fst) in Hm. cbn [fst] in Hm.
  apply list_find_Some in Hfind as (Hi & Ht & _). cbn in Ht. subst t'.
  apply list_elem_of_lookup_2 in Hi. exists a. split; [done|].
  destruct (wf_timers _ (proj1 Hwf) _ _ Hi) as (Hc & Hin & _).
  assert (wp (clearTimeout t ;;; destroyPeer a) (λ _ s' _, gone a s') (λ _ _ _, False) s) as H.
  { unfold clearTimeout. wp_steps. fold (cleared t s).
    eapply wp_mono; [apply wp_destroyPeer| |done].
    - destruct Hwf as [Hs Hf]. split; [by apply wf0_cleared|exact Hf].
    - apply no_timer_cleared; [by destruct Hwf|done].
    - done.
    - by intros _ ? _ [_ ?]. }
  destruct (wp_run _ _ _ s [] H) as (evs & _ & Hrun). rewrite <- Hm.
  by destruct ((clearTimeout t;;; destroyPeer a) (s, [])).1.
Qed.

(** X25: the close of a socket removes no peer and tells no one: the
    rooms and the session index stay as they are and nothing is sent. *)
Theorem close_keeps_membership s ws clock_ms s' out :
  step SECRET createHmac_sha256 JSON_parse s (SocketClosed ws clock_ms) = Some (s', out) →
  rooms s' = rooms s ∧ sessions s' = sessions s ∧ out = [].
Proof.
  intros Hstep. unfold Gated.step in Hstep. cbn [action] in Hstep.
  destruct (socket s ws); [|done]. cbn [mbind option_bind] in Hstep.
  injection Hstep as Hm.
  set (m := (modify _ ;;; onClose ws clock_ms)) in Hm.
  assert (wp m (λ _ s' evs, rooms s' = rooms s ∧ sessions s' = sessions s ∧ evs = [])
               (λ _ _ _, False) s) as H.
  { unfold m, onClose, scheduleGraceCleanup, clearTimeout. wp_steps.
    destruct (list_find _ _) as [[i a]|]; [|by wp_steps]. wp_steps.
    destruct (Client.cleanupTimer _); cbn [from_option]; wp_steps; done. }
  destruct (wp_run _ _ _ s [] H) as (evs & Hout & Hrun). clearbody m. clear H.
  destruct (m (s, [])) as [[[]|e] [s1 out1]]; cbn [fst snd] in *; [|done].
  destruct Hrun as (? & ? & ->). by simplify_eq.
Qed.

End reach.

Lemma sessions_point_to_their_peer_witness :
  is_Some (heap Scenario.produced !! 0%nat) ∧
  Client.sessionId (deref Scenario.produced 0%nat) = "s1".
Proof.
  apply (sessions_point_to_their_peer Token.dev_secret Sha256.hmac Json.parse).
  - apply Scenario.produced_reachable.
  - reflexivity.
Defined.

Lemma members_are_bound_witness :
  Room.id Cases.r1 = "r1" ∧ Client.peerId (deref Scenario.produced 1%nat) = "p2" ∧
  Client.roomId (deref Scenario.produced 1%nat) = Some "r1".
Proof.
  apply (members_are_bound Token.dev_secret Sha256.hmac Json.parse).
  - apply Scenario.produced_reachable.
  - reflexivity.
  - reflexivity.
Defined.

Lemma no_empty_room_witness : Room.peers Cases.r1 ≠ [] ∧ "r1" ≠ "".
Proof.
  apply (no_empty_room Token.dev_secret Sha256.hmac Json.parse Scenario.produced).
  - apply Scenario.produced_reachable.
  - reflexivity.
Defined.

Lemma timers_wait_for_closed_peers_witness :
  Client.cleanupTimer (deref Cases.closed 0%nat) = Some 0%nat ∧
  JsMap.get (sessions Cases.closed) (Client.sessionId (deref Cases.closed 0%nat)) = Some 0%nat ∧
  socket Cases.closed (Client.ws (deref Cases.closed 0%nat)) = None.
Proof.
  apply (timers_wait_for_closed_peers Token.dev_secret Sha256.hmac Json.parse).
  - apply Cases.closed_reachable.
  - apply elem_of_cons. left. reflexivity.
Defined.

Lemma admitted_sockets_authed_witness :
  (requireRoomIdMatch Cases.p1 "r2" (Cases.admitted, [])).1 ≠ Throw "not_authed" ∧
  (requireBoundIdentity Cases.p1 "s1" Cases.nothing (Cases.admitted, [])).1
  ≠ Throw "not_authed".
Proof.
  apply (admitted_sockets_authed Token.dev_secret Sha256.hmac Json.parse Cases.admitted 0%nat).
  - apply Cases.admitted_reachable.
  - reflexivity.
Defined.


Lemma grace_expiry_removes_peer_witness :
  ∃ a, (0%nat, a) ∈ timers Cases.closed ∧ gone a Cases.expired.1.
Proof.
  apply (grace_expiry_removes_peer Token.dev_secret Sha256.hmac Json.parse Cases.closed 0%nat
           Cases.expired.1 Cases.expired.2).
  - apply Cases.closed_reachable.
  - vm_compute. reflexivity.
Defined.

Lemma close_keeps_membership_witness :
  rooms Cases.closed = rooms Scenario.produced ∧
  sessions Cases.closed = sessions Scenario.produced ∧ @nil Output = [].
Proof.
  apply (close_keeps_membership Token.dev_secret Sha256.hmac Json.parse Scenario.produced
           0%nat 2000).
  vm_compute. reflexivity.
Defined.

End Reach.

(** ** The server without the token gate *)

Module UngatedSpec.
Import Gated Dispatch Wp Shape Wf Updates Control Steps.

(** *** Every request is answered once *)




(** A close that gives no code. *)
Definition plain (o : Output) : Prop :=
  ∀ w code reason, o = Close w code reason → code = None.






(** *** [join] takes the session over and moves it *)

Lemma resetPeerMedia_total a : total (resetPeerMedia a).
Proof. mnothrow. Qed.

(** The peer maps of the rooms are those of [s]. *)
Definition same_rooms (s s' : State) : Prop :=
  ∀ k, room_shape <$> JsMap.get (rooms s') k = room_shape <$> JsMap.get (rooms s) k.

(** What [adopt] has done to the peer at [a] that another socket held. *)
Definition taken (ws : Ws) (s : State) (a : Addr) (s' : State) (evs : list Output) : Prop :=
  Client.ws (deref s' a) = ws_id ws ∧
  Client.peerId (deref s' a) = Client.peerId (deref s a) ∧
  (Client.ws (deref s a) ≠ ws_id ws → Close (Client.ws (deref s a)) None "" ∈ evs).

Lemma wp_adopt_existing ws sid payload o s a :
  JsMap.get (sessions s) sid = Some a → (a < length (heap s))%nat →
  wp (Ungated.adopt ws sid payload o)
     (λ a' s' evs,
        a' = a ∧ same_rooms s s' ∧ length (heap s') = length (heap s) ∧ taken ws s a s' evs)
     (λ _ _ _, False) s.
Proof.
  intros Hsid Ha. unfold Ungated.adopt. wp_steps. rewrite Hsid. do 3 wp_step.
  assert (wp (from_option clearTimeout (ret tt) (Client.cleanupTimer (deref s a)))
            (λ _ s1 _, rooms s1 = rooms s ∧ heap s1 = heap s) (λ _ _ _, False) s) as Hclear.
  { destruct (Client.cleanupTimer (deref s a)); cbn [from_option];
      unfold clearTimeout; by wp_steps. }
  eapply wp_mono; [exact Hclear| |done]. clear Hclear. cbn beta.
  intros _ s1 evs1 [Hr1 Hh1]. do 2 wp_step.
  set (s2 := with_heap _ s1).
  assert (same_rooms s s2) as Hr2 by (intros k; cbn; by rewrite Hr1).
  assert (length (heap s2) = length (heap s)) as Hl2.
  { unfold s2. by rewrite length_alter_heap, Hh1. }
  assert (Client.peerId (deref s2 a) = Client.peerId (deref s a)) as Hp2.
  { unfold s2. rewrite (deref_alter_field Client.peerId) by done. unfold deref. by rewrite Hh1. }
  clearbody s2. clear s1 Hr1 Hh1. wp_step.
  apply wp_quiet; [apply resetPeerMedia_shaped|apply resetPeerMedia_total|].
  intros _ s3 evs3 H3. wp_step.
  assert (same_rooms s s3) as Hr3.
  { intros k. by rewrite (sh_rooms _ _ H3 k), (Hr2 k). }
  assert (length (heap s3) = length (heap s)) as Hl3 by by rewrite (shape_length _ _ H3).
  assert (Client.peerId (deref s3 a) = Client.peerId (deref s a)) as Hp3.
  { by destruct (shape_fields _ _ a H3) as (_ & -> & _). }
  clear s2 Hr2 Hl2 Hp2 H3.
  assert (∀ evs, (Client.ws (deref s a) ≠ ws_id ws → Close (Client.ws (deref s a)) None "" ∈ evs) →
            a = a ∧ same_rooms s (with_heap (alter (Client.with_ws (ws_id ws)) a (heap s3)) s3) ∧
            length (heap (with_heap (alter (Client.with_ws (ws_id ws)) a (heap s3)) s3))
            = length (heap s) ∧
            taken ws s a (with_heap (alter (Client.with_ws (ws_id ws)) a (heap s3)) s3) evs)
    as Hend.
  { intros evs Hevs. split; [done|]. split; [exact Hr3|]. split.
    { by rewrite length_alter_heap. }
    split; [|split; [|done]].
    - rewrite deref_alter_eq; [done|lia].
    - by rewrite (deref_alter_field Client.peerId). }
  wp_steps. destruct (negb _) eqn:Hne; wp_steps; apply Hend; intros Hws.
  - set_solver.
  - apply negb_false_iff, Nat.eqb_eq in Hne. done.
Qed.

Lemma wp_kept {A} (I : State → Prop) (m : M A) Q E s :
  preserves I m → emits (λ _, True) m → I s →
  (∀ a s' evs, I s' → Q a s' evs) →
  (∀ e s' evs, I s' → E e s' evs) →
  wp m Q E s.
Proof.
  intros Hp He Hs HQ HE out. destruct (He s out) as (evs & Hout & _).
  pose proof (Hp (s, out) Hs) as Hs'.
  exists evs. split; [done|]. destruct (m (s, out)) as [[a|e] [s' out']]; cbn in *; auto.
Qed.

(** The heap is [h] and the rooms other than [roomId] are those of [m]. *)
Definition entering (h : list Client.t) (m : JsMap.t Room.t) (roomId : string) (s : State)
  : Prop :=
  heap s = h ∧ ∀ k, k ≠ roomId → JsMap.get (rooms s) k = JsMap.get m k.

Ltac entering_tac :=
  idtac;
  match goal with
  | H : entering _ _ _ _ |- _ =>
      let Hh := fresh in let Hr := fresh in
      destruct H as [Hh Hr]; repeat case_match;
      (split; [exact Hh|]);
      let k := fresh in let Hk := fresh in
      intros k Hk; cbn;
      rewrite ?JsMap.get_set, ?(proj2 (String.eqb_neq _ _) Hk); by apply Hr
  end.

Lemma wp_legacy_join ws requestId payload o s a :
  field payload "roomId" ≠ "" → field payload "sessionId" ≠ "" →
  JsMap.get (sessions s) (field payload "sessionId") = Some a →
  (a < length (heap s))%nat →
  wp (Ungated.join ws requestId payload o)
     (λ _ s' evs,
        taken ws s a s' evs ∧
        Client.roomId (deref s' a) = Some (field payload "roomId") ∧
        ∀ k, k ≠ field payload "roomId" →
             room_shape <$> JsMap.get (rooms s') k = room_shape <$> JsMap.get (rooms s) k)
     (λ _ s' evs, taken ws s a s' evs) s.
Proof.
  intros Hroom Hsid Hget Ha. unfold Ungated.join, Ungated.session_of.
  rewrite (proj2 (String.eqb_neq _ _) Hroom), (proj2 (String.eqb_neq _ _) Hsid).
  set (roomId := field payload "roomId") in *. clearbody roomId.
  wp_step. eapply wp_mono; [by apply wp_adopt_existing| |done]. cbn beta.
  intros ? s1 evs1 (-> & Hr1 & Hl1 & Hw1 & Hp1 & Hc1). do 4 wp_step.
  set (s2 := with_heap _ s1).
  assert (taken ws s a s2 evs1 ∧ Client.roomId (deref s2 a) = Some roomId) as [Ht2 Hroom2].
  { unfold s2. split; [split; [|split; [|done]]|].
    - by rewrite (deref_alter_field Client.ws).
    - by rewrite (deref_alter_field Client.peerId).
    - rewrite deref_alter_eq; [done|lia]. }
  assert (∀ s' evs, entering (heap s2) (rooms s2) roomId s' →
            taken ws s a s' (evs1 ++ evs) ∧
            Client.roomId (deref s' a) = Some roomId ∧
            ∀ k, k ≠ roomId →
                 room_shape <$> JsMap.get (rooms s') k = room_shape <$> JsMap.get (rooms s) k)
    as Hend.
  { intros s' evs [Hh Hr]. unfold taken, deref in *. rewrite Hh. split; [|split; [done|]].
    - destruct Ht2 as (? & ? & Hc). split; [done|]. split; [done|].
      intros Hne. apply elem_of_app. left. by apply Hc.
    - intros k Hk. rewrite (Hr k Hk). apply Hr1. }
  apply (wp_kept (entering (heap s2) (rooms s2) roomId)).
  - mpres entering_tac.
  - mtrue.
  - by split.
  - intros _ s' evs H'. by apply Hend.
  - intros _ s' evs H'. by apply Hend.
Qed.


(** X27: on the server without the token gate, when a session that is
    in the peer map of a room joins another room, the peer's [roomId]
    becomes the new room and the peer is not taken out of the old room:
    the old room's peer map still lists it. *)
Theorem legacy_join_keeps_old_room ws requestId payload o s out a k1 r1 pk :
  field payload "roomId" ≠ "" → field payload "sessionId" ≠ "" →
  JsMap.get (sessions s) (field payload "sessionId") = Some a →
  is_Some (heap s !! a) →
  JsMap.get (rooms s) k1 = Some r1 → JsMap.get (Room.peers r1) pk = Some a →
  k1 ≠ field payload "roomId" →
  (Ungated.join ws requestId payload o (s, out)).1 = Ok tt →
  Client.roomId (deref (Ungated.join ws requestId payload o (s, out)).2.1 a)
  = Some (field payload "roomId") ∧
  ∃ r1', JsMap.get (rooms (Ungated.join ws requestId payload o (s, out)).2.1) k1 = Some r1' ∧
         JsMap.get (Room.peers r1') pk = Some a.
Proof.
  intros Hroom Hsid Hget Ha%lookup_lt_is_Some_1 Hr1 Hpk Hne Hok.
  destruct (wp_run _ _ _ s out (wp_legacy_join ws requestId payload o s a Hroom Hsid Hget Ha))
    as (evs & _ & H).
  rewrite Hok in H. destruct H as (_ & Hr & Hk). split; [done|].
  specialize (Hk k1 Hne). rewrite Hr1 in Hk.
  destruct (JsMap.get (rooms (Ungated.join ws requestId payload o (s, out)).2.1) k1)
    as [r1'|]; [|done].
  exists r1'. split; [done|]. injection Hk as _ Hp. by rewrite Hp.
Qed.

(** X28: on the server without the token gate any socket takes over a
    session by naming it: a [join] that names the session of a peer held
    by another socket closes that socket (without a code) and binds the
    peer to the new one, whether the join then succeeds or fails. The
    peer keeps its peer id, whatever the payload asks for. *)
Theorem legacy_session_takeover ws requestId payload o s out a :
  field payload "roomId" ≠ "" → field payload "sessionId" ≠ "" →
  JsMap.get (sessions s) (field payload "sessionId") = Some a →
  is_Some (heap s !! a) →
  Client.ws (deref s a) ≠ ws_id ws →
  ∃ s' evs,
    Ungated.onMessage ws (Some (JStr "join")) requestId payload o (s, out)
    = (Ok tt, (s', out ++ evs)) ∧
    Close (Client.ws (deref s a)) None "" ∈ evs ∧
    Client.ws (deref s' a) = ws_id ws ∧
    Client.peerId (deref s' a) = Client.peerId (deref s a).
Proof.
  intros Hroom Hsid Hget Ha%lookup_lt_is_Some_1 Hws.
  destruct (wp_run _ _ _ s out (wp_legacy_join ws requestId payload o s a Hroom Hsid Hget Ha))
    as (evs & Hout & H).
  unfold Ungated.onMessage, Ungated.handler. cbn [is_str String.eqb Ascii.eqb Bool.eqb].
  destruct (Ungated.join ws requestId payload o (s, out)) as [[[]|e] [s' out']];
    cbn [fst snd] in *; subst out'.
  - destruct H as ((Hw & Hp & Hc) & _). exists s', evs. auto.
  - destruct H as (Hw & Hp & Hc).
    exists s', (evs ++ [Requests.refusal ws requestId e]). split; [by rewrite app_assoc|].
    split; [|done]. apply elem_of_app. left. auto.
Qed.

(** *** Requests below [join] *)

Lemma onMessage_returns ws type requestId payload o s out s1 evs1 :
  wp (Ungated.handler ws type requestId payload o)
     (λ _ s' evs, s' = s1 ∧ evs = evs1) (λ _ _ _, False) s →
  Ungated.onMessage ws type requestId payload o (s, out) = (Ok tt, (s1, out ++ evs1)).
Proof.
  intros H. destruct (wp_run _ _ _ s out H) as (evs & Hout & Hm). unfold Ungated.onMessage.
  destruct (Ungated.handler _ _ _ _ _ _) as [[[]|e] [s' out']]; cbn [fst snd] in *; [|done].
  by destruct Hm as [-> ->]; subst.
Qed.

Lemma onMessage_throws ws type requestId payload o s out e1 :
  wp (Ungated.handler ws type requestId payload o)
     (λ _ _ _, False) (λ e s' evs, e = e1 ∧ s' = s ∧ evs = []) s →
  Ungated.onMessage ws type requestId payload o (s, out)
  = (Ok tt, (s, out ++ [Requests.refusal ws requestId e1])).
Proof.
  intros H. destruct (wp_run _ _ _ s out H) as (evs & Hout & Hm). unfold Ungated.onMessage.
  destruct (Ungated.handler _ _ _ _ _ _) as [[[]|e] [s' out']]; cbn [fst snd] in *; [done|].
  destruct Hm as (-> & -> & ->). by rewrite app_nil_r in Hout; subst.
Qed.

Ltac located Hsid Hget :=
  unfold Ungated.handler; cbn [is_str String.eqb Ascii.eqb Bool.eqb orb];
  unfold Ungated.locate; rewrite (proj2 (String.eqb_neq _ _) Hsid);
  wp_steps; rewrite Hget; wp_steps.

(** X29: [consume] on the server without the token gate does not look
    at who owns the producer. Once the peer is in a room and has a
    receive transport, the payload is not null and the engine agrees, the
    consumer is recorded and the reply carries its id, the producer id as
    the payload gave it, and its kind and parameters as the engine gave
    them; nothing else is sent. *)
Theorem legacy_consume_unchecked ws requestId payload o s out a k r t producerId c :
  field payload "sessionId" ≠ "" →
  JsMap.get (sessions s) (field payload "sessionId") = Some a →
  Client.roomId (deref s a) = Some k → JsMap.get (rooms s) k = Some r →
  Client.recv (deref s a) = Some t →
  prop_strict payload "producerId" = Ok producerId →
  o_canConsume (Ungated.engine o) = true → o_consume (Ungated.engine o) = Ok c →
  Ungated.onMessage ws (Some (JStr "consume")) requestId payload o (s, out)
  = (Ok tt,
     (with_heap
        (alter (λ p, Client.with_consumers
                       (JsMap.set (Client.consumers p) c.1
                          {| consumer_id := c.1; consumer_kind := Ungated.engine_kind o;
                             consumer_rtpParameters := c.2 |}) p)
               a (heap s)) s,
      out ++ [Send (ws_id ws)
                (response requestId true
                   (Some (obj [("id", Some (JStr c.1)); ("producerId", producerId);
                               ("kind", Some (JStr (Ungated.engine_kind o)));
                               ("rtpParameters", c.2)])))])).
Proof.
  intros Hsid Hget Hk Hr Ht Hp Hcan Hc. apply onMessage_returns. located Hsid Hget.
  unfold Ungated.consume. wp_steps. rewrite Hk. cbn [from_option]. wp_steps. rewrite Hr, Ht.
  wp_steps. rewrite Hp. rewrite Hcan. cbn [negb]. wp_steps. rewrite Hc. wp_steps. done.
Qed.

(** X30: on the server without the token gate [resumeConsumer] for a
    consumer the peer does not have is answered with success and does
    nothing, while [pauseProducer] and [resumeProducer] for a producer the
    peer does not have fail with [producer not found]. *)
Theorem legacy_missing_objects ws requestId payload o s out a :
  field payload "sessionId" ≠ "" →
  JsMap.get (sessions s) (field payload "sessionId") = Some a →
  payload ≠ None → payload ≠ Some JNull →
  Ungated.get_by (Client.consumers (deref s a)) (prop payload "consumerId") = None →
  Ungated.get_by (Client.producers (deref s a)) (prop payload "producerId") = None →
  Ungated.onMessage ws (Some (JStr "resumeConsumer")) requestId payload o (s, out)
  = (Ok tt, (s, out ++ [Send (ws_id ws)
                          (response requestId true
                             (Some (obj [("resumed", Some (JBool true))])))])) ∧
  Ungated.onMessage ws (Some (JStr "pauseProducer")) requestId payload o (s, out)
  = (Ok tt, (s, out ++ [Requests.refusal ws requestId "producer not found"])) ∧
  Ungated.onMessage ws (Some (JStr "resumeProducer")) requestId payload o (s, out)
  = (Ok tt, (s, out ++ [Requests.refusal ws requestId "producer not found"])).
Proof.
  intros Hsid Hget Hn1 Hn2 Hc Hp.
  assert (∀ k, prop_strict payload k = Ok (prop payload k)) as Hstrict.
  { intros k. by destruct payload as [[]|]. }
  split; [|split].
  - apply onMessage_returns. located Hsid Hget. unfold Ungated.resumeConsumer.
    rewrite Hstrict. wp_steps. rewrite Hc. wp_steps. done.
  - apply onMessage_throws. located Hsid Hget. unfold Ungated.pauseProducer.
    rewrite Hstrict. wp_steps. rewrite Hp. wp_steps. done.
  - apply onMessage_throws. located Hsid Hget. unfold Ungated.resumeProducer.
    rewrite Hstrict. wp_steps. rewrite Hp. wp_steps. done.
Qed.


(** *** Concrete requests *)

Definition answers0 : Ungated.Answers :=
  {| Ungated.engine := Scenario.engine "" "" "C"; Ungated.rid_peer := "1";
     Ungated.engine_kind := "audio" |}.

(** A socket that is not the one p1 is on. *)
Definition stranger : Ws :=
  {| ws_id := 7; _tokenRoomId := ""; _tokenPeerId := ""; _tokenSessionId := "" |}.

Definition move_payload : jsval :=
  Some (JObj [("roomId", JStr "r2"); ("sessionId", JStr "s1")]).

(** p1 and p2 are in r1, p1 produces P and has a receive transport. *)
Definition receiving : State :=
  Eval vm_compute in
    default init
      (Scenario.run Scenario.produced
         [Scenario.request 0 "createTransport" 5
            [("sessionId", JStr "s1"); ("direction", JStr "recv")]
            (Scenario.engine "T2" "" "")]).

Definition consume_payload : jsval :=
  Some (JObj [("sessionId", JStr "s1"); ("producerId", JStr "P");
              ("rtpCapabilities", JObj [])]).

Definition missing_payload : jsval :=
  Some (JObj [("sessionId", JStr "s1"); ("consumerId", JStr "nope");
              ("producerId", JStr "nope")]).

Lemma legacy_join_keeps_old_room_witness :
  Client.roomId
    (deref (Ungated.join Cases.p1 (Some (JNum 9)) move_payload answers0
              (Scenario.produced, [])).2.1 0%nat)
  = Some (field move_payload "roomId") ∧
  ∃ r1',
    JsMap.get (rooms (Ungated.join Cases.p1 (Some (JNum 9)) move_payload answers0
                        (Scenario.produced, [])).2.1) "r1" = Some r1' ∧
    JsMap.get (Room.peers r1') "p1" = Some 0%nat.
Proof.
  apply (legacy_join_keeps_old_room Cases.p1 (Some (JNum 9)) move_payload answers0
           Scenario.produced [] 0%nat "r1" Cases.r1 "p1"); done.
Defined.

Lemma legacy_session_takeover_witness :
  ∃ s' evs,
    Ungated.onMessage stranger (Some (JStr "join")) (Some (JNum 9)) move_payload answers0
      (Scenario.produced, [])
    = (Ok tt, (s', [] ++ evs)) ∧
    Close (Client.ws (deref Scenario.produced 0%nat)) None "" ∈ evs ∧
    Client.ws (deref s' 0%nat) = ws_id stranger ∧
    Client.peerId (deref s' 0%nat) = Client.peerId (deref Scenario.produced 0%nat).
Proof.
  apply (legacy_session_takeover stranger (Some (JNum 9)) move_payload answers0
           Scenario.produced [] 0%nat); done.
Defined.

Lemma legacy_consume_unchecked_witness :
  Ungated.onMessage Cases.p1 (Some (JStr "consume")) (Some (JNum 9)) consume_payload answers0
    (receiving, [])
  = (Ok tt,
     (with_heap
        (alter (λ p, Client.with_consumers
                       (JsMap.set (Client.consumers p) "C"
                          {| consumer_id := "C"; consumer_kind := "audio";
                             consumer_rtpParameters := Some (JObj []) |}) p)
               0%nat (heap receiving)) receiving,
      [] ++ [Send 0%nat
               (response (Some (JNum 9)) true
                  (Some (obj [("id", Some (JStr "C")); ("producerId", Some (JStr "P"));
                              ("kind", Some (JStr "audio"));
                              ("rtpParameters", Some (JObj []))])))])).
Proof.
  apply (legacy_consume_unchecked Cases.p1 (Some (JNum 9)) consume_payload answers0
           receiving [] 0%nat "r1" Cases.r1 "T2" (Some (JStr "P")) ("C", Some (JObj [])));
    done.
Defined.

Lemma legacy_missing_objects_witness :
  Ungated.onMessage Cases.p1 (Some (JStr "resumeConsumer")) (Some (JNum 9)) missing_payload
    answers0 (Scenario.produced, [])
  = (Ok tt, (Scenario.produced,
             [] ++ [Send 0%nat
                      (response (Some (JNum 9)) true
                         (Some (obj [("resumed", Some (JBool true))])))])) ∧
  Ungated.onMessage Cases.p1 (Some (JStr "pauseProducer")) (Some (JNum 9)) missing_payload
    answers0 (Scenario.produced, [])
  = (Ok tt, (Scenario.produced,
             [] ++ [Requests.refusal Cases.p1 (Some (JNum 9)) "producer not found"])) ∧
  Ungated.onMessage Cases.p1 (Some (JStr "resumeProducer")) (Some (JNum 9)) missing_payload
    answers0 (Scenario.produced, [])
  = (Ok tt, (Scenario.produced,
             [] ++ [Requests.refusal Cases.p1 (Some (JNum 9)) "producer not found"])).
Proof.
  apply (legacy_missing_objects Cases.p1 (Some (JNum 9)) missing_payload answers0
           Scenario.produced [] 0%nat); done.
Defined.

End UngatedSpec.
